(** * BlitzBallz: physics, trajectory preview, grid spawning and turn states

    A shallow embedding of the game core and the properties proved of it.

    Numbers.  JavaScript numbers that carry geometry (positions, velocities,
    distances, times, weights) are modelled as real numbers, with [sqrt],
    [cos], [sin] and the arc tangent of the reals for the [Math] functions;
    rounding, [NaN] and overflow are not modelled, and the one [Infinity] of
    the code (the initial [tMax] of [raycastBrick]) is [None].  Numbers that
    the program only ever uses as integers (ids, grid coordinates, hit
    counters, levels, ball counts) are modelled in [Z], and array lengths and
    loop counters in [nat].

    Effects.  An object that a method mutates in place is returned next to
    the method's result.  The grid manager's counters and [Math.random] are
    threaded through a state monad; [performance.now] is an argument.

    Sources.  types.ts and utils/Vector2.ts (src/unnamed/part_003),
    physics/Physics.ts (part_000), physics/TrajectoryCalculator.ts (part_001),
    the grid manager with weighted pickups (part_002) and the one with
    interval pickups (src/managers/GridManager.ts), constants.ts and
    input/InputHandler.ts (both at the end of src/rendering/Renderer.ts),
    rendering/Renderer.ts and game/Game.ts. *)

From Stdlib Require Import Reals Lra Lia ZArith List Bool Permutation.
Import ListNotations.

Open Scope R_scope.

(** ** Comparisons of numbers as booleans *)

Definition Rltb (a b : R) : bool := if Rlt_dec a b then true else false.
Definition Rleb (a b : R) : bool := if Rle_dec a b then true else false.
Definition Rgtb (a b : R) : bool := Rltb b a.
Definition Rgeb (a b : R) : bool := Rleb b a.
Definition Reqb (a b : R) : bool := if Req_dec_T a b then true else false.

Infix "<?" := Rltb (at level 70, no associativity) : R_scope.
Infix "<=?" := Rleb (at level 70, no associativity) : R_scope.
Infix ">?" := Rgtb (at level 70, no associativity) : R_scope.
Infix ">=?" := Rgeb (at level 70, no associativity) : R_scope.
Infix "=?" := Reqb (at level 70, no associativity) : R_scope.

(** ** types.ts *)

Record Vector2 : Type := mkVector2 { x : R; y : R }.

Record Ball : Type := mkBall {
  id : Z;
  position : Vector2;
  velocity : Vector2;
  active : bool
}.

Record Brick : Type := mkBrick {
  brickId : Z;
  gridX : Z;
  gridY : Z;
  hits : Z;
  destroying : bool;
  destroyProgress : R
}.

Inductive PickupType : Type := ball | x2 | x3 | x5 | x10.

Record Pickup : Type := mkPickup {
  pickupId : Z;
  pickupGridX : Z;
  pickupGridY : Z;
  type : PickupType;
  collected : bool;
  collectProgress : R
}.

Inductive GameState : Type :=
  menu | aiming | launching | animating | paused | gameOver | settings.

Inductive SpeedMultiplier : Type := speed1 | speed2 | speed4.

Record TrajectoryPoint : Type := mkTrajectoryPoint {
  tpPosition : Vector2;
  isBounce : bool
}.

(** ** utils/Vector2.ts *)

Definition magnitude (v : Vector2) : R := sqrt (x v * x v + y v * y v).

Definition normalizeVector (v : Vector2) : Vector2 :=
  let mag := magnitude v in
  if mag =? 0 then {| x := 0; y := 0 |}
  else {| x := x v / mag; y := y v / mag |}.

Definition dotProduct (a b : Vector2) : R := x a * x b + y a * y b.

Definition reflectVector (v normal : Vector2) : Vector2 :=
  let d := dotProduct v normal in
  {| x := x v - 2 * d * x normal; y := y v - 2 * d * y normal |}.

(** ** physics/Physics.ts *)

Record BrickBounds : Type := mkBrickBounds {
  left : R;
  right : R;
  top : R;
  bottom : R
}.

Record Physics : Type := mkPhysics {
  gameWidth : R;
  _gameHeight : R;
  ballRadius : R;
  launchZoneTop : R
}.

Inductive WallSide : Type := WallLeft | WallRight | WallTop.

Record WallCollision : Type := mkWallCollision {
  wallCollided : bool;
  side : option WallSide
}.

Definition setPositionX (b : Ball) (v : R) : Ball :=
  {| id := id b; position := {| x := v; y := y (position b) |};
     velocity := velocity b; active := active b |}.

Definition setPositionY (b : Ball) (v : R) : Ball :=
  {| id := id b; position := {| x := x (position b); y := v |};
     velocity := velocity b; active := active b |}.

Definition setVelocityX (b : Ball) (v : R) : Ball :=
  {| id := id b; position := position b;
     velocity := {| x := v; y := y (velocity b) |}; active := active b |}.

Definition setVelocityY (b : Ball) (v : R) : Ball :=
  {| id := id b; position := position b;
     velocity := {| x := x (velocity b); y := v |}; active := active b |}.

Definition setActive (b : Ball) (a : bool) : Ball :=
  {| id := id b; position := position b; velocity := velocity b; active := a |}.

(** [updateBall]: the ball after the call. *)
Definition updateBall (b : Ball) (deltaTime speedMultiplier : R) : Ball :=
  if negb (active b) then b
  else
    let dt := deltaTime * speedMultiplier in
    let b1 := setPositionX b (x (position b) + x (velocity b) * dt) in
    setPositionY b1 (y (position b1) + y (velocity b1) * dt).

(** [checkWallCollision]: the ball after the call and the returned object. *)
Definition checkWallCollision (ph : Physics) (b : Ball) : Ball * WallCollision :=
  let r := ballRadius ph in
  if x (position b) - r <=? 0 then
    let b1 := setPositionX b r in
    let b2 := setVelocityX b1 (Rabs (x (velocity b1))) in
    (b2, {| wallCollided := true; side := Some WallLeft |})
  else if x (position b) + r >=? gameWidth ph then
    let b1 := setPositionX b (gameWidth ph - r) in
    let b2 := setVelocityX b1 (- Rabs (x (velocity b1))) in
    (b2, {| wallCollided := true; side := Some WallRight |})
  else if y (position b) - r <=? 0 then
    let b1 := setPositionY b r in
    let b2 := setVelocityY b1 (Rabs (y (velocity b1))) in
    (b2, {| wallCollided := true; side := Some WallTop |})
  else (b, {| wallCollided := false; side := None |}).

Definition checkBottomCollision (ph : Physics) (b : Ball) : bool :=
  y (position b) + ballRadius ph >=? launchZoneTop ph.

Inductive BrickFace : Type :=
  FaceTop | FaceBottom | FaceLeft | FaceRight | FaceCorner.

Record BrickCollision : Type := mkBrickCollision {
  brickCollided : bool;
  face : option BrickFace
}.

(** [Math.atan2] of the JavaScript library, from the arc tangent. *)
Definition atan2 (dy dx : R) : R :=
  if dx >? 0 then atan (dy / dx)
  else if dx <? 0 then
    if dy >=? 0 then atan (dy / dx) + PI else atan (dy / dx) - PI
  else if dy >? 0 then PI / 2
  else if dy <? 0 then - (PI / 2)
  else 0.

(** [checkBrickCollision]: the ball after the call and the returned object. *)
Definition checkBrickCollision (ph : Physics) (b : Ball) (brickBounds : BrickBounds)
  : Ball * BrickCollision :=
  let r := ballRadius ph in
  let bx := x (position b) in
  let by_ := y (position b) in
  let expandedLeft := left brickBounds - r in
  let expandedRight := right brickBounds + r in
  let expandedTop := top brickBounds - r in
  let expandedBottom := bottom brickBounds + r in
  if (bx <? expandedLeft) || (bx >? expandedRight)
     || (by_ <? expandedTop) || (by_ >? expandedBottom)
  then (b, {| brickCollided := false; face := None |})
  else
    let overlapLeft := bx - expandedLeft in
    let overlapRight := expandedRight - bx in
    let overlapTop := by_ - expandedTop in
    let overlapBottom := expandedBottom - by_ in
    let minOverlapX := Rmin overlapLeft overlapRight in
    let minOverlapY := Rmin overlapTop overlapBottom in
    let inCornerX := (bx <? left brickBounds) || (bx >? right brickBounds) in
    let inCornerY := (by_ <? top brickBounds) || (by_ >? bottom brickBounds) in
    if inCornerX && inCornerY then
      let cornerX :=
        if bx <? left brickBounds then left brickBounds else right brickBounds in
      let cornerY :=
        if by_ <? top brickBounds then top brickBounds else bottom brickBounds in
      let distToCorner := sqrt ((bx - cornerX) ^ 2 + (by_ - cornerY) ^ 2) in
      if distToCorner <=? r then
        let b1 := setVelocityX b (x (velocity b) * -1) in
        let b2 := setVelocityY b1 (y (velocity b1) * -1) in
        let pushAngle := atan2 (by_ - cornerY) (bx - cornerX) in
        let b3 := setPositionX b2 (cornerX + cos pushAngle * (r + 1)) in
        let b4 := setPositionY b3 (cornerY + sin pushAngle * (r + 1)) in
        (b4, {| brickCollided := true; face := Some FaceCorner |})
      else (b, {| brickCollided := false; face := None |})
    else if minOverlapX <? minOverlapY then
      if overlapLeft <? overlapRight then
        let b1 := setVelocityX b (- Rabs (x (velocity b))) in
        let b2 := setPositionX b1 (expandedLeft - 1) in
        (b2, {| brickCollided := true; face := Some FaceLeft |})
      else
        let b1 := setVelocityX b (Rabs (x (velocity b))) in
        let b2 := setPositionX b1 (expandedRight + 1) in
        (b2, {| brickCollided := true; face := Some FaceRight |})
    else
      if overlapTop <? overlapBottom then
        let b1 := setVelocityY b (- Rabs (y (velocity b))) in
        let b2 := setPositionY b1 (expandedTop - 1) in
        (b2, {| brickCollided := true; face := Some FaceTop |})
      else
        let b1 := setVelocityY b (Rabs (y (velocity b))) in
        let b2 := setPositionY b1 (expandedBottom + 1) in
        (b2, {| brickCollided := true; face := Some FaceBottom |}).

Definition getBrickBounds (brick : Brick)
    (cellWidth cellHeight gridOffsetX gridOffsetY gap : R) : BrickBounds :=
  let x0 := gridOffsetX + IZR (gridX brick) * cellWidth + gap / 2 in
  let y0 := gridOffsetY + IZR (gridY brick) * cellHeight + gap / 2 in
  let width := cellWidth - gap in
  let height := cellHeight - gap in
  {| left := x0; right := x0 + width; top := y0; bottom := y0 + height |}.

Record RayHit : Type := mkRayHit {
  point : Vector2;
  normal : Vector2;
  distance : R
}.

(** [hits.reduce((closest, hit) => ...)] on a non-empty array. *)
Definition closestOf (first : RayHit) (rest : list RayHit) : RayHit :=
  fold_left
    (fun closest hit => if distance hit <? distance closest then hit else closest)
    rest first.

Definition raycastWall (ph : Physics) (origin direction : Vector2) : option RayHit :=
  let r := ballRadius ph in
  let hits0 : list RayHit := [] in
  let hits1 :=
    if x direction <? 0 then
      let t := (r - x origin) / x direction in
      if t >? 0 then
        let pt := {| x := r; y := y origin + y direction * t |} in
        if (y pt >=? r) && (y pt <=? launchZoneTop ph - r) then
          let dist := t * sqrt (x direction ^ 2 + y direction ^ 2) in
          hits0 ++ [{| point := pt; normal := {| x := 1; y := 0 |}; distance := dist |}]
        else hits0
      else hits0
    else hits0 in
  let hits2 :=
    if x direction >? 0 then
      let t := (gameWidth ph - r - x origin) / x direction in
      if t >? 0 then
        let pt := {| x := gameWidth ph - r; y := y origin + y direction * t |} in
        if (y pt >=? r) && (y pt <=? launchZoneTop ph - r) then
          let dist := t * sqrt (x direction ^ 2 + y direction ^ 2) in
          hits1 ++ [{| point := pt; normal := {| x := -1; y := 0 |}; distance := dist |}]
        else hits1
      else hits1
    else hits1 in
  let hits3 :=
    if y direction <? 0 then
      let t := (r - y origin) / y direction in
      if t >? 0 then
        let pt := {| x := x origin + x direction * t; y := r |} in
        if (x pt >=? r) && (x pt <=? gameWidth ph - r) then
          let dist := t * sqrt (x direction ^ 2 + y direction ^ 2) in
          hits2 ++ [{| point := pt; normal := {| x := 0; y := 1 |}; distance := dist |}]
        else hits2
      else hits2
    else hits2 in
  match hits3 with
  | [] => None
  | h :: rest => Some (closestOf h rest)
  end.

(** [tMax] starts at [Infinity]: [None] stands for it. *)
Definition minWithInfinity (tMax : option R) (t : R) : option R :=
  match tMax with
  | None => Some t
  | Some m => Some (Rmin m t)
  end.

Definition gtInfinity (t : R) (tMax : option R) : bool :=
  match tMax with
  | None => false
  | Some m => t >? m
  end.

Definition raycastBrick (ph : Physics) (origin direction : Vector2)
    (bounds : BrickBounds) : option RayHit :=
  let r := ballRadius ph in
  let expanded :=
    {| left := left bounds - r; right := right bounds + r;
       top := top bounds - r; bottom := bottom bounds + r |} in
  let tMin0 := 0 in
  let tMax0 : option R := None in
  let hitNormal0 := {| x := 0; y := 0 |} in
  (* X axis: [None] is the early [return null] *)
  let afterX : option (R * option R * Vector2) :=
    if negb (x direction =? 0) then
      let t1 := (left expanded - x origin) / x direction in
      let t2 := (right expanded - x origin) / x direction in
      let tNear := Rmin t1 t2 in
      let tFar := Rmax t1 t2 in
      let '(tMin1, hitNormal1) :=
        if tNear >? tMin0 then
          (tNear, if x direction >? 0 then {| x := -1; y := 0 |}
                  else {| x := 1; y := 0 |})
        else (tMin0, hitNormal0) in
      Some (tMin1, minWithInfinity tMax0 tFar, hitNormal1)
    else if (x origin <? left expanded) || (x origin >? right expanded) then None
    else Some (tMin0, tMax0, hitNormal0) in
  match afterX with
  | None => None
  | Some (tMin1, tMax1, hitNormal1) =>
    let afterY : option (R * option R * Vector2) :=
      if negb (y direction =? 0) then
        let t1 := (top expanded - y origin) / y direction in
        let t2 := (bottom expanded - y origin) / y direction in
        let tNear := Rmin t1 t2 in
        let tFar := Rmax t1 t2 in
        let '(tMin2, hitNormal2) :=
          if tNear >? tMin1 then
            (tNear, if y direction >? 0 then {| x := 0; y := -1 |}
                    else {| x := 0; y := 1 |})
          else (tMin1, hitNormal1) in
        Some (tMin2, minWithInfinity tMax1 tFar, hitNormal2)
      else if (y origin <? top expanded) || (y origin >? bottom expanded) then None
      else Some (tMin1, tMax1, hitNormal1) in
    match afterY with
    | None => None
    | Some (tMin, tMax, hitNormal) =>
      if gtInfinity tMin tMax || (tMin <? 0) then None
      else
        let pt := {| x := x origin + x direction * tMin;
                     y := y origin + y direction * tMin |} in
        let dist := tMin * sqrt (x direction ^ 2 + y direction ^ 2) in
        Some {| point := pt; normal := hitNormal; distance := dist |}
    end
  end.

Definition checkPickupCollision (ph : Physics) (b : Ball)
    (pickupX pickupY pickupRadius : R) : bool :=
  let dx := x (position b) - pickupX in
  let dy := y (position b) - pickupY in
  let dist := sqrt (dx * dx + dy * dy) in
  dist <=? ballRadius ph + pickupRadius.

(** ** constants.ts *)

Definition GRID_COLS : Z := 11.
Definition GRID_ROWS : Z := 11.
Definition GRID_GAP : R := 2.
Definition MAX_TRAJECTORY_BOUNCES : nat := 4.
Definition MIN_BRICKS_PER_ROW : Z := 3.
Definition MAX_BRICKS_PER_ROW : Z := 5.
Definition BRICK_HIT_VARIANCE : R := 0.2.
Definition MAX_PICKUPS_PER_ROW : nat := 2.

(** [Record<PickupType, number>]: one number per pickup type; the entries
    are enumerated in the order in which the keys are written. *)
Record PickupTable : Type := mkPickupTable {
  w_ball : R;
  w_x2 : R;
  w_x3 : R;
  w_x5 : R;
  w_x10 : R
}.

Definition PICKUP_WEIGHTS : PickupTable :=
  {| w_ball := 1.0; w_x2 := 0; w_x3 := 0; w_x5 := 0; w_x10 := 0 |}.

Definition entries (t : PickupTable) : list (PickupType * R) :=
  [(ball, w_ball t); (x2, w_x2 t); (x3, w_x3 t); (x5, w_x5 t); (x10, w_x10 t)].

Definition values (t : PickupTable) : list R := map snd (entries t).

(** ** physics/TrajectoryCalculator.ts *)

(** [points[points.length - 1]]. *)
Fixpoint lastElement {A : Type} (l : list A) : option A :=
  match l with
  | [] => None
  | [a] => Some a
  | _ :: rest => lastElement rest
  end.

Section Trajectory.

Variable physics : Physics.
Variable bricks : list Brick.
Variables cellWidth cellHeight gridOffsetX gridOffsetY gap : R.
Variable launchZoneTop' : R.

(** One turn of [for (const brick of bricks)]. *)
Definition brickStep (currentPos currentDir : Vector2)
    (closestHit : option RayHit) (brick : Brick) : option RayHit :=
  if destroying brick then closestHit
  else
    let bounds :=
      getBrickBounds brick cellWidth cellHeight gridOffsetX gridOffsetY gap in
    match raycastBrick physics currentPos currentDir bounds with
    | Some brickHit =>
        if distance brickHit >? 0.1 then
          match closestHit with
          | None => Some brickHit
          | Some c =>
              if distance brickHit <? distance c then Some brickHit
              else closestHit
          end
        else closestHit
    | None => closestHit
    end.

(** The closest collision of one pass of the loop: the wall, then every brick. *)
Definition findClosestHit (currentPos currentDir : Vector2) : option RayHit :=
  let closestHit0 :=
    match raycastWall physics currentPos currentDir with
    | Some wallHit => if distance wallHit >? 0.1 then Some wallHit else None
    | None => None
    end in
  fold_left (brickStep currentPos currentDir) bricks closestHit0.

(** The point at which the path ends on the bottom boundary in this pass,
    if it does: the [break] after [points.push(bottomPoint)]. *)
Definition bottomExit (currentPos currentDir : Vector2)
    (closestHit : option RayHit) : option Vector2 :=
  if y currentDir >? 0 then
    let tBottom := (launchZoneTop' - y currentPos) / y currentDir in
    if tBottom >? 0 then
      let bottomPoint :=
        {| x := x currentPos + x currentDir * tBottom; y := launchZoneTop' |} in
      match closestHit with
      | None => Some bottomPoint
      | Some c => if tBottom <? distance c then Some bottomPoint else None
      end
    else None
  else None.

Record LoopState : Type := mkLoopState {
  points : list TrajectoryPoint;
  currentPos : Vector2;
  currentDir : Vector2;
  bounceCount : nat
}.

(** [while (bounceCount < MAX_TRAJECTORY_BOUNCES)]: [remaining] is
    [MAX_TRAJECTORY_BOUNCES - bounceCount], which every pass that does not
    [break] decreases by one. *)
Fixpoint trajectoryLoop (remaining : nat) (st : LoopState) : LoopState :=
  match remaining with
  | O => st
  | S remaining' =>
      let closestHit := findClosestHit (currentPos st) (currentDir st) in
      match bottomExit (currentPos st) (currentDir st) closestHit with
      | Some bottomPoint =>
          {| points := points st ++ [{| tpPosition := bottomPoint; isBounce := false |}];
             currentPos := currentPos st;
             currentDir := currentDir st;
             bounceCount := bounceCount st |}
      | None =>
          match closestHit with
          | None =>
              let farPoint :=
                {| x := x (currentPos st) + x (currentDir st) * 2000;
                   y := y (currentPos st) + y (currentDir st) * 2000 |} in
              {| points := points st ++ [{| tpPosition := farPoint; isBounce := false |}];
                 currentPos := currentPos st;
                 currentDir := currentDir st;
                 bounceCount := bounceCount st |}
          | Some hit =>
              trajectoryLoop remaining'
                {| points := points st ++ [{| tpPosition := point hit; isBounce := true |}];
                   currentPos := point hit;
                   currentDir := reflectVector (currentDir st) (normal hit);
                   bounceCount := S (bounceCount st) |}
          end
      end
  end.

Definition calculateTrajectory (startPosition direction : Vector2)
    : list TrajectoryPoint :=
  let normalizedDir := normalizeVector direction in
  let st0 :=
    {| points := [{| tpPosition := startPosition; isBounce := false |}];
       currentPos := startPosition;
       currentDir := normalizedDir;
       bounceCount := 0 |} in
  let st := trajectoryLoop (MAX_TRAJECTORY_BOUNCES - bounceCount st0) st0 in
  if (MAX_TRAJECTORY_BOUNCES <=? bounceCount st)%nat
     && (0 <? length (points st))%nat
  then
    match lastElement (points st) with
    | Some lastPoint =>
        let farPoint :=
          {| x := x (tpPosition lastPoint) + x (currentDir st) * 500;
             y := y (tpPosition lastPoint) + y (currentDir st) * 500 |} in
        points st ++ [{| tpPosition := farPoint; isBounce := false |}]
    | None => points st
    end
  else points st.

End Trajectory.

(** ** managers/GridManager.ts

    The manager's two counters and the number of values already taken from
    [Math.random] are threaded through a state monad; [random n] is the
    value of the n-th call of [Math.random]. *)

Record GridManager : Type := mkGridManager {
  nextBrickId : Z;
  nextPickupId : Z;
  drawn : nat
}.

Definition M (A : Type) : Type := GridManager -> A * GridManager.

Definition ret {A : Type} (a : A) : M A := fun s => (a, s).

Definition bind {A B : Type} (m : M A) (k : A -> M B) : M B :=
  fun s => let '(a, s') := m s in k a s'.

Notation "x <- m ;; k" := (bind m (fun x => k))
  (at level 61, m at next level, right associativity).

Fixpoint forEach {A B : Type} (body : A -> M B) (l : list A) : M (list B) :=
  match l with
  | [] => ret []
  | a :: rest =>
      b <- body a ;;
      bs <- forEach body rest ;;
      ret (b :: bs)
  end.

(** [Math.floor] on a number, as an integer. *)
Definition floor (r : R) : Z := Int_part r.

(** [array[i] = v] for an index inside the array. *)
Fixpoint setNth {A : Type} (i : nat) (v : A) (l : list A) : list A :=
  match l, i with
  | [], _ => []
  | _ :: rest, O => v :: rest
  | a :: rest, S i' => a :: setNth i' v rest
  end.

(** [[array[i], array[j]] = [array[j], array[i]]]. *)
Definition swap (i j : nat) (l : list Z) : list Z :=
  let ai := nth i l 0%Z in
  let aj := nth j l 0%Z in
  setNth j ai (setNth i aj l).

Definition slice {A : Type} (count : nat) (l : list A) : list A := firstn count l.

Section GridManagerCode.

Variable random : nat -> R.

Definition MathRandom : M R :=
  fun s => (random (drawn s),
            {| nextBrickId := nextBrickId s;
               nextPickupId := nextPickupId s;
               drawn := S (drawn s) |}).

Definition createBrick (gx gy h : Z) : M Brick :=
  fun s => ({| brickId := nextBrickId s; gridX := gx; gridY := gy; hits := h;
               destroying := false; destroyProgress := 0 |},
            {| nextBrickId := nextBrickId s + 1;
               nextPickupId := nextPickupId s;
               drawn := drawn s |}).

Definition createPickup (gx gy : Z) (t : PickupType) : M Pickup :=
  fun s => ({| pickupId := nextPickupId s; pickupGridX := gx; pickupGridY := gy;
               type := t; collected := false; collectProgress := 0 |},
            {| nextBrickId := nextBrickId s;
               nextPickupId := nextPickupId s + 1;
               drawn := drawn s |}).

(** [for (let i = array.length - 1; i > 0; i--)]: [shuffleFrom i] runs the
    passes for [i], [i - 1], ..., [1].  [Math.random] is below 1, so [j]
    is an index of the array. *)
Fixpoint shuffleFrom (i : nat) (array : list Z) : M (list Z) :=
  match i with
  | O => ret array
  | S i' =>
      u <- MathRandom ;;
      let j := Z.to_nat (floor (u * (INR i + 1))) in
      shuffleFrom i' (swap i j array)
  end.

Definition shuffleArray (array : list Z) : M (list Z) :=
  shuffleFrom (length array - 1) array.

(** The loop of [getRandomPickupType] over [Object.entries]. *)
Fixpoint pickByWeight (es : list (PickupType * R)) (rnd : R) : PickupType :=
  match es with
  | [] => ball
  | (t, weight) :: rest =>
      let rnd' := rnd - weight in
      if rnd' <=? 0 then t else pickByWeight rest rnd'
  end.

Definition totalWeight (weights : PickupTable) : R :=
  fold_left (fun sum w => sum + w) (values weights) 0.

(** [getRandomPickupType] on the draw [u] that [Math.random] returns. *)
Definition getRandomPickupTypeOn (weights : PickupTable) (u : R) : PickupType :=
  pickByWeight (entries weights) (u * totalWeight weights).

Definition getRandomPickupType (weights : PickupTable) : M PickupType :=
  u <- MathRandom ;;
  ret (getRandomPickupTypeOn weights u).

(** [Array.from({ length: GRID_COLS }, (_, i) => i)]. *)
Definition columns : list Z := map Z.of_nat (seq 0 (Z.to_nat GRID_COLS)).

Definition hasColumn (occupied : list Z) (col : Z) : bool :=
  existsb (Z.eqb col) occupied.

(** The body of [for (const col of brickColumns)], for the row [row]. *)
Definition spawnBrick (baseHits row col : Z) : M Brick :=
  let variance := floor (IZR baseHits * BRICK_HIT_VARIANCE) in
  u <- MathRandom ;;
  let h := Z.max 1 (baseHits + floor (u * IZR (variance * 2 + 1)) - variance) in
  createBrick col row h.

Definition numBricksOf (u : R) : nat :=
  Z.to_nat (MIN_BRICKS_PER_ROW
            + floor (u * IZR (MAX_BRICKS_PER_ROW - MIN_BRICKS_PER_ROW + 1))).

(** [spawnNewRow] of the manager that draws pickup types by weight. *)
Definition spawnNewRowWeighted (weights : PickupTable) (level : Z)
    : M (list Brick * list Pickup) :=
  u <- MathRandom ;;
  let numBricks := numBricksOf u in
  availableColumns <- shuffleArray columns ;;
  let brickColumns := slice numBricks availableColumns in
  let occupiedColumns := brickColumns in
  newBricks <- forEach (spawnBrick level 0) brickColumns ;;
  remainingColumns <-
    shuffleArray
      (filter (fun col => negb (hasColumn occupiedColumns col)) availableColumns) ;;
  let numPickups := Nat.min MAX_PICKUPS_PER_ROW (length remainingColumns) in
  let pickupColumns := slice numPickups remainingColumns in
  newPickups <-
    forEach (fun col => t <- getRandomPickupType weights ;; createPickup col 0 t)
            pickupColumns ;;
  ret (newBricks, newPickups).

(** [MULTIPLIER_SPAWN_INTERVALS]. *)
Definition MULTIPLIER_SPAWN_INTERVALS (t : PickupType) : Z :=
  match t with
  | ball => 1 | x2 => 10 | x3 => 15 | x5 => 20 | x10 => 50
  end.

Definition getPickupsForRound (level : Z) : list PickupType :=
  ball ::
  filter (fun t => (Z.rem level (MULTIPLIER_SPAWN_INTERVALS t) =? 0)%Z)
         [x2; x3; x5; x10].

(** [for (let i = 0; i < pickupsToSpawn.length && i < remainingColumns.length; i++)]. *)
Fixpoint spawnPickups (pickupsToSpawn : list PickupType)
    (remainingColumns : list Z) : M (list Pickup) :=
  match pickupsToSpawn, remainingColumns with
  | t :: ts, col :: cols =>
      p <- createPickup col 2 t ;;
      ps <- spawnPickups ts cols ;;
      ret (p :: ps)
  | _, _ => ret []
  end.

(** [spawnNewRow] of the manager that spawns pickups at round intervals;
    the game calls it with three arguments, so [level] is its default 1. *)
Definition spawnNewRow (ballCount : Z) (level : Z)
    : M (list Brick * list Pickup) :=
  u <- MathRandom ;;
  let numBricks := numBricksOf u in
  availableColumns <- shuffleArray columns ;;
  let brickColumns := slice numBricks availableColumns in
  let occupiedColumns := brickColumns in
  newBricks <- forEach (spawnBrick (Z.max 1 ballCount) 2) brickColumns ;;
  remainingColumns <-
    shuffleArray
      (filter (fun col => negb (hasColumn occupiedColumns col)) availableColumns) ;;
  let pickupsToSpawn := getPickupsForRound level in
  newPickups <- spawnPickups pickupsToSpawn remainingColumns ;;
  ret (newBricks, newPickups).

End GridManagerCode.

Definition setGridY (b : Brick) (v : Z) : Brick :=
  {| brickId := brickId b; gridX := gridX b; gridY := v; hits := hits b;
     destroying := destroying b; destroyProgress := destroyProgress b |}.

Definition moveBricksDown (bricks : list Brick) : list Brick :=
  map (fun brick => setGridY brick (gridY brick + 1)) bricks.

Definition setPickupGridY (p : Pickup) (v : Z) : Pickup :=
  {| pickupId := pickupId p; pickupGridX := pickupGridX p; pickupGridY := v;
     type := type p; collected := collected p; collectProgress := collectProgress p |}.

Definition movePickupsDown (pickups : list Pickup) : list Pickup :=
  map (fun pickup => setPickupGridY pickup (pickupGridY pickup + 1)) pickups.

Definition checkGameOver (bricks : list Brick) : bool :=
  existsb (fun brick => (gridY brick >=? GRID_ROWS)%Z) bricks.

Definition removeBottomPickups (pickups : list Pickup) : list Pickup :=
  filter (fun pickup => (pickupGridY pickup <? GRID_ROWS)%Z) pickups.

(** ** rendering/Renderer.ts: the cached dimensions and the button layout *)

Definition HEADER_HEIGHT_RATIO : R := 0.08.
Definition LAUNCH_ZONE_RATIO : R := 0.1.

Record ButtonBounds : Type := mkButtonBounds {
  btnX : R;
  btnY : R;
  btnWidth : R;
  btnHeight : R
}.

Module Renderer.

Record t : Type := mk {
  width : R;
  height : R;
  headerHeight : R;
  launchZoneHeight : R;
  gridHeight : R;
  gridOffsetY : R;
  cellWidth : R;
  cellHeight : R;
  ballRadius : R;
  pickupRadius : R;
  scale : R
}.

(** [resize] for a container of the given client size; the canvas and its
    pixel ratio are not part of the model. *)
Definition resize (containerWidth containerHeight : R) : t :=
  let targetAspect := 7 / 12 in
  let '(width, height) :=
    if containerWidth / containerHeight >? targetAspect
    then (containerHeight * targetAspect, containerHeight)
    else (containerWidth, containerWidth / targetAspect) in
  let scale := width / 350 in
  let headerHeight := height * HEADER_HEIGHT_RATIO in
  let launchZoneHeight := height * LAUNCH_ZONE_RATIO in
  let gridHeight := height - headerHeight - launchZoneHeight in
  {| width := width; height := height;
     headerHeight := headerHeight;
     launchZoneHeight := launchZoneHeight;
     gridHeight := gridHeight;
     gridOffsetY := headerHeight;
     cellWidth := width / IZR GRID_COLS;
     cellHeight := gridHeight / IZR GRID_ROWS;
     ballRadius := 8 * scale;
     pickupRadius := 12 * scale;
     scale := scale |}.

(** [launchZoneTop] and [gridOffsetX] of the object that [resize] returns. *)
Definition launchZoneTop (rd : t) : R := headerHeight rd + gridHeight rd.

Definition gridOffsetX (rd : t) : R := 0.

Definition getSpeedButtonBounds (rd : t) : ButtonBounds :=
  let buttonSize := 40 * scale rd in
  {| btnX := width rd - buttonSize - 10 * scale rd;
     btnY := height rd - launchZoneHeight rd / 2 - buttonSize / 2;
     btnWidth := buttonSize;
     btnHeight := buttonSize |}.

Record MenuButtons : Type := mkMenuButtons {
  play : ButtonBounds;
  menuSettings : ButtonBounds
}.

Definition getMenuButtonBounds (rd : t) : MenuButtons :=
  let centerX := width rd / 2 in
  let centerY := height rd / 2 in
  {| play := {| btnX := centerX; btnY := centerY + 20 * scale rd;
                btnWidth := 120 * scale rd; btnHeight := 44 * scale rd |};
     menuSettings := {| btnX := centerX; btnY := centerY + 80 * scale rd;
                        btnWidth := 100 * scale rd; btnHeight := 36 * scale rd |} |}.

Record PauseButtons : Type := mkPauseButtons {
  resume : ButtonBounds;
  restart : ButtonBounds;
  pauseSettings : ButtonBounds
}.

Definition getPauseButtonBounds (rd : t) : PauseButtons :=
  let centerX := width rd / 2 in
  let centerY := height rd / 2 in
  let bw := 100 * scale rd in
  let bh := 40 * scale rd in
  {| resume := {| btnX := centerX; btnY := centerY - 20 * scale rd;
                  btnWidth := bw; btnHeight := bh |};
     restart := {| btnX := centerX; btnY := centerY + 30 * scale rd;
                   btnWidth := bw; btnHeight := bh |};
     pauseSettings := {| btnX := centerX; btnY := centerY + 80 * scale rd;
                         btnWidth := bw; btnHeight := bh |} |}.

Record SettingsButtons : Type := mkSettingsButtons {
  toggle : ButtonBounds;
  back : ButtonBounds
}.

Definition getSettingsButtonBounds (rd : t) : SettingsButtons :=
  let centerX := width rd / 2 in
  let centerY := height rd / 2 in
  {| toggle := {| btnX := centerX + 35 * scale rd; btnY := centerY - 20 * scale rd;
                  btnWidth := 50 * scale rd; btnHeight := 26 * scale rd |};
     back := {| btnX := centerX; btnY := centerY + 80 * scale rd;
                btnWidth := 100 * scale rd; btnHeight := 40 * scale rd |} |}.

Definition getGameOverPlayAgain (rd : t) : ButtonBounds :=
  let centerX := width rd / 2 in
  let centerY := height rd / 2 in
  {| btnX := centerX; btnY := centerY + 50 * scale rd;
     btnWidth := 120 * scale rd; btnHeight := 44 * scale rd |}.

Definition getLaunchZoneY (rd : t) : R :=
  headerHeight rd + gridHeight rd + launchZoneHeight rd / 2.

Definition getScale (rd : t) : R := scale rd.

End Renderer.

(** ** input/InputHandler.ts: the events that reach the game *)

Inductive InputEventType : Type :=
  aimStart | aimMove | aimEnd | tap | moveStart | moveEnd.

Record InputEvent : Type := mkInputEvent {
  eventType : InputEventType;
  eventPosition : Vector2
}.

(** ** game/Game.ts

    The game object without its canvas, its transient collect effects and
    its storage: what remains is the turn state, the entities and the launch
    data.  The game's copies of the dimensions are those of the renderer and
    of the physics object, which [resize] keeps equal; the model reads them
    there. *)

Definition BALL_SPEED : R := 600.
Definition BALL_LAUNCH_DELAY : R := 50.
Definition MIN_LAUNCH_ANGLE : R := 10.
Definition DESTROY_ANIMATION_DURATION : R := 50.
Definition COLLECT_ANIMATION_DURATION : R := 300.

Definition PICKUP_VALUES (t : PickupType) : Z :=
  match t with
  | ball => 1 | x2 => 2 | x3 => 3 | x5 => 5 | x10 => 10
  end.

Record GameSettings : Type := mkGameSettings {
  easyMode : bool;
  soundEnabled : bool;
  vibrationEnabled : bool
}.

Record HighScores : Type := mkHighScores {
  normal_ : Z;
  easy : Z
}.

Record Game : Type := mkGame {
  gridManager : GridManager;
  state : GameState;
  previousState : GameState;
  level : Z;
  ballCount : Z;
  speedMultiplier : SpeedMultiplier;
  gameSettings : GameSettings;
  highScores : HighScores;
  balls : list Ball;
  bricks : list Brick;
  pickups : list Pickup;
  launchPosition : Vector2;
  nextLaunchPosition : option Vector2;
  aimDirection : option Vector2;
  trajectoryPoints : list TrajectoryPoint;
  isMovingLaunchPoint : bool;
  ballsLaunched : nat;
  ballsReturned : nat;
  lastLaunchTime : R;
  nextBallId : Z
}.

Definition set_gridManager (v : GridManager) (g : Game) : Game :=
  mkGame v (state g) (previousState g) (level g) (ballCount g)
    (speedMultiplier g) (gameSettings g) (highScores g) (balls g) (bricks g)
    (pickups g) (launchPosition g) (nextLaunchPosition g) (aimDirection g)
    (trajectoryPoints g) (isMovingLaunchPoint g) (ballsLaunched g)
    (ballsReturned g) (lastLaunchTime g) (nextBallId g).

Definition set_state (v : GameState) (g : Game) : Game :=
  mkGame (gridManager g) v (previousState g) (level g) (ballCount g)
    (speedMultiplier g) (gameSettings g) (highScores g) (balls g) (bricks g)
    (pickups g) (launchPosition g) (nextLaunchPosition g) (aimDirection g)
    (trajectoryPoints g) (isMovingLaunchPoint g) (ballsLaunched g)
    (ballsReturned g) (lastLaunchTime g) (nextBallId g).

Definition set_previousState (v : GameState) (g : Game) : Game :=
  mkGame (gridManager g) (state g) v (level g) (ballCount g)
    (speedMultiplier g) (gameSettings g) (highScores g) (balls g) (bricks g)
    (pickups g) (launchPosition g) (nextLaunchPosition g) (aimDirection g)
    (trajectoryPoints g) (isMovingLaunchPoint g) (ballsLaunched g)
    (ballsReturned g) (lastLaunchTime g) (nextBallId g).

Definition set_level (v : Z) (g : Game) : Game :=
  mkGame (gridManager g) (state g) (previousState g) v (ballCount g)
    (speedMultiplier g) (gameSettings g) (highScores g) (balls g) (bricks g)
    (pickups g) (launchPosition g) (nextLaunchPosition g) (aimDirection g)
    (trajectoryPoints g) (isMovingLaunchPoint g) (ballsLaunched g)
    (ballsReturned g) (lastLaunchTime g) (nextBallId g).

Definition set_ballCount (v : Z) (g : Game) : Game :=
  mkGame (gridManager g) (state g) (previousState g) (level g) v
    (speedMultiplier g) (gameSettings g) (highScores g) (balls g) (bricks g)
    (pickups g) (launchPosition g) (nextLaunchPosition g) (aimDirection g)
    (trajectoryPoints g) (isMovingLaunchPoint g) (ballsLaunched g)
    (ballsReturned g) (lastLaunchTime g) (nextBallId g).

Definition set_speedMultiplier (v : SpeedMultiplier) (g : Game) : Game :=
  mkGame (gridManager g) (state g) (previousState g) (level g) (ballCount g) v
    (gameSettings g) (highScores g) (balls g) (bricks g) (pickups g)
    (launchPosition g) (nextLaunchPosition g) (aimDirection g)
    (trajectoryPoints g) (isMovingLaunchPoint g) (ballsLaunched g)
    (ballsReturned g) (lastLaunchTime g) (nextBallId g).

Definition set_gameSettings (v : GameSettings) (g : Game) : Game :=
  mkGame (gridManager g) (state g) (previousState g) (level g) (ballCount g)
    (speedMultiplier g) v (highScores g) (balls g) (bricks g) (pickups g)
    (launchPosition g) (nextLaunchPosition g) (aimDirection g)
    (trajectoryPoints g) (isMovingLaunchPoint g) (ballsLaunched g)
    (ballsReturned g) (lastLaunchTime g) (nextBallId g).

Definition set_highScores (v : HighScores) (g : Game) : Game :=
  mkGame (gridManager g) (state g) (previousState g) (level g) (ballCount g)
    (speedMultiplier g) (gameSettings g) v (balls g) (bricks g) (pickups g)
    (launchPosition g) (nextLaunchPosition g) (aimDirection g)
    (trajectoryPoints g) (isMovingLaunchPoint g) (ballsLaunched g)
    (ballsReturned g) (lastLaunchTime g) (nextBallId g).

Definition set_balls (v : list Ball) (g : Game) : Game :=
  mkGame (gridManager g) (state g) (previousState g) (level g) (ballCount g)
    (speedMultiplier g) (gameSettings g) (highScores g) v (bricks g) (pickups g)
    (launchPosition g) (nextLaunchPosition g) (aimDirection g)
    (trajectoryPoints g) (isMovingLaunchPoint g) (ballsLaunched g)
    (ballsReturned g) (lastLaunchTime g) (nextBallId g).

Definition set_bricks (v : list Brick) (g : Game) : Game :=
  mkGame (gridManager g) (state g) (previousState g) (level g) (ballCount g)
    (speedMultiplier g) (gameSettings g) (highScores g) (balls g) v (pickups g)
    (launchPosition g) (nextLaunchPosition g) (aimDirection g)
    (trajectoryPoints g) (isMovingLaunchPoint g) (ballsLaunched g)
    (ballsReturned g) (lastLaunchTime g) (nextBallId g).

Definition set_pickups (v : list Pickup) (g : Game) : Game :=
  mkGame (gridManager g) (state g) (previousState g) (level g) (ballCount g)
    (speedMultiplier g) (gameSettings g) (highScores g) (balls g) (bricks g) v
    (launchPosition g) (nextLaunchPosition g) (aimDirection g)
    (trajectoryPoints g) (isMovingLaunchPoint g) (ballsLaunched g)
    (ballsReturned g) (lastLaunchTime g) (nextBallId g).

Definition set_launchPosition (v : Vector2) (g : Game) : Game :=
  mkGame (gridManager g) (state g) (previousState g) (level g) (ballCount g)
    (speedMultiplier g) (gameSettings g) (highScores g) (balls g) (bricks g)
    (pickups g) v (nextLaunchPosition g) (aimDirection g) (trajectoryPoints g)
    (isMovingLaunchPoint g) (ballsLaunched g) (ballsReturned g)
    (lastLaunchTime g) (nextBallId g).

Definition set_nextLaunchPosition (v : option Vector2) (g : Game) : Game :=
  mkGame (gridManager g) (state g) (previousState g) (level g) (ballCount g)
    (speedMultiplier g) (gameSettings g) (highScores g) (balls g) (bricks g)
    (pickups g) (launchPosition g) v (aimDirection g) (trajectoryPoints g)
    (isMovingLaunchPoint g) (ballsLaunched g) (ballsReturned g)
    (lastLaunchTime g) (nextBallId g).

Definition set_aimDirection (v : option Vector2) (g : Game) : Game :=
  mkGame (gridManager g) (state g) (previousState g) (level g) (ballCount g)
    (speedMultiplier g) (gameSettings g) (highScores g) (balls g) (bricks g)
    (pickups g) (launchPosition g) (nextLaunchPosition g) v
    (trajectoryPoints g) (isMovingLaunchPoint g) (ballsLaunched g)
    (ballsReturned g) (lastLaunchTime g) (nextBallId g).

Definition set_trajectoryPoints (v : list TrajectoryPoint) (g : Game) : Game :=
  mkGame (gridManager g) (state g) (previousState g) (level g) (ballCount g)
    (speedMultiplier g) (gameSettings g) (highScores g) (balls g) (bricks g)
    (pickups g) (launchPosition g) (nextLaunchPosition g) (aimDirection g) v
    (isMovingLaunchPoint g) (ballsLaunched g) (ballsReturned g)
    (lastLaunchTime g) (nextBallId g).

Definition set_isMovingLaunchPoint (v : bool) (g : Game) : Game :=
  mkGame (gridManager g) (state g) (previousState g) (level g) (ballCount g)
    (speedMultiplier g) (gameSettings g) (highScores g) (balls g) (bricks g)
    (pickups g) (launchPosition g) (nextLaunchPosition g) (aimDirection g)
    (trajectoryPoints g) v (ballsLaunched g) (ballsReturned g)
    (lastLaunchTime g) (nextBallId g).

Definition set_ballsLaunched (v : nat) (g : Game) : Game :=
  mkGame (gridManager g) (state g) (previousState g) (level g) (ballCount g)
    (speedMultiplier g) (gameSettings g) (highScores g) (balls g) (bricks g)
    (pickups g) (launchPosition g) (nextLaunchPosition g) (aimDirection g)
    (trajectoryPoints g) (isMovingLaunchPoint g) v (ballsReturned g)
    (lastLaunchTime g) (nextBallId g).

Definition set_ballsReturned (v : nat) (g : Game) : Game :=
  mkGame (gridManager g) (state g) (previousState g) (level g) (ballCount g)
    (speedMultiplier g) (gameSettings g) (highScores g) (balls g) (bricks g)
    (pickups g) (launchPosition g) (nextLaunchPosition g) (aimDirection g)
    (trajectoryPoints g) (isMovingLaunchPoint g) (ballsLaunched g) v
    (lastLaunchTime g) (nextBallId g).

Definition set_lastLaunchTime (v : R) (g : Game) : Game :=
  mkGame (gridManager g) (state g) (previousState g) (level g) (ballCount g)
    (speedMultiplier g) (gameSettings g) (highScores g) (balls g) (bricks g)
    (pickups g) (launchPosition g) (nextLaunchPosition g) (aimDirection g)
    (trajectoryPoints g) (isMovingLaunchPoint g) (ballsLaunched g)
    (ballsReturned g) v (nextBallId g).

Definition set_nextBallId (v : Z) (g : Game) : Game :=
  mkGame (gridManager g) (state g) (previousState g) (level g) (ballCount g)
    (speedMultiplier g) (gameSettings g) (highScores g) (balls g) (bricks g)
    (pickups g) (launchPosition g) (nextLaunchPosition g) (aimDirection g)
    (trajectoryPoints g) (isMovingLaunchPoint g) (ballsLaunched g)
    (ballsReturned g) (lastLaunchTime g) v.

Inductive ManagerVariant : Type := WeightedPickups | IntervalPickups.

Definition speedValue (m : SpeedMultiplier) : R :=
  match m with
  | speed1 => 1 | speed2 => 2 | speed4 => 4
  end.

Definition isPointInBounds (pt : Vector2) (bounds : ButtonBounds) : bool :=
  (x pt >=? btnX bounds - btnWidth bounds / 2)
  && (x pt <=? btnX bounds + btnWidth bounds / 2)
  && (y pt >=? btnY bounds - btnHeight bounds / 2)
  && (y pt <=? btnY bounds + btnHeight bounds / 2).

(** The body of [if (collision.collided)] in the brick loop. *)
Definition hitBrick (brick : Brick) : Brick :=
  let hits' := (hits brick - 1)%Z in
  if (hits' <=? 0)%Z then
    {| brickId := brickId brick; gridX := gridX brick; gridY := gridY brick;
       hits := hits'; destroying := true; destroyProgress := 0 |}
  else
    {| brickId := brickId brick; gridX := gridX brick; gridY := gridY brick;
       hits := hits'; destroying := destroying brick;
       destroyProgress := destroyProgress brick |}.

Definition collectPickup (p : Pickup) : Pickup :=
  {| pickupId := pickupId p; pickupGridX := pickupGridX p;
     pickupGridY := pickupGridY p; type := type p;
     collected := true; collectProgress := 0 |}.

Section GameCode.

Variable random : nat -> R.
Variable variant : ManagerVariant.
Variable weights : PickupTable.
Variable renderer : Renderer.t.

(** The physics object after [updateDimensions]. *)
Definition physics : Physics :=
  {| gameWidth := Renderer.width renderer;
     _gameHeight := Renderer.height renderer;
     ballRadius := Renderer.ballRadius renderer;
     launchZoneTop := Renderer.launchZoneTop renderer |}.

Definition cycleSpeed (g : Game) : Game :=
  match speedMultiplier g with
  | speed1 => set_speedMultiplier speed2 g
  | speed2 => set_speedMultiplier speed4 g
  | speed4 => set_speedMultiplier speed1 g
  end.

(** [this.gridManager.spawnNewRow(this.level, this.bricks, this.pickups)]
    for either manager. *)
Definition managerSpawn (lvl : Z) : M (list Brick * list Pickup) :=
  match variant with
  | WeightedPickups => spawnNewRowWeighted random weights lvl
  | IntervalPickups => spawnNewRow random lvl 1
  end.

Definition gameSpawnNewRow (g : Game) : Game :=
  let '((newBricks, newPickups), gm) := managerSpawn (level g) (gridManager g) in
  set_pickups (pickups g ++ newPickups)
    (set_bricks (bricks g ++ newBricks) (set_gridManager gm g)).

Definition startGame (g : Game) : Game :=
  let g1 := set_level 1 g in
  let g2 := set_ballCount 1 g1 in
  let g3 := set_balls [] g2 in
  let g4 := set_bricks [] g3 in
  let g5 := set_pickups [] g4 in
  let g6 := set_speedMultiplier speed1 g5 in
  let g7 := set_nextBallId 0 g6 in
  let g8 :=
    set_launchPosition
      {| x := gameWidth physics / 2; y := launchZoneTop physics |} g7 in
  let g9 := set_nextLaunchPosition None g8 in
  let g10 := set_aimDirection None g9 in
  let g11 := set_trajectoryPoints [] g10 in
  let g12 := gameSpawnNewRow g11 in
  set_state aiming g12.

(** [for (let i = 0; i < this.ballCount; i++) this.balls.push(...)]. *)
Fixpoint pushBalls (count : nat) (dir : Vector2) (launchY speed : R) (g : Game)
    : Game :=
  match count with
  | O => g
  | S count' =>
      let newBall :=
        {| id := nextBallId g;
           position := {| x := x (launchPosition g); y := launchY |};
           velocity := {| x := x dir * speed; y := y dir * speed |};
           active := false |} in
      pushBalls count' dir launchY speed
        (set_nextBallId (nextBallId g + 1) (set_balls (balls g ++ [newBall]) g))
  end.

Definition launchBalls (g : Game) : Game :=
  match aimDirection g with
  | None => g
  | Some dir =>
      let g1 := set_state launching g in
      let g2 := set_ballsLaunched 0%nat g1 in
      let g3 := set_ballsReturned 0%nat g2 in
      let g4 := set_nextLaunchPosition None g3 in
      let g5 := set_lastLaunchTime 0 g4 in
      let launchY := Renderer.getLaunchZoneY renderer in
      let speed := BALL_SPEED * Renderer.getScale renderer in
      let g6 := pushBalls (Z.to_nat (ballCount g5)) dir launchY speed g5 in
      set_state animating g6
  end.

Definition handleMenuInput (ty : InputEventType) (pos : Vector2) (g : Game) : Game :=
  match ty with
  | tap | aimEnd =>
      let bounds := Renderer.getMenuButtonBounds renderer in
      if isPointInBounds pos (Renderer.play bounds) then startGame g
      else if isPointInBounds pos (Renderer.menuSettings bounds) then
        set_state settings (set_previousState menu g)
      else g
  | _ => g
  end.

(** The [aimMove] branch of [handleAimingInput]. *)
Definition aimMoveStep (pos : Vector2) (launchY : R) (g : Game) : Game :=
  if isMovingLaunchPoint g && easyMode (gameSettings g) then
    set_launchPosition
      {| x := Rmax (ballRadius physics)
                   (Rmin (gameWidth physics - ballRadius physics) (x pos));
         y := y (launchPosition g) |} g
  else
    let dx := x (launchPosition g) - x pos in
    let dy := launchY - y pos in
    if dy >? 10 then
      let angle := atan2 (- dy) dx in
      let minAngleRad := (MIN_LAUNCH_ANGLE * PI) / 180 in
      let clampedAngle :=
        if angle >? PI / 2 - minAngleRad then PI / 2 - minAngleRad
        else if angle <? - PI / 2 + minAngleRad then - PI / 2 + minAngleRad
        else angle in
      let dir := {| x := cos clampedAngle; y := - Rabs (sin clampedAngle) |} in
      let g1 := set_aimDirection (Some dir) g in
      set_trajectoryPoints
        (calculateTrajectory physics (bricks g1)
           (Renderer.cellWidth renderer) (Renderer.cellHeight renderer)
           (Renderer.gridOffsetX renderer) (Renderer.gridOffsetY renderer)
           (GRID_GAP * Renderer.getScale renderer)
           (launchZoneTop physics)
           {| x := x (launchPosition g1); y := launchY |} dir)
        g1
    else g.

Definition isSome {A : Type} (o : option A) : bool :=
  match o with Some _ => true | None => false end.

Definition isPauseRequest (pos : Vector2) : bool :=
  (x pos =? -1) && (y pos =? -1).

Definition handleAimingInput (ty : InputEventType) (pos : Vector2) (g : Game)
    : Game :=
  let launchY := Renderer.getLaunchZoneY renderer in
  (* the flag is the early [return] of the easy-mode branch *)
  let afterStart : Game * bool :=
    match ty with
    | aimStart =>
        if easyMode (gameSettings g)
           && (sqrt ((x pos - x (launchPosition g)) ^ 2 + (y pos - launchY) ^ 2)
               <? 30 * Renderer.getScale renderer)
        then (set_isMovingLaunchPoint true g, true)
        else (set_isMovingLaunchPoint false g, false)
    | _ => (g, false)
    end in
  let '(g1, returned) := afterStart in
  if returned then g1
  else
    let g2 := match ty with aimMove => aimMoveStep pos launchY g1 | _ => g1 end in
    let g3 :=
      match ty with
      | aimEnd =>
          if isSome (aimDirection g2) && negb (isMovingLaunchPoint g2)
          then launchBalls g2 else g2
      | _ => g2
      end in
    let g4 :=
      match ty with
      | tap =>
          if isPauseRequest pos
          then set_state paused (set_previousState aiming g3) else g3
      | _ => g3
      end in
    set_isMovingLaunchPoint false g4.

Definition handleAnimatingInput (ty : InputEventType) (pos : Vector2) (g : Game)
    : Game :=
  match ty with
  | tap =>
      let speedBounds := Renderer.getSpeedButtonBounds renderer in
      if isPointInBounds pos speedBounds then cycleSpeed g
      else if isPauseRequest pos
      then set_state paused (set_previousState animating g)
      else g
  | _ => g
  end.

Definition handlePausedInput (ty : InputEventType) (pos : Vector2) (g : Game)
    : Game :=
  match ty with
  | tap | aimEnd =>
      let bounds := Renderer.getPauseButtonBounds renderer in
      if isPointInBounds pos (Renderer.resume bounds) then
        set_state (previousState g) g
      else if isPointInBounds pos (Renderer.restart bounds) then startGame g
      else if isPointInBounds pos (Renderer.pauseSettings bounds) then
        set_state settings (set_previousState paused g)
      else g
  | _ => g
  end.

Definition toggleEasyMode (s : GameSettings) : GameSettings :=
  {| easyMode := negb (easyMode s); soundEnabled := soundEnabled s;
     vibrationEnabled := vibrationEnabled s |}.

Definition handleSettingsInput (ty : InputEventType) (pos : Vector2) (g : Game)
    : Game :=
  match ty with
  | tap | aimEnd =>
      let bounds := Renderer.getSettingsButtonBounds renderer in
      if isPointInBounds pos (Renderer.toggle bounds) then
        set_gameSettings (toggleEasyMode (gameSettings g)) g
      else if isPointInBounds pos (Renderer.back bounds) then
        set_state (previousState g) g
      else g
  | _ => g
  end.

Definition handleGameOverInput (ty : InputEventType) (pos : Vector2) (g : Game)
    : Game :=
  match ty with
  | tap | aimEnd =>
      if isPointInBounds pos (Renderer.getGameOverPlayAgain renderer)
      then startGame g else g
  | _ => g
  end.

Definition handleInput (event : InputEvent) (g : Game) : Game :=
  let ty := eventType event in
  let pos := eventPosition event in
  match state g with
  | menu => handleMenuInput ty pos g
  | aiming => handleAimingInput ty pos g
  | animating => handleAnimatingInput ty pos g
  | paused => handlePausedInput ty pos g
  | settings => handleSettingsInput ty pos g
  | gameOver => handleGameOverInput ty pos g
  | launching => g
  end.

(** [for (const brick of this.bricks)] for one ball: the ball and the
    bricks after the loop. *)
Fixpoint collideBricks (b : Ball) (bs : list Brick) : Ball * list Brick :=
  match bs with
  | [] => (b, [])
  | brick :: rest =>
      if destroying brick then
        let '(b', rest') := collideBricks b rest in (b', brick :: rest')
      else
        let bounds :=
          getBrickBounds brick
            (Renderer.cellWidth renderer) (Renderer.cellHeight renderer)
            (Renderer.gridOffsetX renderer) (Renderer.gridOffsetY renderer)
            (GRID_GAP * Renderer.getScale renderer) in
        let '(b1, collision) := checkBrickCollision physics b bounds in
        let brick1 := if brickCollided collision then hitBrick brick else brick in
        let '(b2, rest') := collideBricks b1 rest in
        (b2, brick1 :: rest')
  end.

(** [for (const pickup of this.pickups)] for one ball: the pickups and the
    ball count after the loop. *)
Fixpoint collectPickups (b : Ball) (ps : list Pickup) (count : Z)
    : list Pickup * Z :=
  match ps with
  | [] => ([], count)
  | pickup :: rest =>
      if collected pickup then
        let '(rest', count') := collectPickups b rest count in
        (pickup :: rest', count')
      else
        let pickupX :=
          IZR (pickupGridX pickup) * Renderer.cellWidth renderer
          + Renderer.cellWidth renderer / 2 in
        let pickupY :=
          Renderer.gridOffsetY renderer
          + IZR (pickupGridY pickup) * Renderer.cellHeight renderer
          + Renderer.cellHeight renderer / 2 in
        if checkPickupCollision physics b pickupX pickupY
             (Renderer.pickupRadius renderer)
        then
          let '(rest', count') :=
            collectPickups b rest (count + PICKUP_VALUES (type pickup))%Z in
          (collectPickup pickup :: rest', count')
        else
          let '(rest', count') := collectPickups b rest count in
          (pickup :: rest', count')
  end.

(** The body of [for (const ball of this.balls)]: the ball and the game
    after one pass. *)
Definition stepBall (deltaTime : R) (b : Ball) (g : Game) : Ball * Game :=
  if negb (active b) then (b, g)
  else
    let b1 := updateBall b deltaTime (speedValue (speedMultiplier g)) in
    let '(b2, _) := checkWallCollision physics b1 in
    let '(b3, bricks') := collideBricks b2 (bricks g) in
    let g1 := set_bricks bricks' g in
    let '(pickups', count') := collectPickups b3 (pickups g1) (ballCount g1) in
    let g2 := set_ballCount count' (set_pickups pickups' g1) in
    if checkBottomCollision physics b3 then
      let b4 := setActive b3 false in
      let g3 := set_ballsReturned (S (ballsReturned g2)) g2 in
      let g4 :=
        match nextLaunchPosition g3 with
        | None =>
            set_nextLaunchPosition
              (Some {| x := Rmax (ballRadius physics)
                                 (Rmin (gameWidth physics - ballRadius physics)
                                       (x (position b4)));
                       y := launchZoneTop physics |}) g3
        | Some _ => g3
        end in
      (b4, g4)
    else (b3, g2).

(** The loop over [this.balls]: the balls already visited, in order, and
    the game. *)
Fixpoint stepBalls (deltaTime : R) (bs : list Ball) (g : Game)
    : list Ball * Game :=
  match bs with
  | [] => ([], g)
  | b :: rest =>
      let '(b', g1) := stepBall deltaTime b g in
      let '(rest', g2) := stepBalls deltaTime rest g1 in
      (b' :: rest', g2)
  end.

Definition handleGameOver (g : Game) : Game :=
  let scores := highScores g in
  let g1 :=
    if easyMode (gameSettings g) then
      if (level g >? easy scores)%Z
      then set_highScores {| normal_ := normal_ scores; easy := level g |} g
      else g
    else
      if (level g >? normal_ scores)%Z
      then set_highScores {| normal_ := level g; easy := easy scores |} g
      else g in
  set_state gameOver g1.

Definition endTurn (g : Game) : Game :=
  let g1 := set_balls [] g in
  let g2 :=
    match nextLaunchPosition g1 with
    | Some p => set_launchPosition p g1
    | None => g1
    end in
  let g3 :=
    set_bricks
      (filter (fun b => negb (destroying b) || (destroyProgress b <? 1))
              (bricks g2)) g2 in
  let g4 :=
    set_pickups
      (filter (fun p => negb (collected p) || (collectProgress p <? 1))
              (pickups g3)) g3 in
  let g5 := set_bricks (moveBricksDown (bricks g4)) g4 in
  let g6 := set_pickups (movePickupsDown (pickups g5)) g5 in
  let g7 := set_pickups (removeBottomPickups (pickups g6)) g6 in
  if checkGameOver (bricks g7) then handleGameOver g7
  else
    let g8 := set_level (level g7 + 1) g7 in
    let g9 := gameSpawnNewRow g8 in
    let g10 := set_aimDirection None g9 in
    let g11 := set_trajectoryPoints [] g10 in
    let g12 := set_speedMultiplier speed1 g11 in
    set_state aiming g12.

(** [updateAnimating]; [currentTime] is the value of [performance.now()]. *)
Definition updateAnimating (currentTime deltaTime : R) (g : Game) : Game :=
  let launchDelay := BALL_LAUNCH_DELAY / speedValue (speedMultiplier g) in
  let g1 :=
    if (ballsLaunched g <? length (balls g))%nat
       && (currentTime - lastLaunchTime g >=? launchDelay)
    then
      match nth_error (balls g) (ballsLaunched g) with
      | Some b =>
          set_lastLaunchTime currentTime
            (set_ballsLaunched (S (ballsLaunched g))
               (set_balls (setNth (ballsLaunched g) (setActive b true) (balls g)) g))
      | None => g
      end
    else g in
  let '(balls', g2) := stepBalls deltaTime (balls g1) g1 in
  let g3 := set_balls balls' g2 in
  if (length (balls g3) <=? ballsReturned g3)%nat && (0 <? length (balls g3))%nat
  then endTurn g3 else g3.

Definition updateDestroyingBricks (deltaTime : R) (g : Game) : Game :=
  set_bricks
    (map (fun brick =>
            if destroying brick then
              {| brickId := brickId brick; gridX := gridX brick;
                 gridY := gridY brick; hits := hits brick;
                 destroying := destroying brick;
                 destroyProgress :=
                   destroyProgress brick
                   + deltaTime / (DESTROY_ANIMATION_DURATION / 1000) |}
            else brick)
         (bricks g)) g.

Definition updateCollectedPickups (deltaTime : R) (g : Game) : Game :=
  set_pickups
    (map (fun pickup =>
            if collected pickup then
              {| pickupId := pickupId pickup; pickupGridX := pickupGridX pickup;
                 pickupGridY := pickupGridY pickup; type := type pickup;
                 collected := collected pickup;
                 collectProgress :=
                   collectProgress pickup
                   + deltaTime / (COLLECT_ANIMATION_DURATION / 1000) |}
            else pickup)
         (pickups g)) g.

Definition update (currentTime deltaTime : R) (g : Game) : Game :=
  let g1 :=
    match state g with
    | animating => updateAnimating currentTime deltaTime g
    | _ => g
    end in
  updateCollectedPickups deltaTime (updateDestroyingBricks deltaTime g1).

(** The game as its constructor leaves it, on the manager [gm]. *)
Definition newGame (gm : GridManager) (saved : GameSettings) (scores : HighScores)
    : Game :=
  {| gridManager := gm;
     state := menu;
     previousState := menu;
     level := 1;
     ballCount := 1;
     speedMultiplier := speed1;
     gameSettings := saved;
     highScores := scores;
     balls := [];
     bricks := [];
     pickups := [];
     launchPosition := {| x := gameWidth physics / 2; y := launchZoneTop physics |};
     nextLaunchPosition := None;
     aimDirection := None;
     trajectoryPoints := [];
     isMovingLaunchPoint := false;
     ballsLaunched := 0%nat;
     ballsReturned := 0%nat;
     lastLaunchTime := 0;
     nextBallId := 0 |}.

(** What the game does between two frames and in a frame. *)
Inductive GameAction : Type :=
| Input (event : InputEvent)
| Frame (currentTime deltaTime : R).

Definition step (a : GameAction) (g : Game) : Game :=
  match a with
  | Input event => handleInput event g
  | Frame currentTime deltaTime => update currentTime deltaTime g
  end.

Definition run (actions : list GameAction) (g : Game) : Game :=
  fold_left (fun g' a => step a g') actions g.

End GameCode.

(** ** utils/Vector2.ts: the remaining operations *)

Definition createVector (a b : R) : Vector2 := {| x := a; y := b |}.

Definition addVectors (a b : Vector2) : Vector2 :=
  {| x := x a + x b; y := y a + y b |}.

Definition subtractVectors (a b : Vector2) : Vector2 :=
  {| x := x a - x b; y := y a - y b |}.

Definition scaleVector (v : Vector2) (scalar : R) : Vector2 :=
  {| x := x v * scalar; y := y v * scalar |}.

Definition cloneVector (v : Vector2) : Vector2 := {| x := x v; y := y v |}.

Definition rotateVector (v : Vector2) (angle : R) : Vector2 :=
  let c := cos angle in
  let s := sin angle in
  {| x := x v * c - y v * s; y := x v * s + y v * c |}.

Definition angleFromDirection (v : Vector2) : R := atan2 (y v) (x v).

Definition directionFromAngle (angle : R) : Vector2 :=
  {| x := cos angle; y := sin angle |}.

Module Vec.

(** [distance] of utils/Vector2.ts. *)
Definition distance (a b : Vector2) : R :=
  let dx := x b - x a in
  let dy := y b - y a in
  sqrt (dx * dx + dy * dy).

End Vec.

(** ** input/InputHandler.ts

    The handler's fields, and its listeners as functions of the data of the
    DOM event: the client coordinates of the touches or of the mouse, the
    key code, and the canvas rectangle that [getBoundingClientRect] returns.
    A listener returns the handler after the call and the events it emits,
    in order.  The [delta] of an [aimMove] event, which the game does not
    read, is left out. *)

Record InputHandler : Type := mkInputHandler {
  isDragging : bool;
  startPosition : option Vector2;
  lastPosition : option Vector2;
  isTouchDevice : bool
}.

Record DOMRect : Type := mkDOMRect {
  rectLeft : R;
  rectTop : R;
  rectWidth : R;
  rectHeight : R
}.

Inductive KeyCode : Type := Space | Escape | OtherKey.

Definition getCanvasPosition (rect : DOMRect) (clientX clientY : R) : Vector2 :=
  {| x := clientX - rectLeft rect; y := clientY - rectTop rect |}.

(** [wasTap]: the release is within 10 units of the start in both axes. *)
Definition wasTap (start : option Vector2) (pos : Vector2) : bool :=
  match start with
  | Some s => (Rabs (x pos - x s) <? 10) && (Rabs (y pos - y s) <? 10)
  | None => false
  end.

Definition releaseEvent (start : option Vector2) (pos : Vector2) : InputEvent :=
  if wasTap start pos
  then {| eventType := tap; eventPosition := pos |}
  else {| eventType := aimEnd; eventPosition := pos |}.

Definition handleTouchStart (rect : DOMRect) (touches : list (R * R))
    (h : InputHandler) : InputHandler * list InputEvent :=
  match touches with
  | [(clientX, clientY)] =>
      let pos := getCanvasPosition rect clientX clientY in
      ({| isDragging := true; startPosition := Some pos;
          lastPosition := Some pos; isTouchDevice := isTouchDevice h |},
       [{| eventType := aimStart; eventPosition := pos |}])
  | _ => (h, [])
  end.

Definition handleTouchMove (rect : DOMRect) (touches : list (R * R))
    (h : InputHandler) : InputHandler * list InputEvent :=
  if negb (isDragging h) then (h, [])
  else
    match touches with
    | [(clientX, clientY)] =>
        let pos := getCanvasPosition rect clientX clientY in
        ({| isDragging := isDragging h; startPosition := startPosition h;
            lastPosition := Some pos; isTouchDevice := isTouchDevice h |},
         [{| eventType := aimMove; eventPosition := pos |}])
    | _ => (h, [])
    end.

Definition handleTouchEnd (h : InputHandler) : InputHandler * list InputEvent :=
  if negb (isDragging h) then (h, [])
  else
    let pos :=
      match lastPosition h with
      | Some p => p
      | None => {| x := 0; y := 0 |}
      end in
    ({| isDragging := false; startPosition := None; lastPosition := None;
        isTouchDevice := isTouchDevice h |},
     [releaseEvent (startPosition h) pos]).

Definition handleMouseDown (rect : DOMRect) (clientX clientY : R)
    (h : InputHandler) : InputHandler * list InputEvent :=
  if isTouchDevice h then (h, [])
  else
    let pos := getCanvasPosition rect clientX clientY in
    ({| isDragging := true; startPosition := Some pos;
        lastPosition := Some pos; isTouchDevice := isTouchDevice h |},
     [{| eventType := aimStart; eventPosition := pos |}]).

Definition handleMouseMove (rect : DOMRect) (clientX clientY : R)
    (h : InputHandler) : InputHandler * list InputEvent :=
  if isTouchDevice h then (h, [])
  else if negb (isDragging h) then (h, [])
  else
    let pos := getCanvasPosition rect clientX clientY in
    ({| isDragging := isDragging h; startPosition := startPosition h;
        lastPosition := Some pos; isTouchDevice := isTouchDevice h |},
     [{| eventType := aimMove; eventPosition := pos |}]).

Definition handleMouseUp (rect : DOMRect) (clientX clientY : R)
    (h : InputHandler) : InputHandler * list InputEvent :=
  if isTouchDevice h then (h, [])
  else if negb (isDragging h) then (h, [])
  else
    let pos := getCanvasPosition rect clientX clientY in
    ({| isDragging := false; startPosition := None; lastPosition := None;
        isTouchDevice := isTouchDevice h |},
     [releaseEvent (startPosition h) pos]).

Definition handleKeyDown (rect : DOMRect) (code : KeyCode) : list InputEvent :=
  (match code with
   | Space =>
       [{| eventType := tap;
           eventPosition := {| x := rectWidth rect - 30; y := rectHeight rect - 30 |} |}]
   | _ => []
   end)
  ++ (match code with
      | Escape => [{| eventType := tap; eventPosition := {| x := -1; y := -1 |} |}]
      | _ => []
      end).

(** What the browser delivers to the listeners. *)
Inductive DOMEvent : Type :=
| TouchStart (touches : list (R * R))
| TouchMove (touches : list (R * R))
| TouchEnd
| MouseDown (clientX clientY : R)
| MouseMove (clientX clientY : R)
| MouseUp (clientX clientY : R)
| KeyDown (code : KeyCode).

Definition listen (rect : DOMRect) (e : DOMEvent) (h : InputHandler)
    : InputHandler * list InputEvent :=
  match e with
  | TouchStart touches => handleTouchStart rect touches h
  | TouchMove touches => handleTouchMove rect touches h
  | TouchEnd => handleTouchEnd h
  | MouseDown clientX clientY => handleMouseDown rect clientX clientY h
  | MouseMove clientX clientY => handleMouseMove rect clientX clientY h
  | MouseUp clientX clientY => handleMouseUp rect clientX clientY h
  | KeyDown code => (h, handleKeyDown rect code)
  end.

(** The listeners run over a list of DOM events: the handler at the end and
    every emitted event, in order. *)
Fixpoint listenAll (rect : DOMRect) (es : list DOMEvent) (h : InputHandler)
    : InputHandler * list InputEvent :=
  match es with
  | [] => (h, [])
  | e :: rest =>
      let '(h1, out1) := listen rect e h in
      let '(h2, out2) := listenAll rect rest h1 in
      (h2, out1 ++ out2)
  end.

(** [emit]: the game's [handleInput] is the one registered callback. *)
Definition deliver (random : nat -> R) (variant : ManagerVariant)
    (weights : PickupTable) (renderer : Renderer.t)
    (events : list InputEvent) (g : Game) : Game :=
  fold_left (fun g' event => handleInput random variant weights renderer event g')
            events g.

(** ** Predicates in which the properties are stated *)

(** The ball overlaps the wall [w] and moves into it. *)
Definition strikes (ph : Physics) (w : WallSide) (b : Ball) : Prop :=
  match w with
  | WallLeft => x (position b) - ballRadius ph <= 0 /\ x (velocity b) < 0
  | WallRight => x (position b) + ballRadius ph >= gameWidth ph /\ x (velocity b) > 0
  | WallTop => y (position b) - ballRadius ph <= 0 /\ y (velocity b) < 0
  end.

(** [b'] is [b] reflected off the wall [w]: clamped to the boundary, the
    perpendicular velocity negated, the parallel one kept, the speed kept. *)
Definition reflectedOff (ph : Physics) (w : WallSide) (b b' : Ball) : Prop :=
  match w with
  | WallLeft =>
      x (position b') = ballRadius ph
      /\ x (velocity b') = - x (velocity b) /\ y (velocity b') = y (velocity b)
  | WallRight =>
      x (position b') = gameWidth ph - ballRadius ph
      /\ x (velocity b') = - x (velocity b) /\ y (velocity b') = y (velocity b)
  | WallTop =>
      y (position b') = ballRadius ph
      /\ y (velocity b') = - y (velocity b) /\ x (velocity b') = x (velocity b)
  end
  /\ magnitude (velocity b') = magnitude (velocity b).

(** No wall that the code tests before [w] is overlapped. *)
Definition testedFirst (ph : Physics) (w : WallSide) (b : Ball) : Prop :=
  match w with
  | WallLeft => True
  | WallRight => ~ x (position b) - ballRadius ph <= 0
  | WallTop =>
      ~ x (position b) - ballRadius ph <= 0
      /\ ~ x (position b) + ballRadius ph >= gameWidth ph
  end.

(** The centre [p] lies outside the brick bounds expanded by the radius. *)
Definition outsideExpanded (ph : Physics) (bounds : BrickBounds) (p : Vector2) : Prop :=
  x p < left bounds - ballRadius ph \/ x p > right bounds + ballRadius ph
  \/ y p < top bounds - ballRadius ph \/ y p > bottom bounds + ballRadius ph.

Definition insideExpanded (ph : Physics) (bounds : BrickBounds) (p : Vector2) : Prop :=
  left bounds - ballRadius ph <= x p <= right bounds + ballRadius ph
  /\ top bounds - ballRadius ph <= y p <= bottom bounds + ballRadius ph.

(** The centre [p] is beside the brick in both directions. *)
Definition inCornerRegion (bounds : BrickBounds) (p : Vector2) : Prop :=
  (x p < left bounds \/ x p > right bounds)
  /\ (y p < top bounds \/ y p > bottom bounds).

(** The corner of the brick that the code selects for the centre [p]. *)
Definition cornerOf (bounds : BrickBounds) (p : Vector2) : Vector2 :=
  {| x := if x p <? left bounds then left bounds else right bounds;
     y := if y p <? top bounds then top bounds else bottom bounds |}.

Definition distTo (p q : Vector2) : R :=
  sqrt ((x p - x q) ^ 2 + (y p - y q) ^ 2).

(** The ball that a corner hit leaves behind. *)
Definition cornerPushed (ph : Physics) (bounds : BrickBounds) (b : Ball) : Ball :=
  let c := cornerOf bounds (position b) in
  let k := (ballRadius ph + 1) / distTo (position b) c in
  {| id := id b;
     position := {| x := x c + (x (position b) - x c) * k;
                    y := y c + (y (position b) - y c) * k |};
     velocity := {| x := - x (velocity b); y := - y (velocity b) |};
     active := active b |}.

(** What a hit on the face [f] does to the ball [b]. *)
Definition faceResolved (ph : Physics) (bounds : BrickBounds) (f : BrickFace)
    (b : Ball) : option Ball :=
  match f with
  | FaceLeft =>
      Some (setPositionX (setVelocityX b (- Rabs (x (velocity b))))
                         (left bounds - ballRadius ph - 1))
  | FaceRight =>
      Some (setPositionX (setVelocityX b (Rabs (x (velocity b))))
                         (right bounds + ballRadius ph + 1))
  | FaceTop =>
      Some (setPositionY (setVelocityY b (- Rabs (y (velocity b))))
                         (top bounds - ballRadius ph - 1))
  | FaceBottom =>
      Some (setPositionY (setVelocityY b (Rabs (y (velocity b))))
                         (bottom bounds + ballRadius ph + 1))
  | FaceCorner => None
  end.

(** The origin [p] lies strictly inside the expanded brick bounds. *)
Definition strictlyInsideExpanded (ph : Physics) (bounds : BrickBounds)
    (p : Vector2) : Prop :=
  left bounds - ballRadius ph < x p < right bounds + ballRadius ph
  /\ top bounds - ballRadius ph < y p < bottom bounds + ballRadius ph.

Definition zeroVector : Vector2 := {| x := 0; y := 0 |}.

(** The weights that README.md documents as the defaults. *)
Definition README_PICKUP_WEIGHTS : PickupTable :=
  {| w_ball := 1.0; w_x2 := 0.2; w_x3 := 0.143; w_x5 := 0.1; w_x10 := 0.05 |}.

Definition weightOf (weights : PickupTable) (t : PickupType) : R :=
  match t with
  | ball => w_ball weights
  | x2 => w_x2 weights
  | x3 => w_x3 weights
  | x5 => w_x5 weights
  | x10 => w_x10 weights
  end.

(** The sum of the weights of the entries before that of [t]. *)
Definition weightBefore (weights : PickupTable) (t : PickupType) : R :=
  match t with
  | ball => 0
  | x2 => w_ball weights
  | x3 => w_ball weights + w_x2 weights
  | x5 => w_ball weights + w_x2 weights + w_x3 weights
  | x10 => w_ball weights + w_x2 weights + w_x3 weights + w_x5 weights
  end.

(** The ends of the interval of draws that belongs to [t]. *)
Definition sliceLow (weights : PickupTable) (t : PickupType) : R :=
  weightBefore weights t / totalWeight weights.

Definition sliceHigh (weights : PickupTable) (t : PickupType) : R :=
  (weightBefore weights t + weightOf weights t) / totalWeight weights.

Definition nonNegative (weights : PickupTable) : Prop :=
  0 <= w_ball weights /\ 0 <= w_x2 weights /\ 0 <= w_x3 weights
  /\ 0 <= w_x5 weights /\ 0 <= w_x10 weights.

(** The invariant of a brick: it is being destroyed exactly when its hits
    are 0, it has at least one hit left otherwise, and its hits are never
    negative. *)
Definition brickInvariant (b : Brick) : Prop :=
  (0 <= hits b)%Z
  /\ (destroying b = false -> (1 <= hits b)%Z)
  /\ (destroying b = true <-> hits b = 0%Z).

(** The events of the overlay buttons: the Escape key, and taps on the
    centres of the Settings button of the pause screen, of the Back button
    of the settings screen and of the Resume button of the pause screen. *)
Definition escapeKey : InputEvent :=
  {| eventType := tap; eventPosition := {| x := -1; y := -1 |} |}.

Definition tapOn (bounds : ButtonBounds) : InputEvent :=
  {| eventType := tap;
     eventPosition := {| x := btnX bounds; y := btnY bounds |} |}.

Definition tapPauseSettings (renderer : Renderer.t) : InputEvent :=
  tapOn (Renderer.pauseSettings (Renderer.getPauseButtonBounds renderer)).

Definition tapSettingsBack (renderer : Renderer.t) : InputEvent :=
  tapOn (Renderer.back (Renderer.getSettingsButtonBounds renderer)).

Definition tapResume (renderer : Renderer.t) : InputEvent :=
  tapOn (Renderer.resume (Renderer.getPauseButtonBounds renderer)).

Definition tapPlay (renderer : Renderer.t) : InputEvent :=
  tapOn (Renderer.play (Renderer.getMenuButtonBounds renderer)).

(** A renderer as [resize] leaves it for a container of 350 by 600. *)
Definition renderer350 : Renderer.t :=
  {| Renderer.width := 350; Renderer.height := 600;
     Renderer.headerHeight := 48; Renderer.launchZoneHeight := 60;
     Renderer.gridHeight := 492; Renderer.gridOffsetY := 48;
     Renderer.cellWidth := 350 / 11; Renderer.cellHeight := 492 / 11;
     Renderer.ballRadius := 8; Renderer.pickupRadius := 12;
     Renderer.scale := 1 |}.

(** The point [q] belongs to the brick rectangle. *)
Definition inRect (bounds : BrickBounds) (q : Vector2) : Prop :=
  left bounds <= x q <= right bounds /\ top bounds <= y q <= bottom bounds.

(** The hit [h] is the point of the ray at the parameter [t], and its
    distance is the length of the ray up to there. *)
Definition onRay (origin direction : Vector2) (t : R) (h : RayHit) : Prop :=
  point h = {| x := x origin + x direction * t; y := y origin + y direction * t |}
  /\ distance h = t * sqrt (x direction ^ 2 + y direction ^ 2).

(** The hit [h] lies on the left, right or top boundary of the field, inside
    the range of that boundary, with the inward normal, and the ray runs
    towards that boundary. *)
Definition onWall (ph : Physics) (direction : Vector2) (h : RayHit) : Prop :=
  (normal h = {| x := 1; y := 0 |} /\ x direction < 0
   /\ x (point h) = ballRadius ph
   /\ ballRadius ph <= y (point h) <= launchZoneTop ph - ballRadius ph)
  \/ (normal h = {| x := -1; y := 0 |} /\ x direction > 0
      /\ x (point h) = gameWidth ph - ballRadius ph
      /\ ballRadius ph <= y (point h) <= launchZoneTop ph - ballRadius ph)
  \/ (normal h = {| x := 0; y := 1 |} /\ y direction < 0
      /\ y (point h) = ballRadius ph
      /\ ballRadius ph <= x (point h) <= gameWidth ph - ballRadius ph).

(** The hit [h] lies on a face of the expanded brick bounds, with the
    outward normal of that face, and the ray runs against that normal. *)
Definition onFace (ph : Physics) (bounds : BrickBounds) (direction : Vector2)
    (h : RayHit) : Prop :=
  (normal h = {| x := -1; y := 0 |} /\ x direction > 0
   /\ x (point h) = left bounds - ballRadius ph)
  \/ (normal h = {| x := 1; y := 0 |} /\ x direction < 0
      /\ x (point h) = right bounds + ballRadius ph)
  \/ (normal h = {| x := 0; y := -1 |} /\ y direction > 0
      /\ y (point h) = top bounds - ballRadius ph)
  \/ (normal h = {| x := 0; y := 1 |} /\ y direction < 0
      /\ y (point h) = bottom bounds + ballRadius ph).

(** The centre [p] lies on the left, right or top boundary line of the
    field. *)
Definition onFieldBoundary (ph : Physics) (p : Vector2) : Prop :=
  x p = ballRadius ph \/ x p = gameWidth ph - ballRadius ph \/ y p = ballRadius ph.

(** The centre [p] lies on the boundary of the expanded brick bounds. *)
Definition onExpandedBoundary (ph : Physics) (bounds : BrickBounds) (p : Vector2)
    : Prop :=
  insideExpanded ph bounds p
  /\ (x p = left bounds - ballRadius ph \/ x p = right bounds + ballRadius ph
      \/ y p = top bounds - ballRadius ph \/ y p = bottom bounds + ballRadius ph).

(** A physics object for a field of 350 by 600. *)
Definition physics350 : Physics :=
  {| gameWidth := 350; _gameHeight := 600; ballRadius := 8; launchZoneTop := 540 |}.

(** [Math.random] returns numbers from 0 up to, but not including, 1. *)
Definition validRandom (random : nat -> R) : Prop :=
  forall n, 0 <= random n < 1.

(** [floor(baseHits * BRICK_HIT_VARIANCE)], the [variance] of [spawnNewRow]. *)
Definition hitVariance (baseHits : Z) : Z :=
  floor (IZR baseHits * BRICK_HIT_VARIANCE).

(** The ids [start], [start + 1], ... that [n] successive creations take. *)
Fixpoint countFrom (start : Z) (n : nat) : list Z :=
  match n with
  | O => []
  | S n' => start :: countFrom (start + 1) n'
  end.

(** A brick as [spawnNewRow] makes it for the row [row]. *)
Definition freshBrick (baseHits row : Z) (brick : Brick) : Prop :=
  gridY brick = row /\ destroying brick = false /\ destroyProgress brick = 0
  /\ (1 <= hits brick)%Z
  /\ ((1 <= baseHits)%Z ->
      (Z.max 1 (baseHits - hitVariance baseHits) <= hits brick
       <= baseHits + hitVariance baseHits)%Z).

(** A pickup as [spawnNewRow] makes it for the row [row]. *)
Definition freshPickup (row : Z) (pickup : Pickup) : Prop :=
  pickupGridY pickup = row /\ collected pickup = false
  /\ collectProgress pickup = 0.

(** What a call of [spawnNewRow] on the manager [s] leaves: the new bricks
    and pickups of the row [row] and the manager [s'].  Bricks and pickups
    stand in pairwise different columns of the grid, and take the next ids
    of the two counters in order. *)
Definition rowSpawned (baseHits row : Z) (s : GridManager)
    (bricks : list Brick) (pickups : list Pickup) (s' : GridManager) : Prop :=
  (MIN_BRICKS_PER_ROW <= Z.of_nat (length bricks) <= MAX_BRICKS_PER_ROW)%Z
  /\ NoDup (map gridX bricks ++ map pickupGridX pickups)
  /\ (forall c, In c (map gridX bricks ++ map pickupGridX pickups) ->
      (0 <= c < GRID_COLS)%Z)
  /\ Forall (freshBrick baseHits row) bricks
  /\ Forall (freshPickup row) pickups
  /\ map brickId bricks = countFrom (nextBrickId s) (length bricks)
  /\ map pickupId pickups = countFrom (nextPickupId s) (length pickups)
  /\ nextBrickId s' = (nextBrickId s + Z.of_nat (length bricks))%Z
  /\ nextPickupId s' = (nextPickupId s + Z.of_nat (length pickups))%Z.

(** The row in which a manager spawns. *)
Definition spawnRow (variant : ManagerVariant) : Z :=
  match variant with
  | WeightedPickups => 0
  | IntervalPickups => 2
  end.

Definition brickCell (brick : Brick) : Z * Z := (gridX brick, gridY brick).

Definition pickupCell (pickup : Pickup) : Z * Z :=
  (pickupGridX pickup, pickupGridY pickup).

(** What the board invariant reads of a brick or a pickup: its id and its
    cell. *)
Definition brickKey (brick : Brick) : Z * (Z * Z) :=
  (brickId brick, brickCell brick).

Definition pickupKey (pickup : Pickup) : Z * (Z * Z) :=
  (pickupId pickup, pickupCell pickup).

Definition downKey (k : Z * (Z * Z)) : Z * (Z * Z) :=
  (fst k, (fst (snd k), (snd (snd k) + 1)%Z)).

Definition inGrid (firstRow lastRow : Z) (k : Z * (Z * Z)) : Prop :=
  (0 <= fst (snd k) < GRID_COLS)%Z /\ (firstRow <= snd (snd k) <= lastRow)%Z.

Definition isOver (s : GameState) : bool :=
  match s with gameOver => true | _ => false end.

(** The board invariant on the keys of the bricks and of the pickups: no
    two of them share a cell, every cell is in the grid from the row
    [firstRow] on (a brick reaches the row [GRID_ROWS] only when the game is
    over), and the ids of the bricks, and those of the pickups, are pairwise
    different and below the counter of the manager. *)
Definition boardOk (firstRow : Z) (over : bool) (gm : GridManager)
    (bks pks : list (Z * (Z * Z))) : Prop :=
  NoDup (map snd bks ++ map snd pks)
  /\ Forall (inGrid firstRow (if over then GRID_ROWS else GRID_ROWS - 1)) bks
  /\ Forall (inGrid firstRow (GRID_ROWS - 1)) pks
  /\ NoDup (map fst bks)
  /\ Forall (fun k => (fst k < nextBrickId gm)%Z) bks
  /\ NoDup (map fst pks)
  /\ Forall (fun k => (fst k < nextPickupId gm)%Z) pks.

Definition gameInvariant (variant : ManagerVariant) (g : Game) : Prop :=
  (1 <= level g)%Z /\ (1 <= ballCount g)%Z
  /\ state g <> launching /\ previousState g <> launching
  /\ boardOk (spawnRow variant) (isOver (state g)) (gridManager g)
       (map brickKey (bricks g)) (map pickupKey (pickups g)).

(** A step that leaves the board, the manager and the level alone, and
    does not lower the ball count. *)
Definition quietStep (g g' : Game) : Prop :=
  map brickKey (bricks g') = map brickKey (bricks g)
  /\ map pickupKey (pickups g') = map pickupKey (pickups g)
  /\ gridManager g' = gridManager g
  /\ level g' = level g
  /\ (ballCount g <= ballCount g')%Z.

(** The level and the ball count are at least 1, and neither the state nor
    the remembered state is [launching]. *)
Definition countersOk (g : Game) : Prop :=
  (1 <= level g)%Z /\ (1 <= ballCount g)%Z
  /\ state g <> launching /\ previousState g <> launching.

(** The number of balls in flight. *)
Definition activeCount (bs : list Ball) : nat := length (filter active bs).

(** The counters of a turn agree with the balls: the balls not yet
    launched are inactive, and [ballsReturned] counts the launched balls
    that are no longer in flight. *)
Definition turnAccounts (g : Game) : Prop :=
  (ballsLaunched g <= length (balls g))%nat
  /\ (activeCount (balls g) + ballsReturned g = ballsLaunched g)%nat
  /\ Forall (fun b => active b = false) (skipn (ballsLaunched g) (balls g)).

(** The states from which the next launch starts: [aiming], and an overlay
    that remembers [aiming]. *)
Definition beforeLaunch (g : Game) : Prop :=
  state g = aiming
  \/ ((state g = paused \/ state g = settings) /\ previousState g = aiming).

Definition turnInvariant (g : Game) : Prop :=
  (beforeLaunch g -> balls g = []) /\ (balls g = [] \/ turnAccounts g).

(** The parameter at which the ray from [pos] along [dir] meets the line
    [y = launchZoneTop]. *)
Definition bottomTime (lzt : R) (pos dir : Vector2) : R :=
  (lzt - y pos) / y dir.

(** The leg from [pos] along [dir] runs downwards and reaches the bottom
    boundary ahead of it, before the closest hit if there is one. *)
Definition exitsAtBottom (lzt : R) (pos dir : Vector2)
    (closestHit : option RayHit) : Prop :=
  0 < y dir /\ 0 < bottomTime lzt pos dir
  /\ forall h, closestHit = Some h -> bottomTime lzt pos dir < distance h.

(** The bounce points of a preview that starts at [pos] along [dir]: each
    one is the closest hit of the leg before it, which does not leave
    through the bottom first, and the next leg starts at the hit along the
    direction reflected about the normal of the hit.  The last two arguments
    are the start and the direction of the leg after the last bounce. *)
Inductive bouncePath (ph : Physics) (bs : list Brick)
    (cw ch ox oy gap lzt : R)
    : Vector2 -> Vector2 -> list TrajectoryPoint -> Vector2 -> Vector2 -> Prop :=
| bouncePath_nil (pos dir : Vector2) :
    bouncePath ph bs cw ch ox oy gap lzt pos dir [] pos dir
| bouncePath_cons (pos dir : Vector2) (hit : RayHit)
    (rest : list TrajectoryPoint) (pos' dir' : Vector2) :
    findClosestHit ph bs cw ch ox oy gap pos dir = Some hit ->
    ~ exitsAtBottom lzt pos dir (Some hit) ->
    bouncePath ph bs cw ch ox oy gap lzt
      (point hit) (reflectVector dir (normal hit)) rest pos' dir' ->
    bouncePath ph bs cw ch ox oy gap lzt pos dir
      ({| tpPosition := point hit; isBounce := true |} :: rest) pos' dir'.

(** The closing point [p] of a preview with [n] bounces whose last leg
    starts at [pos] along [dir]: the extra segment of length 500 directions
    when the bounce cap is reached; the point on the bottom boundary when
    the leg leaves through the bottom; the far point at 2000 directions when
    the leg hits nothing. *)
Definition closingPoint (ph : Physics) (bs : list Brick)
    (cw ch ox oy gap lzt : R) (n : nat) (pos dir p : Vector2) : Prop :=
  (n = MAX_TRAJECTORY_BOUNCES
   /\ p = {| x := x pos + x dir * 500; y := y pos + y dir * 500 |})
  \/ ((n < MAX_TRAJECTORY_BOUNCES)%nat
      /\ exitsAtBottom lzt pos dir (findClosestHit ph bs cw ch ox oy gap pos dir)
      /\ p = {| x := x pos + x dir * bottomTime lzt pos dir; y := lzt |})
  \/ ((n < MAX_TRAJECTORY_BOUNCES)%nat
      /\ ~ exitsAtBottom lzt pos dir (findClosestHit ph bs cw ch ox oy gap pos dir)
      /\ findClosestHit ph bs cw ch ox oy gap pos dir = None
      /\ p = {| x := x pos + x dir * 2000; y := y pos + y dir * 2000 |}).

(** * Properties *)

(** ** Boolean comparisons decide the order of the reals *)

Lemma Rltb_true (a b : R) : (a <? b) = true <-> a < b.
Proof. unfold Rltb; destruct (Rlt_dec a b); split; intros; (easy || lra). Qed.

Lemma Rltb_false (a b : R) : (a <? b) = false <-> b <= a.
Proof. unfold Rltb; destruct (Rlt_dec a b); split; intros; (easy || lra). Qed.

Lemma Rleb_true (a b : R) : (a <=? b) = true <-> a <= b.
Proof. unfold Rleb; destruct (Rle_dec a b); split; intros; (easy || lra). Qed.

Lemma Rleb_false (a b : R) : (a <=? b) = false <-> b < a.
Proof. unfold Rleb; destruct (Rle_dec a b); split; intros; (easy || lra). Qed.

Lemma Rgtb_true (a b : R) : (a >? b) = true <-> a > b.
Proof. unfold Rgtb; rewrite Rltb_true; lra. Qed.

Lemma Rgtb_false (a b : R) : (a >? b) = false <-> a <= b.
Proof. unfold Rgtb; rewrite Rltb_false; lra. Qed.

Lemma Rgeb_true (a b : R) : (a >=? b) = true <-> a >= b.
Proof. unfold Rgeb; rewrite Rleb_true; lra. Qed.

Lemma Rgeb_false (a b : R) : (a >=? b) = false <-> a < b.
Proof. unfold Rgeb; rewrite Rleb_false; lra. Qed.

Lemma Reqb_true (a b : R) : (a =? b) = true <-> a = b.
Proof. unfold Reqb; destruct (Req_dec_T a b); split; intros; (easy || lra). Qed.

Lemma Reqb_false (a b : R) : (a =? b) = false <-> a <> b.
Proof. unfold Reqb; destruct (Req_dec_T a b); split; intros; (easy || lra). Qed.

(** [rcases] decides every comparison that occurs in the goal, keeping the
    outcome as a hypothesis, and discards the impossible branches. *)
Ltac rcase1 :=
  match goal with
  | |- context [Rltb ?a ?b] =>
      let H := fresh "Hc" in
      destruct (Rltb a b) eqn:H;
      [apply Rltb_true in H | apply Rltb_false in H]
  | |- context [Rleb ?a ?b] =>
      let H := fresh "Hc" in
      destruct (Rleb a b) eqn:H;
      [apply Rleb_true in H | apply Rleb_false in H]
  | |- context [Reqb ?a ?b] =>
      let H := fresh "Hc" in
      destruct (Reqb a b) eqn:H;
      [apply Reqb_true in H | apply Reqb_false in H]
  end.

Ltac rcases := unfold Rgtb, Rgeb in *; repeat (rcase1; simpl; try lra).

(** ** Physics.updateBall *)

Lemma updateBall_inactive (b : Ball) (deltaTime speedMultiplier : R) :
  active b = false -> updateBall b deltaTime speedMultiplier = b.
Proof. intros H; unfold updateBall; rewrite H; reflexivity. Qed.

(** C9, as stated, fails: a ball that is not active is left where it is. *)
Lemma updateBall_moves_every_ball_refuted :
  ~ (forall (b : Ball) (deltaTime speedMultiplier : R),
        position (updateBall b deltaTime speedMultiplier)
        = {| x := x (position b) + x (velocity b) * deltaTime * speedMultiplier;
             y := y (position b) + y (velocity b) * deltaTime * speedMultiplier |}).
Proof.
  intros H.
  specialize (H {| id := 0; position := {| x := 0; y := 0 |};
                   velocity := {| x := 1; y := 0 |}; active := false |} 1 1).
  cbn in H. injection H as H. lra.
Qed.

(** C9 (amended): for an active ball, [updateBall] sets the position to
    position + velocity * dt * m and leaves the id, the velocity and the
    active flag as they were; a ball that is not active is returned
    unchanged. *)
Theorem updateBall_advances_active_ball
    (b : Ball) (deltaTime speedMultiplier : R) :
  (active b = true ->
     updateBall b deltaTime speedMultiplier
     = {| id := id b;
          position :=
            {| x := x (position b) + x (velocity b) * deltaTime * speedMultiplier;
               y := y (position b) + y (velocity b) * deltaTime * speedMultiplier |};
          velocity := velocity b;
          active := active b |})
  /\ (active b = false -> updateBall b deltaTime speedMultiplier = b).
Proof.
  split; intros H.
  - unfold updateBall, setPositionY, setPositionX; rewrite H; cbn.
    f_equal. f_equal; ring.
  - now apply updateBall_inactive.
Qed.

Lemma updateBall_advances_active_ball_witness :
  updateBall {| id := 7; position := {| x := 10; y := 20 |};
                velocity := {| x := 3; y := -4 |}; active := true |} 0.5 2
  = {| id := 7; position := {| x := 10 + 3 * 0.5 * 2; y := 20 + -4 * 0.5 * 2 |};
       velocity := {| x := 3; y := -4 |}; active := true |}.
Proof.
  apply (updateBall_advances_active_ball
           {| id := 7; position := {| x := 10; y := 20 |};
              velocity := {| x := 3; y := -4 |}; active := true |} 0.5 2).
  reflexivity.
Defined.

(** ** Physics.checkWallCollision *)

Lemma magnitude_flip (v v' : Vector2) :
  (x v' = x v \/ x v' = - x v) -> (y v' = y v \/ y v' = - y v) ->
  magnitude v' = magnitude v.
Proof.
  intros [Hx | Hx] [Hy | Hy]; unfold magnitude; rewrite Hx, Hy; f_equal; ring.
Qed.

(** C1, as stated, fails: a ball in the top-left corner that moves into the
    top wall is reflected off the left wall only. *)
Lemma wall_reflection_every_struck_wall_refuted :
  ~ (forall (ph : Physics) (w : WallSide) (b : Ball),
        strikes ph w b -> reflectedOff ph w b (fst (checkWallCollision ph b))).
Proof.
  intros H.
  specialize (H {| gameWidth := 400; _gameHeight := 600; ballRadius := 8;
                   launchZoneTop := 540 |}
                WallTop
                {| id := 0; position := {| x := 5; y := 5 |};
                   velocity := {| x := -3; y := -4 |}; active := true |}).
  unfold strikes, reflectedOff, checkWallCollision in H; cbn in H.
  assert (Hs : 5 - 8 <= 0 /\ -4 < 0) by lra.
  specialize (H Hs).
  destruct (5 - 8 <=? 0) eqn:E.
  - cbn in H. lra.
  - apply Rleb_false in E. lra.
Qed.

(** C1 (amended): the walls are tested in the order left, right, top and
    only the first overlapped wall is handled.  For a ball that strikes the
    wall [w] while overlapping no wall tested before [w],
    [checkWallCollision] reports [w], clamps the position to that boundary,
    negates the perpendicular velocity component exactly, keeps the parallel
    one and keeps the speed. *)
Theorem wall_reflection_first_wall
    (ph : Physics) (w : WallSide) (b : Ball) :
  strikes ph w b -> testedFirst ph w b ->
  snd (checkWallCollision ph b) = {| wallCollided := true; side := Some w |}
  /\ reflectedOff ph w b (fst (checkWallCollision ph b)).
Proof.
  destruct w; unfold strikes, testedFirst, reflectedOff, checkWallCollision;
    intros [Ho Hv] Hf; rcases; cbn.
  - split; [reflexivity|]. rewrite Rabs_left by lra.
    repeat split; try reflexivity.
    apply magnitude_flip; cbn; auto.
  - split; [reflexivity|]. rewrite Rabs_right by lra.
    repeat split; try reflexivity.
    apply magnitude_flip; cbn; auto.
  - split; [reflexivity|]. rewrite Rabs_left by lra.
    repeat split; try reflexivity.
    apply magnitude_flip; cbn; auto.
Qed.

Lemma wall_reflection_first_wall_witness :
  let ph := {| gameWidth := 400; _gameHeight := 600; ballRadius := 8;
               launchZoneTop := 540 |} in
  let b := {| id := 0; position := {| x := 200; y := 5 |};
              velocity := {| x := -3; y := -4 |}; active := true |} in
  snd (checkWallCollision ph b) = {| wallCollided := true; side := Some WallTop |}
  /\ reflectedOff ph WallTop b (fst (checkWallCollision ph b)).
Proof.
  intros ph b.
  apply (wall_reflection_first_wall ph WallTop b); cbn; lra.
Defined.

(** ** Trigonometry of the corner push *)

Lemma hypot_pos (dx dy : R) : dx <> 0 -> 0 < sqrt (dx ^ 2 + dy ^ 2).
Proof. intros H. apply sqrt_lt_R0. nra. Qed.

Lemma hypot_sqr (dx dy : R) : sqrt (dx ^ 2 + dy ^ 2) * sqrt (dx ^ 2 + dy ^ 2) = dx ^ 2 + dy ^ 2.
Proof. apply sqrt_sqrt. nra. Qed.

Lemma sqrt_slope (dx dy : R) :
  dx <> 0 -> sqrt (1 + (dy / dx)²) = sqrt (dx ^ 2 + dy ^ 2) / Rabs dx.
Proof.
  intros H.
  assert (Ha : 0 < Rabs dx) by (apply Rabs_pos_lt; exact H).
  pose proof (hypot_pos dx dy H) as Hp.
  pose proof (hypot_sqr dx dy) as Hs.
  apply sqrt_lem_1.
  - unfold Rsqr. nra.
  - apply Rlt_le, Rdiv_lt_0_compat; assumption.
  - unfold Rsqr.
    assert (Hab : Rabs dx * Rabs dx = dx * dx).
    { unfold Rabs; destruct (Rcase_abs dx); ring. }
    replace (sqrt (dx ^ 2 + dy ^ 2) / Rabs dx * (sqrt (dx ^ 2 + dy ^ 2) / Rabs dx))
      with ((sqrt (dx ^ 2 + dy ^ 2) * sqrt (dx ^ 2 + dy ^ 2)) / (Rabs dx * Rabs dx))
      by (field; lra).
    rewrite Hs, Hab. field. exact H.
Qed.

Lemma cos_atan2 (dy dx : R) :
  dx <> 0 -> cos (atan2 dy dx) = dx / sqrt (dx ^ 2 + dy ^ 2).
Proof.
  intros H. pose proof (hypot_pos dx dy H) as Hp.
  unfold atan2, Rgtb, Rgeb, Rltb, Rleb.
  destruct (Rlt_dec 0 dx) as [Hpos | Hnpos].
  - rewrite cos_atan, sqrt_slope by exact H.
    rewrite Rabs_right by lra. field. lra.
  - destruct (Rlt_dec dx 0) as [Hneg | Hnneg]; [| lra].
    destruct (Rle_dec 0 dy).
    + rewrite neg_cos, cos_atan, sqrt_slope by exact H.
      rewrite Rabs_left by lra. field. lra.
    + replace (atan (dy / dx) - PI) with (- (- atan (dy / dx) + PI)) by ring.
      rewrite cos_neg, neg_cos, cos_neg, cos_atan, sqrt_slope by exact H.
      rewrite Rabs_left by lra. field. lra.
Qed.

Lemma sin_atan2 (dy dx : R) :
  dx <> 0 -> sin (atan2 dy dx) = dy / sqrt (dx ^ 2 + dy ^ 2).
Proof.
  intros H. pose proof (hypot_pos dx dy H) as Hp.
  unfold atan2, Rgtb, Rgeb, Rltb, Rleb.
  destruct (Rlt_dec 0 dx) as [Hpos | Hnpos].
  - rewrite sin_atan, sqrt_slope by exact H.
    rewrite Rabs_right by lra. field. lra.
  - destruct (Rlt_dec dx 0) as [Hneg | Hnneg]; [| lra].
    destruct (Rle_dec 0 dy).
    + rewrite neg_sin, sin_atan, sqrt_slope by exact H.
      rewrite Rabs_left by lra. field. lra.
    + replace (atan (dy / dx) - PI) with (- (- atan (dy / dx) + PI)) by ring.
      rewrite sin_neg, neg_sin, sin_neg, sin_atan, sqrt_slope by exact H.
      rewrite Rabs_left by lra. field. lra.
Qed.

(** ** Physics.checkBrickCollision *)

Lemma cornerOf_dx_nonzero (bounds : BrickBounds) (p : Vector2) :
  (x p < left bounds \/ x p > right bounds) -> x p - x (cornerOf bounds p) <> 0.
Proof. unfold cornerOf; cbn; intros H; rcases. Qed.

Lemma cornerOf_dy_nonzero (bounds : BrickBounds) (p : Vector2) :
  (y p < top bounds \/ y p > bottom bounds) -> y p - y (cornerOf bounds p) <> 0.
Proof. unfold cornerOf; cbn; intros H; rcases. Qed.

Lemma checkBrickCollision_outside (ph : Physics) (b : Ball) (bounds : BrickBounds) :
  outsideExpanded ph bounds (position b) ->
  checkBrickCollision ph b bounds = (b, {| brickCollided := false; face := None |}).
Proof.
  unfold outsideExpanded, checkBrickCollision; intros H.
  rcases; reflexivity.
Qed.

Lemma checkBrickCollision_corner_miss (ph : Physics) (b : Ball) (bounds : BrickBounds) :
  inCornerRegion bounds (position b) ->
  distTo (position b) (cornerOf bounds (position b)) > ballRadius ph ->
  checkBrickCollision ph b bounds = (b, {| brickCollided := false; face := None |}).
Proof.
  unfold inCornerRegion, distTo, cornerOf, checkBrickCollision; cbn.
  intros [Hx Hy] Hd.
  rcases; try reflexivity.
Qed.

Lemma checkBrickCollision_corner_hit (ph : Physics) (b : Ball) (bounds : BrickBounds) :
  insideExpanded ph bounds (position b) ->
  inCornerRegion bounds (position b) ->
  distTo (position b) (cornerOf bounds (position b)) <= ballRadius ph ->
  checkBrickCollision ph b bounds
  = (cornerPushed ph bounds b,
     {| brickCollided := true; face := Some FaceCorner |}).
Proof.
  intros [Hix Hiy] [Hx Hy] Hd.
  pose proof (cornerOf_dx_nonzero bounds (position b) Hx) as Hdx.
  pose proof (cornerOf_dy_nonzero bounds (position b) Hy) as Hdy.
  pose proof (hypot_pos _ (y (position b) - y (cornerOf bounds (position b))) Hdx) as Hp.
  unfold cornerPushed, distTo in *.
  set (c := cornerOf bounds (position b)) in *.
  unfold checkBrickCollision.
  replace (if x (position b) <? left bounds then left bounds else right bounds)
    with (x c) by reflexivity.
  replace (if y (position b) <? top bounds then top bounds else bottom bounds)
    with (y c) by reflexivity.
  cbv zeta.
  assert (E1 : ((x (position b) <? left bounds - ballRadius ph)
                || (x (position b) >? right bounds + ballRadius ph)
                || (y (position b) <? top bounds - ballRadius ph)
                || (y (position b) >? bottom bounds + ballRadius ph)) = false)
    by (rcases; reflexivity).
  assert (E2 : (((x (position b) <? left bounds) || (x (position b) >? right bounds))
                && ((y (position b) <? top bounds) || (y (position b) >? bottom bounds)))
               = true)
    by (rcases; reflexivity).
  assert (E3 : (sqrt ((x (position b) - x c) ^ 2 + (y (position b) - y c) ^ 2)
                <=? ballRadius ph) = true)
    by (apply Rleb_true; exact Hd).
  rewrite E1, E2, E3.
  rewrite cos_atan2, sin_atan2 by exact Hdx.
  clearbody c.
  set (D := sqrt ((x (position b) - x c) ^ 2 + (y (position b) - y c) ^ 2)) in *.
  clearbody D.
  unfold setPositionY, setPositionX, setVelocityY, setVelocityX; cbn.
  f_equal. f_equal; f_equal; solve [field; lra | ring].
Qed.

Lemma checkBrickCollision_face (ph : Physics) (b : Ball) (bounds : BrickBounds) :
  insideExpanded ph bounds (position b) ->
  ~ inCornerRegion bounds (position b) ->
  exists f b',
    faceResolved ph bounds f b = Some b'
    /\ checkBrickCollision ph b bounds
       = (b', {| brickCollided := true; face := Some f |}).
Proof.
  intros [Hix Hiy] Hn.
  unfold checkBrickCollision; cbv zeta.
  assert (E1 : ((x (position b) <? left bounds - ballRadius ph)
                || (x (position b) >? right bounds + ballRadius ph)
                || (y (position b) <? top bounds - ballRadius ph)
                || (y (position b) >? bottom bounds + ballRadius ph)) = false)
    by (rcases; reflexivity).
  assert (E2 : (((x (position b) <? left bounds) || (x (position b) >? right bounds))
                && ((y (position b) <? top bounds) || (y (position b) >? bottom bounds)))
               = false).
  { unfold inCornerRegion in Hn. rcases; try reflexivity; exfalso; apply Hn; lra. }
  rewrite E1, E2; clear E1 E2.
  repeat match goal with
         | |- context [if ?c then _ else _] => destruct c
         end.
  - exists FaceLeft; eexists; split; reflexivity.
  - exists FaceRight; eexists; split; reflexivity.
  - exists FaceTop; eexists; split; reflexivity.
  - exists FaceBottom; eexists; split; reflexivity.
Qed.



Lemma checkBrickCollision_cases (ph : Physics) (b : Ball) (bounds : BrickBounds) :
  checkBrickCollision ph b bounds = (b, {| brickCollided := false; face := None |})
  \/ (inCornerRegion bounds (position b)
      /\ distTo (position b) (cornerOf bounds (position b)) <= ballRadius ph
      /\ checkBrickCollision ph b bounds
         = (cornerPushed ph bounds b,
            {| brickCollided := true; face := Some FaceCorner |}))
  \/ (exists f b',
        faceResolved ph bounds f b = Some b'
        /\ checkBrickCollision ph b bounds
           = (b', {| brickCollided := true; face := Some f |})).
Proof.
  assert (Ho : outsideExpanded ph bounds (position b)
               \/ insideExpanded ph bounds (position b))
    by (unfold outsideExpanded, insideExpanded; lra).
  destruct Ho as [Ho | Hi].
  { left. now apply checkBrickCollision_outside. }
  assert (Hc : inCornerRegion bounds (position b)
               \/ ~ inCornerRegion bounds (position b))
    by (unfold inCornerRegion; lra).
  destruct Hc as [Hc | Hc].
  - destruct (Rle_dec (distTo (position b) (cornerOf bounds (position b)))
                      (ballRadius ph)) as [Hd | Hd].
    + right; left. split; [exact Hc|]. split; [exact Hd|].
      now apply checkBrickCollision_corner_hit.
    + left. apply checkBrickCollision_corner_miss; [assumption | lra].
  - right; right. now apply checkBrickCollision_face.
Qed.

Lemma checkBrickCollision_no_hit (ph : Physics) (b : Ball) (bounds : BrickBounds) :
  brickCollided (snd (checkBrickCollision ph b bounds)) = false ->
  checkBrickCollision ph b bounds = (b, {| brickCollided := false; face := None |}).
Proof.
  destruct (checkBrickCollision_cases ph b bounds)
    as [E | [(_ & _ & E) | (f & b' & _ & E)]]; rewrite E; cbn; congruence.
Qed.


Lemma sqrt_3_4_5 : sqrt ((97 - 100) ^ 2 + (96 - 100) ^ 2) = 5.
Proof.
  replace ((97 - 100) ^ 2 + (96 - 100) ^ 2) with (5 * 5) by lra.
  apply sqrt_square; lra.
Qed.

(** C4: a ball whose centre is left of and above the brick, inside the
    expanded bounds and within the ball radius of the top-left corner, is
    reported as a corner hit and leaves with both velocity components
    negated.  The radius and the incoming velocity are arbitrary, so radius
    8 and a velocity at 45 degrees into the brick are included. *)
Theorem corner_bounce_top_left
    (ph : Physics) (b : Ball) (bounds : BrickBounds) :
  x (position b) < left bounds ->
  y (position b) < top bounds ->
  insideExpanded ph bounds (position b) ->
  sqrt ((x (position b) - left bounds) ^ 2 + (y (position b) - top bounds) ^ 2)
    <= ballRadius ph ->
  brickCollided (snd (checkBrickCollision ph b bounds)) = true
  /\ face (snd (checkBrickCollision ph b bounds)) = Some FaceCorner
  /\ velocity (fst (checkBrickCollision ph b bounds))
     = {| x := - x (velocity b); y := - y (velocity b) |}.
Proof.
  intros Hx Hy Hi Hd.
  assert (Hc : cornerOf bounds (position b)
               = {| x := left bounds; y := top bounds |}).
  { unfold cornerOf.
    apply Rltb_true in Hx; apply Rltb_true in Hy. now rewrite Hx, Hy. }
  rewrite checkBrickCollision_corner_hit; try assumption.
  - repeat split; reflexivity.
  - split; [left | left]; assumption.
  - unfold distTo; rewrite Hc; exact Hd.
Qed.

Lemma corner_bounce_top_left_witness :
  let ph := {| gameWidth := 400; _gameHeight := 600; ballRadius := 8;
               launchZoneTop := 540 |} in
  let b := {| id := 0; position := {| x := 97; y := 96 |};
              velocity := {| x := 300; y := 300 |}; active := true |} in
  let bounds := {| left := 100; right := 200; top := 100; bottom := 200 |} in
  brickCollided (snd (checkBrickCollision ph b bounds)) = true
  /\ face (snd (checkBrickCollision ph b bounds)) = Some FaceCorner
  /\ velocity (fst (checkBrickCollision ph b bounds)) = {| x := - 300; y := - 300 |}.
Proof.
  intros ph b bounds.
  apply (corner_bounce_top_left ph b bounds).
  - cbn; lra.
  - cbn; lra.
  - unfold insideExpanded; cbn; lra.
  - cbn [x y position left top ballRadius b bounds ph].
    rewrite sqrt_3_4_5; lra.
Defined.






(** ** Physics.raycastBrick and Physics.raycastWall *)

Lemma nearSide_negative (a b d : R) :
  a < 0 < b -> d <> 0 -> Rmin (a / d) (b / d) < 0.
Proof.
  intros [Ha Hb] Hd.
  destruct (Rlt_dec 0 d) as [Hpos | Hneg].
  - apply Rle_lt_trans with (a / d); [apply Rmin_l|].
    pose proof (Rinv_0_lt_compat d Hpos). unfold Rdiv. nra.
  - assert (Hd' : d < 0) by lra.
    apply Rle_lt_trans with (b / d); [apply Rmin_r|].
    pose proof (Rinv_lt_0_compat d Hd'). unfold Rdiv. nra.
Qed.

Lemma farSide_positive (a b d : R) :
  a < 0 < b -> d <> 0 -> 0 < Rmax (a / d) (b / d).
Proof.
  intros [Ha Hb] Hd.
  destruct (Rlt_dec 0 d) as [Hpos | Hneg].
  - apply Rlt_le_trans with (b / d); [|apply Rmax_r].
    pose proof (Rinv_0_lt_compat d Hpos). unfold Rdiv. nra.
  - assert (Hd' : d < 0) by lra.
    apply Rlt_le_trans with (a / d); [|apply Rmax_l].
    pose proof (Rinv_lt_0_compat d Hd'). unfold Rdiv. nra.
Qed.

Lemma raycastBrick_inside (ph : Physics) (origin direction : Vector2)
    (bounds : BrickBounds) :
  strictlyInsideExpanded ph bounds origin ->
  raycastBrick ph origin direction bounds
  = Some {| point := origin; normal := zeroVector; distance := 0 |}.
Proof.
  intros [[Hl Hr] [Ht Hb]].
  unfold raycastBrick; cbv zeta; cbn [left right top bottom].
  set (nx := Rmin ((left bounds - ballRadius ph - x origin) / x direction)
                  ((right bounds + ballRadius ph - x origin) / x direction)).
  set (fx := Rmax ((left bounds - ballRadius ph - x origin) / x direction)
                  ((right bounds + ballRadius ph - x origin) / x direction)).
  set (ny := Rmin ((top bounds - ballRadius ph - y origin) / y direction)
                  ((bottom bounds + ballRadius ph - y origin) / y direction)).
  set (fy := Rmax ((top bounds - ballRadius ph - y origin) / y direction)
                  ((bottom bounds + ballRadius ph - y origin) / y direction)).
  assert (Hnx : x direction <> 0 -> (nx >? 0) = false /\ 0 < fx).
  { intros Hd; split.
    - apply Rgtb_false, Rlt_le, nearSide_negative; [lra | exact Hd].
    - apply farSide_positive; [lra | exact Hd]. }
  assert (Hny : y direction <> 0 -> (ny >? 0) = false /\ 0 < fy).
  { intros Hd; split.
    - apply Rgtb_false, Rlt_le, nearSide_negative; [lra | exact Hd].
    - apply farSide_positive; [lra | exact Hd]. }
  assert (Hox : ((x origin <? left bounds - ballRadius ph)
                 || (x origin >? right bounds + ballRadius ph)) = false)
    by (rcases; reflexivity).
  assert (Hoy : ((y origin <? top bounds - ballRadius ph)
                 || (y origin >? bottom bounds + ballRadius ph)) = false)
    by (rcases; reflexivity).
  assert (Hzero : (0 <? 0) = false) by (apply Rltb_false; lra).
  assert (Hout :
    Some {| point := {| x := x origin + x direction * 0;
                        y := y origin + y direction * 0 |};
            normal := {| x := 0; y := 0 |};
            distance := 0 * sqrt (x direction ^ 2 + y direction ^ 2) |}
    = Some {| point := origin; normal := zeroVector; distance := 0 |}).
  { destruct origin as [ox oy]; cbn [x y]; unfold zeroVector.
    f_equal; f_equal; [f_equal|]; ring. }
  clearbody nx fx ny fy.
  destruct (x direction =? 0) eqn:Ex;
    [apply Reqb_true in Ex | apply Reqb_false in Ex];
  destruct (y direction =? 0) eqn:Ey;
    [apply Reqb_true in Ey | apply Reqb_false in Ey | apply Reqb_true in Ey
    | apply Reqb_false in Ey];
    cbn [negb].
  - rewrite Hox, Hoy; cbn [gtInfinity orb]. rewrite Hzero. exact Hout.
  - destruct (Hny Ey) as [Hn Hf].
    rewrite Hox, Hn; cbn [minWithInfinity gtInfinity].
    assert (E : (0 >? fy) = false) by (apply Rgtb_false; lra).
    rewrite E, Hzero; cbn [orb]. exact Hout.
  - destruct (Hnx Ex) as [Hn Hf].
    rewrite Hn, Hoy; cbn [minWithInfinity gtInfinity].
    assert (E : (0 >? fx) = false) by (apply Rgtb_false; lra).
    rewrite E, Hzero; cbn [orb]. exact Hout.
  - destruct (Hnx Ex) as [Hn Hf]. destruct (Hny Ey) as [Hn' Hf'].
    rewrite Hn, Hn'; cbn [minWithInfinity gtInfinity].
    assert (E : (0 >? Rmin fx fy) = false).
    { apply Rgtb_false. apply Rmin_glb; lra. }
    rewrite E, Hzero; cbn [orb]. exact Hout.
Qed.

Lemma unit_normal_nonzero (a b : R) :
  a <> 0 \/ b <> 0 -> {| x := a; y := b |} <> zeroVector.
Proof.
  unfold zeroVector; intros H E; injection E as Ea Eb; lra.
Qed.

Lemma raycastBrick_far_hit_normal (ph : Physics) (origin direction : Vector2)
    (bounds : BrickBounds) (h : RayHit) :
  raycastBrick ph origin direction bounds = Some h ->
  distance h > 0.1 -> normal h <> zeroVector.
Proof.
  unfold raycastBrick; cbv zeta; intros H Hd.
  repeat match type of H with
         | context [if ?c then _ else _] => destruct c
         end;
    cbn in H; try discriminate;
    repeat match type of H with
           | context [if ?c then _ else _] => destruct c
           end;
    try discriminate; injection H as H; subst h; cbn [normal distance] in *;
    try (apply unit_normal_nonzero; lra);
    exfalso; lra.
Qed.

Lemma closestOf_In (first : RayHit) (rest : list RayHit) :
  In (closestOf first rest) (first :: rest).
Proof.
  unfold closestOf. revert first.
  induction rest as [| h rest IH]; intros first; cbn [fold_left].
  - now left.
  - destruct (distance h <? distance first).
    + right. apply IH.
    + destruct (IH first) as [E | HIn]; [left; exact E | right; right; exact HIn].
Qed.

Lemma raycastWall_normal (ph : Physics) (origin direction : Vector2) (h : RayHit) :
  raycastWall ph origin direction = Some h -> normal h <> zeroVector.
Proof.
  unfold raycastWall; cbv zeta.
  set (hits3 := if y direction <? 0 then _ else _).
  assert (Hall : Forall (fun hit => normal hit <> zeroVector) hits3).
  { subst hits3.
    repeat match goal with
           | |- context [if ?c then _ else _] => destruct c
           end;
      cbn [app];
      repeat (constructor; [cbn [normal]; apply unit_normal_nonzero; lra|]);
      constructor. }
  clearbody hits3.
  destruct hits3 as [| first rest]; [discriminate|].
  intros H; injection H as H; subst h.
  rewrite Forall_forall in Hall. apply Hall, closestOf_In.
Qed.

Lemma brickStep_normal (ph : Physics) (cw ch ox oy gap : R)
    (pos dir : Vector2) (closestHit : option RayHit) (brick : Brick) :
  (forall h, closestHit = Some h -> normal h <> zeroVector) ->
  forall h, brickStep ph cw ch ox oy gap pos dir closestHit brick = Some h ->
            normal h <> zeroVector.
Proof.
  intros Hacc h. unfold brickStep.
  destruct (destroying brick); [apply Hacc|].
  destruct (raycastBrick ph pos dir _) as [brickHit |] eqn:E; [|apply Hacc].
  destruct (distance brickHit >? 0.1) eqn:Ed; [|apply Hacc].
  apply Rgtb_true in Ed.
  pose proof (raycastBrick_far_hit_normal _ _ _ _ _ E Ed) as Hn.
  destruct closestHit as [c |].
  - destruct (distance brickHit <? distance c); [|apply Hacc].
    intros H; injection H as H; now subst h.
  - intros H; injection H as H; now subst h.
Qed.

Lemma findClosestHit_normal (ph : Physics) (bs : list Brick)
    (cw ch ox oy gap : R) (pos dir : Vector2) (h : RayHit) :
  findClosestHit ph bs cw ch ox oy gap pos dir = Some h ->
  normal h <> zeroVector.
Proof.
  unfold findClosestHit.
  set (closestHit0 :=
         match raycastWall ph pos dir with
         | Some wallHit => if distance wallHit >? 0.1 then Some wallHit else None
         | None => None
         end).
  assert (H0 : forall h', closestHit0 = Some h' -> normal h' <> zeroVector).
  { subst closestHit0. intros h'.
    destruct (raycastWall ph pos dir) as [wallHit |] eqn:E; [|discriminate].
    destruct (distance wallHit >? 0.1); [|discriminate].
    intros H; injection H as H; subst h'.
    now apply raycastWall_normal in E. }
  clearbody closestHit0. revert closestHit0 H0 h.
  induction bs as [| brick rest IH]; intros acc Hacc h; cbn [fold_left].
  - apply Hacc.
  - apply IH. now apply brickStep_normal.
Qed.

(** C10: from an origin strictly inside the expanded bounds of a brick,
    [raycastBrick] returns, for every direction, the hit at the origin with
    distance 0 and the zero vector as normal.  The brick loop of the
    trajectory passes over that hit, and no hit that the loop selects has
    the zero vector as normal, so the reflection in [calculateTrajectory]
    never uses it. *)
Theorem raycast_inside_brick_is_degenerate
    (ph : Physics) (origin direction : Vector2) (bounds : BrickBounds) :
  strictlyInsideExpanded ph bounds origin ->
  raycastBrick ph origin direction bounds
  = Some {| point := origin; normal := zeroVector; distance := 0 |}
  /\ (forall (cw ch ox oy gap : R) (brick : Brick) (closestHit : option RayHit),
        getBrickBounds brick cw ch ox oy gap = bounds ->
        brickStep ph cw ch ox oy gap origin direction closestHit brick = closestHit)
  /\ (forall (bs : list Brick) (cw ch ox oy gap : R) (pos dir : Vector2) (h : RayHit),
        findClosestHit ph bs cw ch ox oy gap pos dir = Some h ->
        normal h <> zeroVector).
Proof.
  intros Hin. split; [now apply raycastBrick_inside|]. split.
  - intros cw ch ox oy gap brick closestHit Hb. unfold brickStep.
    destruct (destroying brick); [reflexivity|].
    rewrite Hb, (raycastBrick_inside ph origin direction bounds Hin).
    cbn [distance].
    assert (E : (0 >? 0.1) = false) by (apply Rgtb_false; lra).
    now rewrite E.
  - intros bs cw ch ox oy gap pos dir h. apply findClosestHit_normal.
Qed.

Lemma raycast_inside_brick_is_degenerate_witness :
  raycastBrick {| gameWidth := 400; _gameHeight := 600; ballRadius := 8;
                  launchZoneTop := 540 |}
               {| x := 150; y := 150 |} {| x := 0; y := -1 |}
               {| left := 100; right := 200; top := 100; bottom := 200 |}
  = Some {| point := {| x := 150; y := 150 |}; normal := zeroVector; distance := 0 |}.
Proof.
  apply (raycast_inside_brick_is_degenerate
           {| gameWidth := 400; _gameHeight := 600; ballRadius := 8;
              launchZoneTop := 540 |}
           {| x := 150; y := 150 |} {| x := 0; y := -1 |}
           {| left := 100; right := 200; top := 100; bottom := 200 |}).
  unfold strictlyInsideExpanded; cbn; lra.
Defined.

(** ** TrajectoryCalculator.calculateTrajectory *)

Section TrajectoryShape.

Variable ph : Physics.
Variable bs : list Brick.
Variables cw ch ox oy gap lzt : R.

Let loop := trajectoryLoop ph bs cw ch ox oy gap lzt.

(** The loop appends bounce points only, and either runs out of passes
    after [n] of them or stops early on one point that is not a bounce. *)
Lemma trajectoryLoop_shape (n : nat) (st : LoopState) :
  exists bounces,
    Forall (fun p => isBounce p = true) bounces
    /\ ((points (loop n st) = points st ++ bounces
         /\ length bounces = n
         /\ bounceCount (loop n st) = (bounceCount st + n)%nat)
        \/ (exists p,
              isBounce p = false
              /\ points (loop n st) = points st ++ bounces ++ [p]
              /\ (length bounces < n)%nat
              /\ bounceCount (loop n st) = (bounceCount st + length bounces)%nat)).
Proof.
  subst loop. revert st.
  induction n as [| n IH]; intros st; cbn [trajectoryLoop].
  - exists []. split; [constructor|]. left.
    rewrite app_nil_r, Nat.add_0_r. auto.
  - destruct (bottomExit lzt _ _ _) as [bottomPoint |].
    + exists []. split; [constructor|]. right.
      eexists; cbn [points bounceCount app length].
      repeat split; [| lia | lia]. reflexivity.
    + destruct (findClosestHit ph bs cw ch ox oy gap _ _) as [hit |].
      * destruct (IH {| points := points st ++ [{| tpPosition := point hit;
                                                   isBounce := true |}];
                        currentPos := point hit;
                        currentDir := reflectVector (currentDir st) (normal hit);
                        bounceCount := S (bounceCount st) |})
          as (bounces & Hall & Hcases).
        exists ({| tpPosition := point hit; isBounce := true |} :: bounces).
        split; [constructor; [reflexivity | exact Hall]|].
        cbn [points bounceCount] in Hcases.
        destruct Hcases as [(Hp & Hl & Hc) | (p & Hnb & Hp & Hl & Hc)].
        -- left. rewrite Hp, Hc, <- app_assoc. cbn [app length].
           repeat split; lia.
        -- right. exists p. rewrite Hp, Hc, <- app_assoc. cbn [app length].
           repeat split; try assumption; lia.
      * exists []. split; [constructor|]. right.
        eexists; cbn [points bounceCount app length].
        repeat split; [| lia | lia]. reflexivity.
Qed.

End TrajectoryShape.

Lemma lastElement_app {A : Type} (l : list A) (a : A) :
  lastElement (l ++ [a]) = Some a.
Proof.
  induction l as [| b l IH]; [reflexivity|].
  cbn [app lastElement]. destruct (l ++ [a]) eqn:E; [|exact IH].
  now destruct l.
Qed.

Lemma filter_all_bounces (l : list TrajectoryPoint) :
  Forall (fun p => isBounce p = true) l -> filter isBounce l = l.
Proof.
  induction 1 as [| p l Hp _ IH]; [reflexivity|].
  cbn [filter]. now rewrite Hp, IH.
Qed.

Lemma bottomExit_Some (lzt : R) (pos dir : Vector2) (c : option RayHit)
    (p : Vector2) :
  bottomExit lzt pos dir c = Some p ->
  exitsAtBottom lzt pos dir c
  /\ p = {| x := x pos + x dir * bottomTime lzt pos dir; y := lzt |}.
Proof.
  unfold bottomExit, exitsAtBottom, bottomTime; cbv zeta.
  destruct (y dir >? 0) eqn:E1; [|discriminate]. apply Rgtb_true in E1.
  destruct ((lzt - y pos) / y dir >? 0) eqn:E2; [|discriminate].
  apply Rgtb_true in E2.
  destruct c as [h |].
  - destruct ((lzt - y pos) / y dir <? distance h) eqn:E3; [|discriminate].
    apply Rltb_true in E3. intros H; injection H as <-.
    split; [|reflexivity]. split; [lra|]. split; [lra|].
    intros h' Hh; injection Hh as <-. exact E3.
  - intros H; injection H as <-.
    split; [|reflexivity]. split; [lra|]. split; [lra|]. discriminate.
Qed.

Lemma bottomExit_None (lzt : R) (pos dir : Vector2) (c : option RayHit) :
  bottomExit lzt pos dir c = None -> ~ exitsAtBottom lzt pos dir c.
Proof.
  unfold bottomExit, exitsAtBottom, bottomTime; cbv zeta.
  intros H (H1 & H2 & H3).
  assert (E1 : (y dir >? 0) = true) by (apply Rgtb_true; lra).
  assert (E2 : ((lzt - y pos) / y dir >? 0) = true) by (apply Rgtb_true; lra).
  rewrite E1, E2 in H. destruct c as [h |]; [|discriminate].
  assert (E3 : ((lzt - y pos) / y dir <? distance h) = true)
    by (apply Rltb_true; now apply H3).
  rewrite E3 in H. discriminate.
Qed.

Section TrajectoryTrace.

Variable ph : Physics.
Variable bs : list Brick.
Variables cw ch ox oy gap lzt : R.

(** The loop follows a bounce path; it either runs out of passes after [n]
    bounces, with the state at the start of the next leg, or stops early
    on the closing point of the leg it has reached. *)
Lemma trajectoryLoop_trace (n : nat) (st : LoopState) :
  exists bounces pos dir,
    Forall (fun p => isBounce p = true) bounces
    /\ bouncePath ph bs cw ch ox oy gap lzt
         (currentPos st) (currentDir st) bounces pos dir
    /\ ((points (trajectoryLoop ph bs cw ch ox oy gap lzt n st)
         = points st ++ bounces
         /\ length bounces = n
         /\ bounceCount (trajectoryLoop ph bs cw ch ox oy gap lzt n st)
            = (bounceCount st + n)%nat
         /\ currentDir (trajectoryLoop ph bs cw ch ox oy gap lzt n st) = dir)
        \/ (exists p,
              points (trajectoryLoop ph bs cw ch ox oy gap lzt n st)
              = points st ++ bounces ++ [{| tpPosition := p; isBounce := false |}]
              /\ (length bounces < n)%nat
              /\ bounceCount (trajectoryLoop ph bs cw ch ox oy gap lzt n st)
                 = (bounceCount st + length bounces)%nat
              /\ ((exitsAtBottom lzt pos dir
                     (findClosestHit ph bs cw ch ox oy gap pos dir)
                   /\ p = {| x := x pos + x dir * bottomTime lzt pos dir;
                             y := lzt |})
                  \/ (~ exitsAtBottom lzt pos dir
                          (findClosestHit ph bs cw ch ox oy gap pos dir)
                      /\ findClosestHit ph bs cw ch ox oy gap pos dir = None
                      /\ p = {| x := x pos + x dir * 2000;
                                y := y pos + y dir * 2000 |})))).
Proof.
  revert st. induction n as [| n IH]; intros st; cbn [trajectoryLoop].
  - exists [], (currentPos st), (currentDir st).
    split; [constructor|]. split; [constructor|]. left.
    rewrite app_nil_r, Nat.add_0_r. repeat split.
  - destruct (bottomExit lzt (currentPos st) (currentDir st)
                (findClosestHit ph bs cw ch ox oy gap (currentPos st)
                   (currentDir st))) as [bottomPoint |] eqn:Eb.
    + apply bottomExit_Some in Eb. destruct Eb as [Hexit Hp].
      exists [], (currentPos st), (currentDir st).
      split; [constructor|]. split; [constructor|]. right.
      exists bottomPoint. cbn [points bounceCount app length].
      split; [reflexivity|]. split; [lia|]. split; [lia|]. left.
      split; assumption.
    + apply bottomExit_None in Eb.
      destruct (findClosestHit ph bs cw ch ox oy gap (currentPos st)
                  (currentDir st)) as [hit |] eqn:Eh.
      * destruct (IH {| points := points st ++ [{| tpPosition := point hit;
                                                   isBounce := true |}];
                        currentPos := point hit;
                        currentDir := reflectVector (currentDir st) (normal hit);
                        bounceCount := S (bounceCount st) |})
          as (bounces & pos & dir & Hall & Hpath & Hcases).
        cbn [points bounceCount currentPos currentDir] in Hpath, Hcases.
        exists ({| tpPosition := point hit; isBounce := true |} :: bounces),
          pos, dir.
        split; [constructor; [reflexivity | exact Hall]|].
        split; [now apply bouncePath_cons with (hit := hit)|].
        destruct Hcases as [(Hp & Hl & Hc & Hd) | (p & Hp & Hl & Hc & Hclose)].
        -- left. rewrite Hp, Hc, <- app_assoc. cbn [app length].
           split; [reflexivity|]. split; [lia|]. split; [lia | exact Hd].
        -- right. exists p. rewrite Hp, Hc, <- app_assoc. cbn [app length].
           split; [reflexivity|]. split; [lia|]. split; [lia | exact Hclose].
      * exists [], (currentPos st), (currentDir st).
        split; [constructor|]. split; [constructor|]. right.
        eexists. cbn [points bounceCount app length].
        split; [reflexivity|]. split; [lia|]. split; [lia|]. right.
        rewrite Eh. split; [exact Eb|]. split; reflexivity.
Qed.

(** The leg after the last bounce starts at the last point of the list so
    far. *)
Lemma bouncePath_last (pos dir : Vector2) (bounces : list TrajectoryPoint)
    (pos' dir' : Vector2) (first : TrajectoryPoint) :
  bouncePath ph bs cw ch ox oy gap lzt pos dir bounces pos' dir' ->
  tpPosition first = pos ->
  exists lastPoint,
    lastElement (first :: bounces) = Some lastPoint
    /\ tpPosition lastPoint = pos'.
Proof.
  intros H. revert first. induction H as [pos dir | pos dir hit rest pos' dir' Hh He _ IH];
    intros first Hf.
  - exists first. split; [reflexivity | exact Hf].
  - destruct (IH {| tpPosition := point hit; isBounce := true |} eq_refl)
      as (lastPoint & El & Hl).
    exists lastPoint. split; [|exact Hl].
    cbn [lastElement] in *. exact El.
Qed.

End TrajectoryTrace.

Lemma last_nonempty_default {A : Type} (l : list A) (c a b : A) :
  last (c :: l) a = last (c :: l) b.
Proof.
  revert c; induction l as [| e l IH]; intros c; [reflexivity|].
  change (last (c :: e :: l) a) with (last (e :: l) a).
  change (last (c :: e :: l) b) with (last (e :: l) b).
  apply IH.
Qed.

Lemma lastElement_last {A : Type} (l : list A) (a lastPoint : A) :
  lastElement (a :: l) = Some lastPoint -> last l a = lastPoint.
Proof.
  revert a; induction l as [| b l IH]; intros a H.
  - cbn in *. now injection H as <-.
  - change (lastElement (a :: b :: l)) with (lastElement (b :: l)) in H.
    specialize (IH b H). rewrite <- IH.
    destruct l as [| c l]; [reflexivity|].
    change (last (b :: c :: l) a) with (last (c :: l) a).
    change (last (c :: l) b) with (last (c :: l) b).
    apply last_nonempty_default.
Qed.

Lemma filter_bounces_between (a z : TrajectoryPoint)
    (bounces : list TrajectoryPoint) :
  isBounce a = false -> isBounce z = false ->
  Forall (fun p => isBounce p = true) bounces ->
  filter isBounce (a :: bounces ++ [z]) = bounces.
Proof.
  intros Ha Hz H. cbn [filter]. rewrite Ha, filter_app, (filter_all_bounces _ H).
  cbn [filter]. rewrite Hz. apply app_nil_r.
Qed.

(** C2: the list that [calculateTrajectory] returns is the start position
    tagged non-bounce, then at most [MAX_TRAJECTORY_BOUNCES] (4) points
    tagged as bounce, which are all the points with that tag, then one
    closing point tagged non-bounce, so the list has at least two points.
    The bounce points follow the closest hits from the start along the
    normalized direction, each leg reflected about the normal of its hit.
    The closing point is the extra straight segment of 500 directions from
    the last bounce when the bounce cap is reached, the point where the last
    leg leaves through the bottom boundary, or the far extension of 2000
    directions when the last leg hits nothing. *)
Theorem calculateTrajectory_shape
    (ph : Physics) (bs : list Brick) (cw ch ox oy gap lzt : R)
    (startPosition direction : Vector2) :
  let pts := calculateTrajectory ph bs cw ch ox oy gap lzt startPosition direction in
  exists bounces lastPoint pos dir,
    pts = {| tpPosition := startPosition; isBounce := false |}
          :: bounces ++ [lastPoint]
    /\ Forall (fun p => isBounce p = true) bounces
    /\ isBounce lastPoint = false
    /\ (length bounces <= MAX_TRAJECTORY_BOUNCES)%nat
    /\ length (filter isBounce pts) = length bounces
    /\ bouncePath ph bs cw ch ox oy gap lzt
         startPosition (normalizeVector direction) bounces pos dir
    /\ pos = tpPosition
               (last bounces {| tpPosition := startPosition; isBounce := false |})
    /\ closingPoint ph bs cw ch ox oy gap lzt
         (length bounces) pos dir (tpPosition lastPoint).
Proof.
  intros pts; subst pts. unfold calculateTrajectory, MAX_TRAJECTORY_BOUNCES; cbv zeta.
  cbn [bounceCount Nat.sub].
  set (start := {| tpPosition := startPosition; isBounce := false |}).
  set (st0 := {| points := [start]; currentPos := startPosition;
                 currentDir := normalizeVector direction; bounceCount := 0 |}).
  destruct (trajectoryLoop_trace ph bs cw ch ox oy gap lzt 4 st0)
    as (bounces & pos & dir & Hall & Hpath
        & [(Hp & Hl & Hc & Hd) | (p & Hp & Hl & Hc & Hclose)]);
    cbn [currentPos currentDir st0] in Hpath;
    rewrite Hp, Hc; cbn [points bounceCount st0 Nat.add].
  - (* the cap was reached: one more segment is appended *)
    destruct (bouncePath_last ph bs cw ch ox oy gap lzt _ _ _ _ _ start
                Hpath eq_refl) as (lastPoint & El & Hlast).
    change ([start] ++ bounces) with (start :: bounces). rewrite El, Hd.
    cbn [Nat.leb andb length Nat.ltb].
    exists bounces, {| tpPosition :=
                         {| x := x (tpPosition lastPoint) + x dir * 500;
                            y := y (tpPosition lastPoint) + y dir * 500 |};
                       isBounce := false |}, pos, dir.
    split; [reflexivity|]. split; [exact Hall|]. split; [reflexivity|].
    split; [lia|].
    split.
    { cbn [app]. now rewrite filter_bounces_between. }
    split; [exact Hpath|].
    split; [rewrite (lastElement_last _ _ _ El); symmetry; exact Hlast|].
    left. cbn [tpPosition]. rewrite Hlast.
    split; [exact Hl | reflexivity].
  - (* the loop stopped on its closing point *)
    assert (E : (4 <=? length bounces)%nat = false) by (apply Nat.leb_gt; lia).
    rewrite E; cbn [andb].
    destruct (bouncePath_last ph bs cw ch ox oy gap lzt _ _ _ _ _ start
                Hpath eq_refl) as (lastPoint & El & Hlast).
    exists bounces, {| tpPosition := p; isBounce := false |}, pos, dir.
    split; [reflexivity|]. split; [exact Hall|]. split; [reflexivity|].
    split; [lia|].
    split.
    { cbn [app]. now rewrite filter_bounces_between. }
    split; [exact Hpath|].
    split; [rewrite (lastElement_last _ _ _ El); symmetry; exact Hlast|].
    right. cbn [tpPosition]. unfold MAX_TRAJECTORY_BOUNCES.
    destruct Hclose as [[Hexit Hpt] | (Hno & Hnone & Hpt)]; [left | right].
    + split; [lia|]. split; assumption.
    + split; [lia|]. split; [exact Hno|]. split; assumption.
Qed.

(** ** GridManager.checkGameOver *)

(** C5: [checkGameOver] answers true exactly when some brick of the list has
    a row index of at least [GRID_ROWS]; for the empty list it answers
    false. *)
Theorem checkGameOver_iff_brick_in_last_row (bs : list Brick) :
  (checkGameOver bs = true
   <-> exists brick, In brick bs /\ (gridY brick >= GRID_ROWS)%Z)
  /\ checkGameOver [] = false.
Proof.
  split; [|reflexivity].
  unfold checkGameOver. rewrite existsb_exists.
  split; intros (brick & HIn & H); exists brick; split; try assumption.
  - apply Z.geb_le in H; lia.
  - apply Z.geb_le; lia.
Qed.

(** ** GridManager.getRandomPickupType *)

Lemma div_lt_iff (a u T : R) : 0 < T -> (a / T < u <-> a < u * T).
Proof.
  intros HT; split; intros H.
  - apply Rmult_lt_compat_r with (r := T) in H; [|exact HT].
    unfold Rdiv in H. rewrite Rmult_assoc, Rinv_l, Rmult_1_r in H; lra.
  - apply Rmult_lt_reg_r with T; [exact HT|].
    unfold Rdiv. rewrite Rmult_assoc, Rinv_l, Rmult_1_r; lra.
Qed.

Lemma le_div_iff (b u T : R) : 0 < T -> (u <= b / T <-> u * T <= b).
Proof.
  intros HT; split; intros H.
  - apply Rmult_le_compat_r with (r := T) in H; [|lra].
    unfold Rdiv in H. rewrite Rmult_assoc, Rinv_l, Rmult_1_r in H; lra.
  - apply Rmult_le_reg_r with T; [exact HT|].
    unfold Rdiv. rewrite Rmult_assoc, Rinv_l, Rmult_1_r; lra.
Qed.

Lemma totalWeight_sum (weights : PickupTable) :
  totalWeight weights
  = w_ball weights + w_x2 weights + w_x3 weights + w_x5 weights + w_x10 weights.
Proof. unfold totalWeight, values, entries; cbn; ring. Qed.

Lemma pickup_slice (weights : PickupTable) (u : R) (t : PickupType) :
  nonNegative weights -> 0 < totalWeight weights -> 0 <= u < 1 ->
  (getRandomPickupTypeOn weights u = t
   <-> (sliceLow weights t < u <= sliceHigh weights t) \/ (t = ball /\ u = 0)).
Proof.
  intros (H1 & H2 & H3 & H4 & H5) HT [Hu0 Hu1].
  unfold sliceLow, sliceHigh.
  rewrite div_lt_iff, le_div_iff by exact HT.
  assert (Hv0 : 0 <= u * totalWeight weights) by nra.
  assert (Hv1 : u * totalWeight weights < totalWeight weights) by nra.
  assert (Hvz : u = 0 <-> u * totalWeight weights = 0) by (split; nra).
  unfold getRandomPickupTypeOn.
  set (v := u * totalWeight weights) in *. clearbody v.
  rewrite totalWeight_sum in *.
  unfold entries; cbn [pickByWeight].
  destruct t; cbn [weightBefore weightOf]; rcases;
    (split;
     [ intros E; try discriminate;
       first [ left; lra
             | destruct (Req_dec_T v 0) as [Hz | Hz];
               [ right; split; [reflexivity | apply Hvz; exact Hz]
               | left; lra ] ]
     | intros [E | [E E']]; try discriminate; try reflexivity;
       try apply Hvz in E'; exfalso; lra ]).
Qed.

(** With the weights of constants.ts only the standard type has a positive
    weight, and it is returned for every draw. *)
Lemma configured_weights_always_ball (u : R) :
  0 <= u < 1 -> getRandomPickupTypeOn PICKUP_WEIGHTS u = ball.
Proof.
  intros Hu.
  apply (pickup_slice PICKUP_WEIGHTS u ball).
  - unfold nonNegative; cbn; lra.
  - rewrite totalWeight_sum; cbn; lra.
  - exact Hu.
  - unfold sliceLow, sliceHigh; rewrite totalWeight_sum; cbn.
    destruct (Req_dec_T u 0) as [E | E]; [right; auto | left; lra].
Qed.

(** C8: with the draw of [Math.random] as the input [u], the type [t] is
    returned exactly for the draws in the interval from [sliceLow] to
    [sliceHigh] (and for the draw 0, which belongs to the first type); the
    interval lies in the unit interval and its length is the weight of [t]
    divided by the total weight.  Under the default weights that the README
    documents, the standard type takes between 66.9% and 67.1% of the
    draws. *)
Theorem pickup_type_fraction
    (random : nat -> R) (s : GridManager) (weights : PickupTable) (t : PickupType) :
  let u := random (drawn s) in
  nonNegative weights -> 0 < totalWeight weights -> 0 <= u < 1 ->
  (fst (getRandomPickupType random weights s) = t
   <-> (sliceLow weights t < u <= sliceHigh weights t) \/ (t = ball /\ u = 0))
  /\ 0 <= sliceLow weights t <= sliceHigh weights t
  /\ sliceHigh weights t <= 1
  /\ sliceHigh weights t - sliceLow weights t
     = weightOf weights t / totalWeight weights
  /\ 0.669 < sliceHigh README_PICKUP_WEIGHTS ball - sliceLow README_PICKUP_WEIGHTS ball
     < 0.671.
Proof.
  intros u Hw HT Hu.
  split; [exact (pickup_slice weights u t Hw HT Hu)|].
  destruct Hw as (H1 & H2 & H3 & H4 & H5).
  pose proof (Rinv_0_lt_compat _ HT) as Hinv.
  assert (Hb : 0 <= weightBefore weights t) by (destruct t; cbn; lra).
  assert (Hwt : 0 <= weightOf weights t) by (destruct t; cbn; lra).
  assert (Hsum : weightBefore weights t + weightOf weights t <= totalWeight weights)
    by (rewrite totalWeight_sum; destruct t; cbn; lra).
  unfold sliceLow, sliceHigh.
  split; [split|split; [|split]].
  - unfold Rdiv; nra.
  - unfold Rdiv; nra.
  - apply Rmult_le_reg_r with (totalWeight weights); [exact HT|].
    unfold Rdiv; rewrite Rmult_assoc, Rinv_l by lra. lra.
  - field; lra.
  - rewrite totalWeight_sum; cbn. lra.
Qed.

Lemma pickup_type_fraction_witness :
  fst (getRandomPickupType (fun _ => 0.5) README_PICKUP_WEIGHTS
         {| nextBrickId := 0; nextPickupId := 0; drawn := 0 |}) = ball
  <-> (sliceLow README_PICKUP_WEIGHTS ball < 0.5 <= sliceHigh README_PICKUP_WEIGHTS ball)
      \/ (ball = ball /\ 0.5 = 0).
Proof.
  apply (pickup_type_fraction (fun _ => 0.5)
           {| nextBrickId := 0; nextPickupId := 0; drawn := 0 |}
           README_PICKUP_WEIGHTS ball).
  - unfold nonNegative; cbn; lra.
  - rewrite totalWeight_sum; cbn; lra.
  - cbn; lra.
Defined.

(** ** The invariant of the bricks *)

Lemma forEach_Forall {A B : Type} (P : B -> Prop) (body : A -> M B) :
  (forall a s, P (fst (body a s))) ->
  forall l s, Forall P (fst (forEach body l s)).
Proof.
  intros Hbody l; induction l as [| a rest IH]; intros s; cbn [forEach].
  - constructor.
  - unfold bind, ret.
    pose proof (Hbody a s) as Ha.
    destruct (body a s) as [b s1]. pose proof (IH s1) as Hr.
    destruct (forEach body rest s1) as [bs' s2]. cbn [fst] in *.
    now constructor.
Qed.

Lemma spawnBrick_fresh (random : nat -> R) (baseHits row col : Z) (s : GridManager) :
  destroying (fst (spawnBrick random baseHits row col s)) = false
  /\ (1 <= hits (fst (spawnBrick random baseHits row col s)))%Z.
Proof.
  unfold spawnBrick, bind, MathRandom, createBrick; cbn [fst destroying hits].
  split; [reflexivity | apply Z.le_max_l].
Qed.

Lemma fresh_brickInvariant (b : Brick) :
  destroying b = false /\ (1 <= hits b)%Z -> brickInvariant b.
Proof.
  intros [Hd Hh]; unfold brickInvariant; rewrite Hd.
  repeat split; try lia; try discriminate.
Qed.

Lemma spawnNewRowWeighted_fresh (random : nat -> R) (weights : PickupTable)
    (lvl : Z) (s : GridManager) :
  Forall (fun b => destroying b = false /\ (1 <= hits b)%Z)
         (fst (fst (spawnNewRowWeighted random weights lvl s))).
Proof.
  unfold spawnNewRowWeighted, bind, ret.
  destruct (MathRandom random s) as [u s1].
  destruct (shuffleArray random columns s1) as [availableColumns s2].
  pose proof (forEach_Forall (fun b => destroying b = false /\ (1 <= hits b)%Z)
                (spawnBrick random lvl 0)
                (spawnBrick_fresh random lvl 0)
                (slice (numBricksOf u) availableColumns) s2) as H.
  destruct (forEach (spawnBrick random lvl 0) _ s2) as [newBricks s3].
  destruct (shuffleArray random _ s3) as [remainingColumns s4].
  destruct (forEach _ _ s4) as [newPickups s5].
  exact H.
Qed.

Lemma spawnNewRow_fresh (random : nat -> R) (ballCount lvl : Z) (s : GridManager) :
  Forall (fun b => destroying b = false /\ (1 <= hits b)%Z)
         (fst (fst (spawnNewRow random ballCount lvl s))).
Proof.
  unfold spawnNewRow, bind, ret.
  destruct (MathRandom random s) as [u s1].
  destruct (shuffleArray random columns s1) as [availableColumns s2].
  pose proof (forEach_Forall (fun b => destroying b = false /\ (1 <= hits b)%Z)
                (spawnBrick random (Z.max 1 ballCount) 2)
                (spawnBrick_fresh random (Z.max 1 ballCount) 2)
                (slice (numBricksOf u) availableColumns) s2) as H.
  destruct (forEach (spawnBrick random (Z.max 1 ballCount) 2) _ s2) as [newBricks s3].
  destruct (shuffleArray random _ s3) as [remainingColumns s4].
  destruct (spawnPickups _ _ s4) as [newPickups s5].
  exact H.
Qed.

Lemma hitBrick_invariant (brick : Brick) :
  brickInvariant brick -> destroying brick = false ->
  brickInvariant (hitBrick brick).
Proof.
  intros (H0 & H1 & H2) Hlive. specialize (H1 Hlive).
  unfold hitBrick, brickInvariant.
  destruct (hits brick - 1 <=? 0)%Z eqn:E;
    [apply Z.leb_le in E | apply Z.leb_gt in E]; cbn [hits destroying].
  - repeat split; try lia; try discriminate.
  - rewrite Hlive. repeat split; try lia; try discriminate.
Qed.

Section BrickInvariant.

Variable random : nat -> R.
Variable variant : ManagerVariant.
Variable weights : PickupTable.
Variable renderer : Renderer.t.

Lemma managerSpawn_fresh (lvl : Z) (s : GridManager) :
  Forall (fun b => destroying b = false /\ (1 <= hits b)%Z)
         (fst (fst (managerSpawn random variant weights lvl s))).
Proof.
  unfold managerSpawn; destruct variant.
  - apply spawnNewRowWeighted_fresh.
  - apply spawnNewRow_fresh.
Qed.

Lemma collideBricks_invariant (b : Ball) (bs : list Brick) :
  Forall brickInvariant bs ->
  Forall brickInvariant (snd (collideBricks renderer b bs)).
Proof.
  intros H; revert b; induction H as [| brick rest Hb _ IH]; intros b;
    cbn [collideBricks].
  - constructor.
  - destruct (destroying brick) eqn:Hd.
    + specialize (IH b). destruct (collideBricks renderer b rest) as [b' rest'].
      cbn [snd] in *. now constructor.
    + destruct (checkBrickCollision _ b _) as [b1 collision].
      specialize (IH b1). destruct (collideBricks renderer b1 rest) as [b2 rest'].
      cbn [snd] in *. constructor; [|exact IH].
      destruct (brickCollided collision); [now apply hitBrick_invariant | exact Hb].
Qed.

(** A brick that is being destroyed comes out of the loop as it went in. *)
Lemma collideBricks_skips_destroying (b : Ball) (bs : list Brick) :
  Forall2 (fun brick brick' => destroying brick = true -> brick' = brick)
          bs (snd (collideBricks renderer b bs)).
Proof.
  revert b; induction bs as [| brick rest IH]; intros b; cbn [collideBricks].
  - constructor.
  - destruct (destroying brick) eqn:Hd.
    + specialize (IH b). destruct (collideBricks renderer b rest) as [b' rest'].
      cbn [snd] in *. constructor; [reflexivity | exact IH].
    + destruct (checkBrickCollision _ b _) as [b1 collision].
      specialize (IH b1). destruct (collideBricks renderer b1 rest) as [b2 rest'].
      cbn [snd] in *. constructor; [intros Hd'; congruence | exact IH].
Qed.

Lemma stepBall_invariant (deltaTime : R) (b : Ball) (g : Game) :
  Forall brickInvariant (bricks g) ->
  Forall brickInvariant (bricks (snd (stepBall renderer deltaTime b g))).
Proof.
  intros H. unfold stepBall.
  destruct (negb (active b)); [exact H|].
  destruct (checkWallCollision _ _) as [b2 w].
  pose proof (collideBricks_invariant b2 (bricks g) H) as Hc.
  destruct (collideBricks renderer b2 (bricks g)) as [b3 bricks'].
  cbn [snd] in Hc.
  destruct (collectPickups _ _ _ _) as [pickups' count'].
  destruct (checkBottomCollision _ _); [|exact Hc].
  cbn [snd]. destruct (nextLaunchPosition _); exact Hc.
Qed.

Lemma stepBalls_invariant (deltaTime : R) (bs : list Ball) (g : Game) :
  Forall brickInvariant (bricks g) ->
  Forall brickInvariant (bricks (snd (stepBalls renderer deltaTime bs g))).
Proof.
  revert g; induction bs as [| b rest IH]; intros g H; cbn [stepBalls].
  - exact H.
  - pose proof (stepBall_invariant deltaTime b g H) as H1.
    destruct (stepBall renderer deltaTime b g) as [b' g1]. cbn [snd] in H1.
    specialize (IH g1 H1).
    destruct (stepBalls renderer deltaTime rest g1) as [rest' g2].
    exact IH.
Qed.

Lemma gameSpawnNewRow_invariant (g : Game) :
  Forall brickInvariant (bricks g) ->
  Forall brickInvariant (bricks (gameSpawnNewRow random variant weights g)).
Proof.
  intros H. unfold gameSpawnNewRow.
  pose proof (managerSpawn_fresh (level g) (gridManager g)) as Hs.
  destruct (managerSpawn random variant weights (level g) (gridManager g))
    as [[newBricks newPickups] gm].
  cbn [fst bricks set_pickups set_bricks set_gridManager] in *.
  apply Forall_app; split; [exact H|].
  eapply Forall_impl; [|exact Hs].
  intros a; apply fresh_brickInvariant.
Qed.

Lemma startGame_invariant (g : Game) :
  Forall brickInvariant (bricks (startGame random variant weights renderer g)).
Proof.
  unfold startGame; cbv zeta. cbn [bricks set_state].
  apply gameSpawnNewRow_invariant. constructor.
Qed.

Lemma moveBricksDown_invariant (bs : list Brick) :
  Forall brickInvariant bs -> Forall brickInvariant (moveBricksDown bs).
Proof.
  unfold moveBricksDown; intros H. apply Forall_map.
  eapply Forall_impl; [|exact H]. intros a Ha; exact Ha.
Qed.

Lemma filter_invariant (keep : Brick -> bool) (bs : list Brick) :
  Forall brickInvariant bs -> Forall brickInvariant (filter keep bs).
Proof.
  intros H. apply Forall_forall. intros a Ha. apply filter_In in Ha.
  rewrite Forall_forall in H. now apply H.
Qed.

Lemma handleGameOver_bricks (g : Game) : bricks (handleGameOver g) = bricks g.
Proof.
  unfold handleGameOver.
  destruct (easyMode _); destruct (_ >? _)%Z; reflexivity.
Qed.

Lemma endTurn_invariant (g : Game) :
  Forall brickInvariant (bricks g) ->
  Forall brickInvariant (bricks (endTurn random variant weights g)).
Proof.
  intros H. unfold endTurn; cbv zeta.
  set (g2 := match nextLaunchPosition (set_balls [] g) with
             | Some p => set_launchPosition p (set_balls [] g)
             | None => set_balls [] g
             end).
  assert (H2 : bricks g2 = bricks g) by (subst g2; destruct (nextLaunchPosition _); reflexivity).
  clearbody g2.
  match goal with
  | |- context [if checkGameOver ?bs then _ else _] =>
      assert (Hm : Forall brickInvariant bs)
  end.
  { cbn [bricks set_pickups set_bricks].
    apply moveBricksDown_invariant, filter_invariant. now rewrite H2. }
  destruct (checkGameOver _).
  - rewrite handleGameOver_bricks. exact Hm.
  - cbn [bricks set_state set_speedMultiplier set_trajectoryPoints set_aimDirection].
    apply gameSpawnNewRow_invariant. exact Hm.
Qed.

Lemma updateAnimating_invariant (currentTime deltaTime : R) (g : Game) :
  Forall brickInvariant (bricks g) ->
  Forall brickInvariant
    (bricks (updateAnimating random variant weights renderer currentTime deltaTime g)).
Proof.
  intros H. unfold updateAnimating; cbv zeta.
  match goal with
  | |- context [stepBalls renderer deltaTime (balls ?g0) ?g0] =>
      set (g1 := g0); assert (H1 : Forall brickInvariant (bricks g1))
  end.
  { subst g1. destruct (_ && _); [|exact H].
    destruct (nth_error _ _); exact H. }
  clearbody g1.
  pose proof (stepBalls_invariant deltaTime (balls g1) g1 H1) as H2.
  destruct (stepBalls renderer deltaTime (balls g1) g1) as [balls' g2].
  cbn [snd] in H2.
  destruct (_ && _); [apply endTurn_invariant|]; exact H2.
Qed.

Lemma update_invariant (currentTime deltaTime : R) (g : Game) :
  Forall brickInvariant (bricks g) ->
  Forall brickInvariant
    (bricks (update random variant weights renderer currentTime deltaTime g)).
Proof.
  intros H. unfold update; cbv zeta.
  unfold updateCollectedPickups, updateDestroyingBricks.
  cbn [bricks set_pickups set_bricks].
  apply Forall_map.
  assert (H1 : Forall brickInvariant
                 (bricks match state g with
                         | animating =>
                             updateAnimating random variant weights renderer
                               currentTime deltaTime g
                         | _ => g
                         end)).
  { destruct (state g); try exact H. now apply updateAnimating_invariant. }
  eapply Forall_impl; [|exact H1].
  intros a Ha. destruct (destroying a) eqn:Hd; [|exact Ha].
  unfold brickInvariant in *; cbn [hits destroying]. now rewrite Hd in *.
Qed.

End BrickInvariant.

Lemma pushBalls_bricks (count : nat) (dir : Vector2) (launchY speed : R) (g : Game) :
  bricks (pushBalls count dir launchY speed g) = bricks g.
Proof.
  revert g; induction count as [| count IH]; intros g; cbn [pushBalls];
    [reflexivity | now rewrite IH].
Qed.

Lemma launchBalls_bricks (renderer : Renderer.t) (g : Game) :
  bricks (launchBalls renderer g) = bricks g.
Proof.
  unfold launchBalls. destruct (aimDirection g); [|reflexivity].
  cbv zeta. cbn [bricks set_state]. now rewrite pushBalls_bricks.
Qed.

Lemma aimMoveStep_bricks (renderer : Renderer.t) (pos : Vector2) (launchY : R)
    (g : Game) :
  bricks (aimMoveStep renderer pos launchY g) = bricks g.
Proof.
  unfold aimMoveStep.
  destruct (_ && _); [reflexivity|]. cbv zeta.
  destruct (_ >? _); reflexivity.
Qed.

Lemma handleAimingInput_bricks (renderer : Renderer.t) (ty : InputEventType)
    (pos : Vector2) (g : Game) :
  bricks (handleAimingInput renderer ty pos g) = bricks g.
Proof.
  unfold handleAimingInput; cbv zeta.
  destruct ty; cbn [bricks set_isMovingLaunchPoint]; try reflexivity.
  - destruct (_ && _); reflexivity.
  - apply aimMoveStep_bricks.
  - destruct (_ && _); [apply launchBalls_bricks | reflexivity].
  - destruct (isPauseRequest pos); reflexivity.
Qed.

Lemma cycleSpeed_bricks (g : Game) : bricks (cycleSpeed g) = bricks g.
Proof. unfold cycleSpeed; destruct (speedMultiplier g); reflexivity. Qed.

Section ReachableBricks.

Variable random : nat -> R.
Variable variant : ManagerVariant.
Variable weights : PickupTable.
Variable renderer : Renderer.t.

Lemma handleInput_invariant (event : InputEvent) (g : Game) :
  Forall brickInvariant (bricks g) ->
  Forall brickInvariant (bricks (handleInput random variant weights renderer event g)).
Proof.
  intros H. unfold handleInput; cbv zeta.
  destruct (state g).
  - unfold handleMenuInput.
    destruct (eventType event); try exact H;
      (destruct (isPointInBounds _ _); [apply startGame_invariant|]);
      (destruct (isPointInBounds _ _); exact H).
  - now rewrite handleAimingInput_bricks.
  - exact H.
  - unfold handleAnimatingInput.
    destruct (eventType event); try exact H.
    destruct (isPointInBounds _ _); [now rewrite cycleSpeed_bricks|].
    destruct (isPauseRequest _); exact H.
  - unfold handlePausedInput.
    destruct (eventType event); try exact H;
      (destruct (isPointInBounds _ _); [exact H|]);
      (destruct (isPointInBounds _ _); [apply startGame_invariant|]);
      (destruct (isPointInBounds _ _); exact H).
  - unfold handleGameOverInput.
    destruct (eventType event); try exact H;
      (destruct (isPointInBounds _ _); [apply startGame_invariant | exact H]).
  - unfold handleSettingsInput.
    destruct (eventType event); try exact H;
      (destruct (isPointInBounds _ _); [exact H|]);
      (destruct (isPointInBounds _ _); exact H).
Qed.

Lemma step_invariant (a : GameAction) (g : Game) :
  Forall brickInvariant (bricks g) ->
  Forall brickInvariant (bricks (step random variant weights renderer a g)).
Proof.
  destruct a; cbn [step]; [apply handleInput_invariant | apply update_invariant].
Qed.

Lemma run_invariant (actions : list GameAction) (g : Game) :
  Forall brickInvariant (bricks g) ->
  Forall brickInvariant (bricks (run random variant weights renderer actions g)).
Proof.
  unfold run. revert g; induction actions as [| a rest IH]; intros g H;
    cbn [fold_left]; [exact H|].
  apply IH. now apply step_invariant.
Qed.

End ReachableBricks.

(** C6: in every state that the game reaches from its start, through any
    inputs and frames, for either manager and for every outcome of
    [Math.random], each brick of the list satisfies the invariant: its hits
    are never negative, they are at least 1 while it is not being destroyed,
    and it is being destroyed exactly when its hits are 0.  The bricks that
    a manager spawns are not being destroyed and have at least one hit, and
    the collision loop returns a brick that is being destroyed as it
    was. *)
Theorem brick_invariant_preserved
    (random : nat -> R) (variant : ManagerVariant) (weights : PickupTable)
    (renderer : Renderer.t) (gm : GridManager) (saved : GameSettings)
    (scores : HighScores) (actions : list GameAction) :
  Forall brickInvariant
    (bricks (run random variant weights renderer actions
               (newGame renderer gm saved scores)))
  /\ (forall (lvl : Z) (s : GridManager),
        Forall (fun b => destroying b = false /\ (1 <= hits b)%Z)
               (fst (fst (managerSpawn random variant weights lvl s))))
  /\ (forall (b : Ball) (bs : list Brick),
        Forall2 (fun brick brick' => destroying brick = true -> brick' = brick)
                bs (snd (collideBricks renderer b bs))).
Proof.
  split; [|split].
  - apply run_invariant. cbn [bricks newGame]. constructor.
  - apply managerSpawn_fresh.
  - apply collideBricks_skips_destroying.
Qed.

(** ** The overlay states of the game *)

Section Overlays.

Variable random : nat -> R.
Variable variant : ManagerVariant.
Variable weights : PickupTable.
Variable renderer : Renderer.t.
Hypothesis scale_positive : 0 < Renderer.scale renderer.

Let handle := handleInput random variant weights renderer.

Lemma isPauseRequest_escape : isPauseRequest (eventPosition escapeKey) = true.
Proof.
  unfold isPauseRequest, escapeKey; cbn [eventPosition x y].
  assert (E : (-1 =? -1) = true) by now apply Reqb_true.
  now rewrite E.
Qed.

Lemma play_from_menu (g : Game) :
  state g = menu ->
  handle (tapPlay renderer) g = startGame random variant weights renderer g.
Proof.
  intros Hs. subst handle. unfold handleInput; cbv zeta. rewrite Hs.
  unfold handleMenuInput, tapPlay, tapOn, isPointInBounds,
    Renderer.getMenuButtonBounds;
    cbn [eventType eventPosition x y btnX btnY btnWidth btnHeight
         Renderer.play Renderer.menuSettings].
  rcases; reflexivity.
Qed.

Lemma escape_while_aiming (g : Game) :
  state g = aiming ->
  handle escapeKey g
  = set_isMovingLaunchPoint false (set_state paused (set_previousState aiming g)).
Proof.
  intros Hs. subst handle. unfold handleInput; cbv zeta. rewrite Hs.
  unfold handleAimingInput; cbv zeta. cbn [eventType escapeKey].
  fold escapeKey. now rewrite isPauseRequest_escape.
Qed.

Lemma settings_from_pause (g : Game) :
  state g = paused ->
  handle (tapPauseSettings renderer) g
  = set_state settings (set_previousState paused g).
Proof.
  intros Hs. subst handle. unfold handleInput; cbv zeta. rewrite Hs.
  unfold handlePausedInput, tapPauseSettings, tapOn, isPointInBounds,
    Renderer.getPauseButtonBounds;
    cbn [eventType eventPosition x y btnX btnY btnWidth btnHeight
         Renderer.resume Renderer.restart Renderer.pauseSettings].
  rcases; reflexivity.
Qed.

Lemma back_from_settings (g : Game) :
  state g = settings ->
  handle (tapSettingsBack renderer) g = set_state (previousState g) g.
Proof.
  intros Hs. subst handle. unfold handleInput; cbv zeta. rewrite Hs.
  unfold handleSettingsInput, tapSettingsBack, tapOn, isPointInBounds,
    Renderer.getSettingsButtonBounds;
    cbn [eventType eventPosition x y btnX btnY btnWidth btnHeight
         Renderer.toggle Renderer.back].
  rcases; reflexivity.
Qed.

Lemma resume_from_pause (g : Game) :
  state g = paused ->
  handle (tapResume renderer) g = set_state (previousState g) g.
Proof.
  intros Hs. subst handle. unfold handleInput; cbv zeta. rewrite Hs.
  unfold handlePausedInput, tapResume, tapOn, isPointInBounds,
    Renderer.getPauseButtonBounds;
    cbn [eventType eventPosition x y btnX btnY btnWidth btnHeight
         Renderer.resume Renderer.restart Renderer.pauseSettings].
  rcases; reflexivity.
Qed.

End Overlays.

(** C7 fails on the code: the game keeps one [previousState].  From
    [aiming], Escape enters the pause screen; its Settings button enters the
    settings screen and overwrites the remembered state with [paused]; Back
    returns to the pause screen; Resume then sets the state to the
    remembered [paused], so the game stays on the pause screen instead of
    returning to [aiming]. *)
Theorem resume_after_settings_stays_paused
    (random : nat -> R) (variant : ManagerVariant) (weights : PickupTable)
    (renderer : Renderer.t) (g : Game) :
  0 < Renderer.scale renderer ->
  state g = aiming ->
  let handle := handleInput random variant weights renderer in
  let g1 := handle escapeKey g in
  let g2 := handle (tapPauseSettings renderer) g1 in
  let g3 := handle (tapSettingsBack renderer) g2 in
  let g4 := handle (tapResume renderer) g3 in
  state g1 = paused /\ previousState g1 = aiming
  /\ state g2 = settings
  /\ state g3 = paused
  /\ state g4 = paused /\ state g4 <> aiming.
Proof.
  intros Hscale Hs handle g1 g2 g3 g4.
  assert (E1 : g1 = set_isMovingLaunchPoint false
                      (set_state paused (set_previousState aiming g)))
    by (apply escape_while_aiming; assumption).
  assert (S1 : state g1 = paused) by now rewrite E1.
  assert (E2 : g2 = set_state settings (set_previousState paused g1))
    by (apply settings_from_pause; assumption).
  assert (S2 : state g2 = settings) by now rewrite E2.
  assert (E3 : g3 = set_state (previousState g2) g2)
    by (apply back_from_settings; assumption).
  assert (S3 : state g3 = paused) by now rewrite E3, E2.
  assert (E4 : g4 = set_state (previousState g3) g3)
    by (apply resume_from_pause; assumption).
  assert (S4 : state g4 = paused) by now rewrite E4, E3, E2.
  repeat split; try assumption.
  - now rewrite E1.
  - rewrite S4; discriminate.
Qed.

Lemma resume_after_settings_stays_paused_witness :
  let handle := handleInput (fun _ => 0) IntervalPickups PICKUP_WEIGHTS renderer350 in
  let g :=
    handle (tapPlay renderer350)
      (newGame renderer350 {| nextBrickId := 0; nextPickupId := 0; drawn := 0 |}
         {| easyMode := false; soundEnabled := true; vibrationEnabled := true |}
         {| normal_ := 0; easy := 0 |}) in
  state (handle (tapResume renderer350)
           (handle (tapSettingsBack renderer350)
              (handle (tapPauseSettings renderer350) (handle escapeKey g))))
  = paused.
Proof.
  intros handle g.
  apply (resume_after_settings_stays_paused (fun _ => 0) IntervalPickups
           PICKUP_WEIGHTS renderer350 g).
  - cbn; lra.
  - subst g handle. rewrite play_from_menu; [reflexivity | cbn; lra | reflexivity].
Defined.

(** * Further properties of the code *)

(** ** utils/Vector2.ts *)

Lemma magnitude_nonneg (v : Vector2) : 0 <= magnitude v.
Proof. apply sqrt_pos. Qed.

Lemma magnitude_sqr (v : Vector2) :
  magnitude v * magnitude v = x v * x v + y v * y v.
Proof. unfold magnitude; apply sqrt_sqrt; nra. Qed.

Lemma magnitude_zero_iff (v : Vector2) :
  magnitude v = 0 <-> x v = 0 /\ y v = 0.
Proof.
  split.
  - intros H. pose proof (magnitude_sqr v) as Hs. rewrite H in Hs. nra.
  - intros [Hx Hy]. unfold magnitude. rewrite Hx, Hy.
    replace (0 * 0 + 0 * 0) with 0 by ring. apply sqrt_0.
Qed.

Lemma magnitude_of_sqr (v : Vector2) (m : R) :
  0 <= m -> x v * x v + y v * y v = m * m -> magnitude v = m.
Proof.
  intros Hm H. unfold magnitude. rewrite H. now apply sqrt_square.
Qed.

(** [normalizeVector] returns a vector of length 1 with the direction of its
    argument, and the zero vector for a vector of length 0; scaling the
    result by the length of the argument gives the argument back. *)
Theorem normalizeVector_unit_or_zero (v : Vector2) :
  (magnitude v <> 0 -> magnitude (normalizeVector v) = 1)
  /\ (magnitude v = 0 -> normalizeVector v = {| x := 0; y := 0 |})
  /\ scaleVector (normalizeVector v) (magnitude v) = v.
Proof.
  pose proof (magnitude_nonneg v) as Hn.
  pose proof (magnitude_sqr v) as Hs.
  unfold normalizeVector; cbv zeta.
  destruct (magnitude v =? 0) eqn:E;
    [apply Reqb_true in E | apply Reqb_false in E].
  - split; [intros H; contradiction|]. split; [reflexivity|].
    apply magnitude_zero_iff in E as [Hx Hy].
    destruct v as [vx vy]; cbn in *; subst.
    unfold scaleVector; cbn. f_equal; ring.
  - split; [|split].
    + intros _. apply magnitude_of_sqr; [lra|]. cbn [x y].
      replace (x v / magnitude v * (x v / magnitude v)
               + y v / magnitude v * (y v / magnitude v))
        with ((x v * x v + y v * y v) / (magnitude v * magnitude v))
        by (field; exact E).
      rewrite <- Hs. field; exact E.
    + intros H; contradiction.
    + destruct v as [vx vy]; unfold scaleVector; cbn [x y] in *.
      f_equal; field; exact E.
Qed.

Lemma normalizeVector_unit_or_zero_witness :
  magnitude (normalizeVector {| x := 3; y := 4 |}) = 1.
Proof.
  apply (normalizeVector_unit_or_zero {| x := 3; y := 4 |}).
  rewrite magnitude_zero_iff; cbn; lra.
Defined.

(** Reflection about a unit normal keeps the length, negates the component
    along the normal, and undoes itself when applied twice. *)
Theorem reflectVector_unit_normal (v n : Vector2) :
  magnitude n = 1 ->
  magnitude (reflectVector v n) = magnitude v
  /\ dotProduct (reflectVector v n) n = - dotProduct v n
  /\ reflectVector (reflectVector v n) n = v.
Proof.
  intros Hn. pose proof (magnitude_sqr n) as Hs. rewrite Hn in Hs.
  assert (Hu : x n * x n + y n * y n = 1) by lra. clear Hs.
  set (d := dotProduct v n).
  assert (Hd : dotProduct (reflectVector v n) n = - d).
  { unfold reflectVector; fold d; unfold dotProduct at 1; cbn [x y].
    replace ((x v - 2 * d * x n) * x n + (y v - 2 * d * y n) * y n)
      with (dotProduct v n - 2 * d * (x n * x n + y n * y n))
      by (unfold dotProduct; ring).
    rewrite Hu; fold d; ring. }
  split; [|split; [exact Hd|]].
  - unfold magnitude at 1 2. f_equal.
    unfold reflectVector; fold d; cbn [x y].
    replace ((x v - 2 * d * x n) * (x v - 2 * d * x n)
             + (y v - 2 * d * y n) * (y v - 2 * d * y n))
      with (x v * x v + y v * y v - 4 * d * dotProduct v n
            + 4 * d * d * (x n * x n + y n * y n))
      by (unfold dotProduct; ring).
    rewrite Hu; fold d; ring.
  - unfold reflectVector at 1. rewrite Hd.
    destruct v as [vx vy]; unfold reflectVector; fold d; cbn [x y].
    f_equal; ring.
Qed.

Lemma reflectVector_unit_normal_witness :
  reflectVector (reflectVector {| x := 3; y := -4 |} {| x := 0; y := 1 |})
                {| x := 0; y := 1 |}
  = {| x := 3; y := -4 |}.
Proof.
  apply (reflectVector_unit_normal {| x := 3; y := -4 |} {| x := 0; y := 1 |}).
  apply magnitude_of_sqr; cbn; lra.
Defined.

(** Rotations keep the length, compose by adding their angles, and the
    rotation by the opposite angle is the inverse. *)
Theorem rotateVector_is_isometry (v : Vector2) (a b : R) :
  magnitude (rotateVector v a) = magnitude v
  /\ rotateVector (rotateVector v a) b = rotateVector v (a + b)
  /\ rotateVector (rotateVector v a) (- a) = v.
Proof.
  pose proof (sin2_cos2 a) as Ha. unfold Rsqr in Ha.
  assert (Hcomp : forall c, rotateVector (rotateVector v a) c = rotateVector v (a + c)).
  { intros c. unfold rotateVector; cbn [x y]. rewrite cos_plus, sin_plus.
    f_equal; ring. }
  split; [|split].
  - unfold magnitude. f_equal. unfold rotateVector; cbn [x y]. nra.
  - apply Hcomp.
  - rewrite Hcomp. replace (a + - a) with 0 by ring.
    unfold rotateVector. rewrite cos_0, sin_0.
    destruct v as [vx vy]; cbn [x y]. f_equal; ring.
Qed.

(** [Vec.distance] is symmetric, is the length of the difference, and is 0
    exactly between equal points. *)
Theorem distance_metric_facts (a b : Vector2) :
  Vec.distance a b = Vec.distance b a
  /\ Vec.distance a b = magnitude (subtractVectors b a)
  /\ 0 <= Vec.distance a b
  /\ (Vec.distance a b = 0 <-> a = b).
Proof.
  assert (Hm : Vec.distance a b = magnitude (subtractVectors b a)) by reflexivity.
  split; [|split; [exact Hm | split]].
  - unfold Vec.distance; cbv zeta. f_equal; ring.
  - rewrite Hm; apply magnitude_nonneg.
  - rewrite Hm, magnitude_zero_iff. unfold subtractVectors; cbn [x y].
    destruct a as [ax ay], b as [bx b_y]; cbn [x y]. split.
    + intros [Hx Hy]. f_equal; lra.
    + intros E; injection E as Ex Ey; lra.
Qed.

Lemma sqrt_sqr_only (d : R) : sqrt (0 ^ 2 + d ^ 2) = Rabs d.
Proof.
  replace (0 ^ 2 + d ^ 2) with (d²) by (unfold Rsqr; ring). apply sqrt_Rsqr_abs.
Qed.

Lemma trig_atan2 (dy dx : R) :
  dx <> 0 \/ dy <> 0 ->
  cos (atan2 dy dx) = dx / sqrt (dx ^ 2 + dy ^ 2)
  /\ sin (atan2 dy dx) = dy / sqrt (dx ^ 2 + dy ^ 2).
Proof.
  intros H.
  destruct (Req_dec_T dx 0) as [E | E].
  - subst dx. assert (Hy : dy <> 0) by (destruct H; [contradiction | assumption]).
    rewrite sqrt_sqr_only. unfold atan2.
    assert (E0 : (0 >? 0) = false) by (apply Rgtb_false; lra).
    assert (E1 : (0 <? 0) = false) by (apply Rltb_false; lra).
    rewrite E0, E1.
    destruct (dy >? 0) eqn:Ep; [apply Rgtb_true in Ep | apply Rgtb_false in Ep].
    + rewrite cos_PI2, sin_PI2, Rabs_right by lra. split; field; lra.
    + assert (En : (dy <? 0) = true) by (apply Rltb_true; lra).
      rewrite En, cos_neg, sin_neg, cos_PI2, sin_PI2, Rabs_left by lra.
      split; field; lra.
  - split; [now apply cos_atan2 | now apply sin_atan2].
Qed.

(** The direction of the angle of a vector that is not zero is the
    normalized vector. *)
Theorem directionFromAngle_of_angleFromDirection (v : Vector2) :
  magnitude v <> 0 ->
  directionFromAngle (angleFromDirection v) = normalizeVector v.
Proof.
  intros Hm.
  assert (Hv : x v <> 0 \/ y v <> 0).
  { destruct (Req_dec_T (x v) 0) as [Ex | Ex]; [|now left].
    right; intros Ey. apply Hm, magnitude_zero_iff; now split. }
  destruct (trig_atan2 (y v) (x v) Hv) as [Hc Hs].
  unfold directionFromAngle, angleFromDirection, normalizeVector; cbv zeta.
  apply Reqb_false in Hm. rewrite Hm, Hc, Hs.
  unfold magnitude.
  replace (x v ^ 2 + y v ^ 2) with (x v * x v + y v * y v) by ring.
  reflexivity.
Qed.

Lemma directionFromAngle_of_angleFromDirection_witness :
  directionFromAngle (angleFromDirection {| x := 0; y := -2 |})
  = normalizeVector {| x := 0; y := -2 |}.
Proof.
  apply (directionFromAngle_of_angleFromDirection {| x := 0; y := -2 |}).
  rewrite magnitude_zero_iff; cbn; lra.
Defined.

Lemma atan_of_tan_ratio (a : R) :
  - (PI / 2) < a < PI / 2 -> atan (sin a / cos a) = a.
Proof. intros Ha. apply atan_tan; lra. Qed.

(** The angle of the direction of an angle in the range of [Math.atan2],
    above -PI and at most PI, is that angle. *)
Theorem angleFromDirection_of_directionFromAngle (a : R) :
  - PI < a <= PI ->
  angleFromDirection (directionFromAngle a) = a.
Proof.
  intros [Hlo Hhi]. pose proof PI_RGT_0 as Hpi.
  unfold angleFromDirection, directionFromAngle, atan2; cbn [x y].
  destruct (Rlt_dec a (- (PI / 2))) as [H1 | H1].
  - (* third quadrant: cos < 0, sin < 0 *)
    assert (Hc : cos a < 0).
    { rewrite <- (Ropp_involutive a), cos_neg.
      apply cos_lt_0; lra. }
    assert (Hs : sin a < 0).
    { rewrite <- (Ropp_involutive a), sin_neg.
      assert (0 < sin (- a)) by (apply sin_gt_0; lra). lra. }
    assert (E0 : (cos a >? 0) = false) by (apply Rgtb_false; lra).
    assert (E1 : (cos a <? 0) = true) by (apply Rltb_true; lra).
    assert (E2 : (sin a >=? 0) = false) by (apply Rgeb_false; lra).
    rewrite E0, E1, E2.
    replace (sin a / cos a) with (sin (a + PI) / cos (a + PI))
      by (rewrite neg_sin, neg_cos; field; lra).
    rewrite atan_of_tan_ratio by lra. ring.
  - destruct (Req_dec_T a (- (PI / 2))) as [H2 | H2].
    + subst a. rewrite cos_neg, sin_neg, cos_PI2, sin_PI2.
      assert (E0 : (0 >? 0) = false) by (apply Rgtb_false; lra).
      assert (E1 : (0 <? 0) = false) by (apply Rltb_false; lra).
      assert (E2 : (-1 >? 0) = false) by (apply Rgtb_false; lra).
      assert (E3 : (-1 <? 0) = true) by (apply Rltb_true; lra).
      rewrite E0, E1. replace (- (1)) with (-1) by ring. now rewrite E2, E3.
    + destruct (Rlt_dec a (PI / 2)) as [H3 | H3].
      * (* right half plane: cos > 0 *)
        assert (Hc : 0 < cos a) by (apply cos_gt_0; lra).
        assert (E0 : (cos a >? 0) = true) by (apply Rgtb_true; lra).
        rewrite E0. apply atan_of_tan_ratio; lra.
      * destruct (Req_dec_T a (PI / 2)) as [H4 | H4].
        -- subst a. rewrite cos_PI2, sin_PI2.
           assert (E0 : (0 >? 0) = false) by (apply Rgtb_false; lra).
           assert (E1 : (0 <? 0) = false) by (apply Rltb_false; lra).
           assert (E2 : (1 >? 0) = true) by (apply Rgtb_true; lra).
           now rewrite E0, E1, E2.
        -- (* second quadrant: cos < 0, sin >= 0 *)
           assert (Hc : cos a < 0) by (apply cos_lt_0; lra).
           assert (Hs : 0 <= sin a) by (apply sin_ge_0; lra).
           assert (E0 : (cos a >? 0) = false) by (apply Rgtb_false; lra).
           assert (E1 : (cos a <? 0) = true) by (apply Rltb_true; lra).
           assert (E2 : (sin a >=? 0) = true) by (apply Rgeb_true; lra).
           rewrite E0, E1, E2.
           replace (sin a / cos a) with (sin (- (- a + PI)) / cos (- (- a + PI))).
           ++ rewrite atan_of_tan_ratio by lra. ring.
           ++ rewrite sin_neg, cos_neg, neg_sin, neg_cos, sin_neg, cos_neg.
              field; lra.
Qed.

Lemma angleFromDirection_of_directionFromAngle_witness :
  angleFromDirection (directionFromAngle (PI / 2)) = PI / 2.
Proof.
  apply (angleFromDirection_of_directionFromAngle (PI / 2)).
  pose proof PI_RGT_0; lra.
Defined.

(** ** Physics.checkWallCollision, for every ball *)

Lemma Rabs_flip (a : R) : Rabs a = a \/ Rabs a = - a.
Proof. unfold Rabs; destruct (Rcase_abs a); auto. Qed.

Lemma Rabs_opp_flip (a : R) : - Rabs a = a \/ - Rabs a = - a.
Proof. unfold Rabs; destruct (Rcase_abs a); [left; ring | right; ring]. Qed.

(** Whatever the ball does, [checkWallCollision] keeps its id, its active
    flag and its speed; a ball that overlaps no wall is returned unchanged;
    and after a reported hit the velocity does not point into the reported
    wall. *)
Theorem checkWallCollision_conserves (ph : Physics) (b : Ball) :
  let b' := fst (checkWallCollision ph b) in
  let res := snd (checkWallCollision ph b) in
  id b' = id b /\ active b' = active b
  /\ magnitude (velocity b') = magnitude (velocity b)
  /\ (wallCollided res = false <-> side res = None)
  /\ (wallCollided res = false -> b' = b)
  /\ (side res = Some WallLeft -> 0 <= x (velocity b'))
  /\ (side res = Some WallRight -> x (velocity b') <= 0)
  /\ (side res = Some WallTop -> 0 <= y (velocity b')).
Proof.
  unfold checkWallCollision; cbv zeta.
  repeat match goal with
         | |- context [if ?c then _ else _] => destruct c
         end;
    cbn [fst snd id active velocity position wallCollided side x y
         setPositionX setPositionY setVelocityX setVelocityY].
  all: pose proof (Rabs_pos (x (velocity b))) as Hax.
  all: pose proof (Rabs_pos (y (velocity b))) as Hay.
  all: repeat match goal with
              | |- _ /\ _ => split
              | |- _ <-> _ => split
              end.
  all: try reflexivity.
  all: try (intros H; first [discriminate | reflexivity | lra]).
  all: apply magnitude_flip; cbn [x y]; try (left; reflexivity).
  all: first [ apply Rabs_flip | apply Rabs_opp_flip ].
Qed.

Lemma checkWallCollision_fixed (ph : Physics) (b : Ball) :
  (x (position b) - ballRadius ph <= 0 ->
     x (position b) = ballRadius ph /\ 0 <= x (velocity b)) ->
  (x (position b) - ballRadius ph > 0 ->
   x (position b) + ballRadius ph >= gameWidth ph ->
     x (position b) = gameWidth ph - ballRadius ph /\ x (velocity b) <= 0) ->
  (x (position b) - ballRadius ph > 0 ->
   x (position b) + ballRadius ph < gameWidth ph ->
   y (position b) - ballRadius ph <= 0 ->
     y (position b) = ballRadius ph /\ 0 <= y (velocity b)) ->
  fst (checkWallCollision ph b) = b.
Proof.
  destruct b as [i [px py] [vx vy] a]; cbn [position velocity x y].
  intros HL HR HT. unfold checkWallCollision; cbv zeta;
    cbn [position velocity x y].
  destruct (px - ballRadius ph <=? 0) eqn:E1;
    [apply Rleb_true in E1 | apply Rleb_false in E1].
  - destruct (HL E1) as [Hx Hv].
    cbn [fst setPositionX setVelocityX position velocity x y id active].
    rewrite Rabs_right by lra. now rewrite <- Hx.
  - destruct (px + ballRadius ph >=? gameWidth ph) eqn:E2;
      [apply Rgeb_true in E2 | apply Rgeb_false in E2].
    + destruct (HR ltac:(lra) E2) as [Hx Hv].
      cbn [fst setPositionX setVelocityX position velocity x y id active].
      rewrite Rabs_left1 by lra. rewrite Ropp_involutive. now rewrite <- Hx.
    + destruct (py - ballRadius ph <=? 0) eqn:E3;
        [apply Rleb_true in E3 | apply Rleb_false in E3]; [|reflexivity].
      destruct (HT ltac:(lra) E2 E3) as [Hy Hv].
      cbn [fst setPositionY setVelocityY position velocity x y id active].
      rewrite Rabs_right by lra. now rewrite <- Hy.
Qed.

(** In a field wider than two ball radii, [checkWallCollision] leaves the
    centre between the left and the right boundary, and calling it again on
    the result changes nothing more. *)
Theorem checkWallCollision_confines (ph : Physics) (b : Ball) :
  2 * ballRadius ph < gameWidth ph ->
  let b' := fst (checkWallCollision ph b) in
  ballRadius ph <= x (position b') <= gameWidth ph - ballRadius ph
  /\ fst (checkWallCollision ph b') = b'.
Proof.
  intros HW b'.
  pose proof (Rabs_pos (x (velocity b))) as Hax.
  pose proof (Rabs_pos (y (velocity b))) as Hay.
  assert (H : ballRadius ph <= x (position b') <= gameWidth ph - ballRadius ph
              /\ (x (position b') - ballRadius ph <= 0 -> 0 <= x (velocity b'))
              /\ (x (position b') + ballRadius ph >= gameWidth ph ->
                    x (velocity b') <= 0)
              /\ (y (position b') - ballRadius ph <= 0 ->
                    y (position b') = ballRadius ph /\ 0 <= y (velocity b')
                    \/ x (position b') = ballRadius ph
                    \/ x (position b') = gameWidth ph - ballRadius ph)).
  { subst b'. unfold checkWallCollision; cbv zeta.
    destruct (x (position b) - ballRadius ph <=? 0) eqn:E1;
      [apply Rleb_true in E1 | apply Rleb_false in E1];
      [| destruct (x (position b) + ballRadius ph >=? gameWidth ph) eqn:E2;
         [apply Rgeb_true in E2 | apply Rgeb_false in E2];
         [| destruct (y (position b) - ballRadius ph <=? 0) eqn:E3;
            [apply Rleb_true in E3 | apply Rleb_false in E3]]];
      cbn [fst setPositionX setPositionY setVelocityX setVelocityY
           position velocity x y];
      repeat split; intros; try lra; auto; try (left; split; lra). }
  destruct H as (Hx & HvL & HvR & Hy).
  split; [exact Hx|].
  apply checkWallCollision_fixed.
  - intros Ho. split; [lra | now apply HvL].
  - intros Ho Hr. split; [lra | now apply HvR].
  - intros Ho Hr Ht. destruct (Hy Ht) as [Hok | [Hl | Hrr]]; [exact Hok | lra | lra].
Qed.

Lemma checkWallCollision_confines_witness :
  let ph := {| gameWidth := 400; _gameHeight := 600; ballRadius := 8;
               launchZoneTop := 540 |} in
  let b := {| id := 0; position := {| x := 398; y := 100 |};
              velocity := {| x := 3; y := -4 |}; active := true |} in
  8 <= x (position (fst (checkWallCollision ph b))) <= 400 - 8.
Proof.
  intros ph b.
  apply (checkWallCollision_confines ph b). cbn; lra.
Defined.

(** ** Physics.checkBrickCollision, for every ball *)

(** [checkBrickCollision] keeps the id, the active flag and the speed of
    the ball; without a collision the ball is unchanged; a face hit leaves
    the velocity pointing away from that face, and a corner hit negates the
    velocity. *)
Theorem checkBrickCollision_conserves
    (ph : Physics) (b : Ball) (bounds : BrickBounds) :
  let b' := fst (checkBrickCollision ph b bounds) in
  let res := snd (checkBrickCollision ph b bounds) in
  id b' = id b /\ active b' = active b
  /\ magnitude (velocity b') = magnitude (velocity b)
  /\ (brickCollided res = false <-> face res = None)
  /\ (brickCollided res = false -> b' = b)
  /\ (face res = Some FaceLeft -> x (velocity b') <= 0)
  /\ (face res = Some FaceRight -> 0 <= x (velocity b'))
  /\ (face res = Some FaceTop -> y (velocity b') <= 0)
  /\ (face res = Some FaceBottom -> 0 <= y (velocity b'))
  /\ (face res = Some FaceCorner ->
        velocity b' = {| x := - x (velocity b); y := - y (velocity b) |}).
Proof.
  cbv zeta.
  pose proof (Rabs_pos (x (velocity b))) as Hax.
  pose proof (Rabs_pos (y (velocity b))) as Hay.
  destruct (checkBrickCollision_cases ph b bounds)
    as [E | [(_ & _ & E) | (f & bf & Hf & E)]]; rewrite E;
    cbn [fst snd brickCollided face].
  - repeat match goal with
           | |- _ /\ _ => split
           | |- _ <-> _ => split
           end; try reflexivity; intros H; discriminate.
  - unfold cornerPushed; cbn [id active velocity].
    repeat match goal with
           | |- _ /\ _ => split
           | |- _ <-> _ => split
           end; try reflexivity; try (intros H; discriminate).
    apply magnitude_flip; cbn [x y]; right; reflexivity.
  - destruct f; cbn [faceResolved] in Hf; try discriminate;
      injection Hf as Hf; subst bf;
      cbn [id active velocity position x y
           setPositionX setPositionY setVelocityX setVelocityY];
      repeat match goal with
             | |- _ /\ _ => split
             | |- _ <-> _ => split
             end; try reflexivity; try (intros H; first [discriminate | lra]);
      apply magnitude_flip; cbn [x y]; try (left; reflexivity);
      first [ apply Rabs_flip | apply Rabs_opp_flip ].
Qed.

Lemma checkBrickCollision_collides_iff
    (ph : Physics) (b : Ball) (bounds : BrickBounds) :
  brickCollided (snd (checkBrickCollision ph b bounds)) = true
  <-> insideExpanded ph bounds (position b)
      /\ (~ inCornerRegion bounds (position b)
          \/ distTo (position b) (cornerOf bounds (position b)) <= ballRadius ph).
Proof.
  assert (Ho : outsideExpanded ph bounds (position b)
               \/ insideExpanded ph bounds (position b))
    by (unfold outsideExpanded, insideExpanded; lra).
  destruct Ho as [Ho | Hi].
  { rewrite checkBrickCollision_outside by exact Ho; cbn.
    split; [discriminate|]. intros [Hi _]. exfalso.
    unfold outsideExpanded, insideExpanded in *; lra. }
  assert (Hc : inCornerRegion bounds (position b)
               \/ ~ inCornerRegion bounds (position b))
    by (unfold inCornerRegion; lra).
  destruct Hc as [Hc | Hc].
  - destruct (Rle_dec (distTo (position b) (cornerOf bounds (position b)))
                      (ballRadius ph)) as [Hd | Hd].
    + rewrite checkBrickCollision_corner_hit by assumption; cbn.
      split; [intros _; split; [exact Hi | now right] | reflexivity].
    + rewrite checkBrickCollision_corner_miss by (assumption || lra); cbn.
      split; [discriminate|]. intros [_ [Hn | Hd']]; contradiction.
  - destruct (checkBrickCollision_face ph b bounds Hi Hc) as (f & b' & _ & E).
    rewrite E; cbn. split; [intros _; split; [exact Hi | now left] | reflexivity].
Qed.

Lemma component_le_distTo (p q : Vector2) :
  Rabs (x p - x q) <= distTo p q /\ Rabs (y p - y q) <= distTo p q.
Proof.
  unfold distTo.
  pose proof (pow2_ge_0 (x p - x q)) as Hx.
  pose proof (pow2_ge_0 (y p - y q)) as Hy.
  split; rewrite <- sqrt_Rsqr_abs; apply sqrt_le_1_alt; unfold Rsqr.
  - replace ((x p - x q) * (x p - x q)) with ((x p - x q) ^ 2) by ring. lra.
  - replace ((y p - y q) * (y p - y q)) with ((y p - y q) ^ 2) by ring. lra.
Qed.

Lemma distTo_same_x (p q : Vector2) :
  x p = x q -> distTo p q = Rabs (y p - y q).
Proof.
  intros E. unfold distTo. rewrite E.
  replace ((x q - x q) ^ 2 + (y p - y q) ^ 2) with ((y p - y q)²)
    by (unfold Rsqr; ring).
  apply sqrt_Rsqr_abs.
Qed.

Lemma distTo_same_y (p q : Vector2) :
  y p = y q -> distTo p q = Rabs (x p - x q).
Proof.
  intros E. unfold distTo. rewrite E.
  replace ((x p - x q) ^ 2 + (y q - y q) ^ 2) with ((x p - x q)²)
    by (unfold Rsqr; ring).
  apply sqrt_Rsqr_abs.
Qed.

(** For a well-formed brick and a non-negative radius, [checkBrickCollision]
    reports a collision exactly when the disc of the ball meets the brick
    rectangle: some point of the rectangle is within the radius of the
    centre. *)
Theorem checkBrickCollision_exact_disc_test
    (ph : Physics) (b : Ball) (bounds : BrickBounds) :
  0 <= ballRadius ph ->
  left bounds <= right bounds -> top bounds <= bottom bounds ->
  (brickCollided (snd (checkBrickCollision ph b bounds)) = true
   <-> exists q, inRect bounds q /\ distTo (position b) q <= ballRadius ph).
Proof.
  intros Hr Hlr Htb. rewrite checkBrickCollision_collides_iff.
  set (p := position b). split.
  - intros [[Hix Hiy] Hcase].
    assert (Hc : inCornerRegion bounds p \/ ~ inCornerRegion bounds p)
      by (unfold inCornerRegion; lra).
    destruct Hc as [Hc | Hc].
    + destruct Hcase as [Hn | Hd]; [contradiction|].
      exists (cornerOf bounds p). split; [|exact Hd].
      unfold inRect, cornerOf; cbn [x y].
      destruct (x p <? left bounds); destruct (y p <? top bounds); lra.
    + unfold inCornerRegion in Hc.
      assert (Hin : left bounds <= x p <= right bounds
                    \/ top bounds <= y p <= bottom bounds) by lra.
      destruct Hin as [Hin | Hin].
      * exists {| x := x p; y := Rmax (top bounds) (Rmin (bottom bounds) (y p)) |}.
        split.
        -- unfold inRect; cbn [x y]. split; [exact Hin|].
           unfold Rmin; destruct (Rle_dec _ _);
             unfold Rmax; destruct (Rle_dec _ _); lra.
        -- rewrite distTo_same_x by reflexivity. cbn [y].
           unfold Rmin; destruct (Rle_dec _ _);
             unfold Rmax; destruct (Rle_dec _ _);
             unfold Rabs; destruct (Rcase_abs _); lra.
      * exists {| x := Rmax (left bounds) (Rmin (right bounds) (x p)); y := y p |}.
        split.
        -- unfold inRect; cbn [x y]. split; [|exact Hin].
           unfold Rmin; destruct (Rle_dec _ _);
             unfold Rmax; destruct (Rle_dec _ _); lra.
        -- rewrite distTo_same_y by reflexivity. cbn [x].
           unfold Rmin; destruct (Rle_dec _ _);
             unfold Rmax; destruct (Rle_dec _ _);
             unfold Rabs; destruct (Rcase_abs _); lra.
  - intros (q & [Hqx Hqy] & Hd).
    destruct (component_le_distTo p q) as [Hcx Hcy].
    assert (Hax : Rabs (x p - x q) <= ballRadius ph) by lra.
    assert (Hay : Rabs (y p - y q) <= ballRadius ph) by lra.
    assert (Hbx : - ballRadius ph <= x p - x q <= ballRadius ph)
      by (revert Hax; unfold Rabs; destruct (Rcase_abs _); lra).
    assert (Hby : - ballRadius ph <= y p - y q <= ballRadius ph)
      by (revert Hay; unfold Rabs; destruct (Rcase_abs _); lra).
    split; [unfold insideExpanded; lra|].
    assert (Hc : inCornerRegion bounds p \/ ~ inCornerRegion bounds p)
      by (unfold inCornerRegion; lra).
    destruct Hc as [Hc | Hc]; [right | now left].
    apply Rle_trans with (distTo p q); [|exact Hd].
    unfold distTo. apply sqrt_le_1_alt.
    destruct Hc as [Hcx' Hcy'].
    unfold cornerOf; cbn [x y].
    destruct (x p <? left bounds) eqn:Ex;
      [apply Rltb_true in Ex | apply Rltb_false in Ex];
    destruct (y p <? top bounds) eqn:Ey;
      [apply Rltb_true in Ey | apply Rltb_false in Ey
      | apply Rltb_true in Ey | apply Rltb_false in Ey]; nra.
Qed.

Lemma checkBrickCollision_exact_disc_test_witness :
  let ph := {| gameWidth := 400; _gameHeight := 600; ballRadius := 8;
               launchZoneTop := 540 |} in
  let b := {| id := 0; position := {| x := 150; y := 95 |};
              velocity := {| x := 300; y := 300 |}; active := true |} in
  let bounds := {| left := 100; right := 200; top := 100; bottom := 200 |} in
  brickCollided (snd (checkBrickCollision ph b bounds)) = true
  <-> exists q, inRect bounds q /\ distTo (position b) q <= ballRadius ph.
Proof.
  intros ph b bounds.
  apply (checkBrickCollision_exact_disc_test ph b bounds); cbn; lra.
Defined.

(** ** Physics.raycastWall *)

Lemma hypot_pos_any (dx dy : R) :
  dx <> 0 \/ dy <> 0 -> 0 < sqrt (dx ^ 2 + dy ^ 2).
Proof. intros H. apply sqrt_lt_R0. destruct H; nra. Qed.

Lemma wallCandidate_ok (ph : Physics) (origin direction : Vector2)
    (t : R) (pt n : Vector2) :
  0 < t -> (x direction <> 0 \/ y direction <> 0) ->
  pt = {| x := x origin + x direction * t; y := y origin + y direction * t |} ->
  onWall ph direction
    {| point := pt; normal := n;
       distance := t * sqrt (x direction ^ 2 + y direction ^ 2) |} ->
  exists t', 0 < t'
    /\ onRay origin direction t'
         {| point := pt; normal := n;
            distance := t * sqrt (x direction ^ 2 + y direction ^ 2) |}
    /\ 0 < distance {| point := pt; normal := n;
                       distance := t * sqrt (x direction ^ 2 + y direction ^ 2) |}
    /\ onWall ph direction
         {| point := pt; normal := n;
            distance := t * sqrt (x direction ^ 2 + y direction ^ 2) |}.
Proof.
  intros Ht Hd Hp Hw. exists t. split; [exact Ht|].
  split; [split; [exact Hp | reflexivity]|]. split; [|exact Hw].
  cbn [distance]. apply Rmult_lt_0_compat; [exact Ht | now apply hypot_pos_any].
Qed.

Lemma raycastWall_hit_spec (ph : Physics) (origin direction : Vector2) (h : RayHit) :
  raycastWall ph origin direction = Some h ->
  exists t, 0 < t /\ onRay origin direction t h /\ 0 < distance h
            /\ onWall ph direction h.
Proof.
  unfold raycastWall; cbv zeta.
  set (hits3 := if y direction <? 0 then _ else _).
  assert (Hall : Forall (fun c => exists t, 0 < t /\ onRay origin direction t c
                                   /\ 0 < distance c /\ onWall ph direction c)
                        hits3).
  { subst hits3. rcases; cbn [app];
      repeat (constructor;
              [ apply wallCandidate_ok; try lra;
                [ f_equal; field; lra
                | unfold onWall; cbn [point normal x y];
                  first [ left; repeat split; lra
                        | right; left; repeat split; lra
                        | right; right; repeat split; lra ] ] |]);
      constructor. }
  clearbody hits3.
  destruct hits3 as [| first rest]; [discriminate|].
  intros H; injection H as H; subst h.
  rewrite Forall_forall in Hall. apply Hall, closestOf_In.
Qed.

Lemma raycastWall_idle (ph : Physics) (origin direction : Vector2) :
  x direction = 0 -> 0 <= y direction ->
  raycastWall ph origin direction = None.
Proof.
  intros Hx Hy. unfold raycastWall; cbv zeta.
  assert (E1 : (x direction <? 0) = false) by (apply Rltb_false; lra).
  assert (E2 : (x direction >? 0) = false) by (apply Rgtb_false; lra).
  assert (E3 : (y direction <? 0) = false) by (apply Rltb_false; lra).
  now rewrite E1, E2, E3.
Qed.

(** A hit of [raycastWall] lies ahead on the ray, at a positive distance, on
    the left, right or top boundary within the range of the field, with the
    inward normal of that boundary; the bottom is never hit, and a ray that
    runs neither sideways nor upwards hits nothing. *)
Theorem raycastWall_sound (ph : Physics) (origin direction : Vector2) :
  (forall h, raycastWall ph origin direction = Some h ->
     exists t, 0 < t /\ onRay origin direction t h /\ 0 < distance h
               /\ onWall ph direction h)
  /\ (x direction = 0 -> 0 <= y direction ->
        raycastWall ph origin direction = None).
Proof.
  split; [intros h; apply raycastWall_hit_spec | apply raycastWall_idle].
Qed.

(** ** Physics.raycastBrick *)

Lemma slab_forward (lo hi o d : R) :
  0 < d -> lo <= hi ->
  Rmin ((lo - o) / d) ((hi - o) / d) = (lo - o) / d
  /\ Rmax ((lo - o) / d) ((hi - o) / d) = (hi - o) / d.
Proof.
  intros Hd Hl.
  assert (H : (lo - o) / d <= (hi - o) / d).
  { unfold Rdiv. apply Rmult_le_compat_r; [|lra].
    apply Rlt_le, Rinv_0_lt_compat, Hd. }
  split; [now apply Rmin_left | now apply Rmax_right].
Qed.

Lemma slab_backward (lo hi o d : R) :
  d < 0 -> lo <= hi ->
  Rmin ((lo - o) / d) ((hi - o) / d) = (hi - o) / d
  /\ Rmax ((lo - o) / d) ((hi - o) / d) = (lo - o) / d.
Proof.
  intros Hd Hl.
  assert (H : (hi - o) / d <= (lo - o) / d).
  { pose proof (Rinv_lt_0_compat d Hd). unfold Rdiv. nra. }
  split; [now apply Rmin_right | now apply Rmax_left].
Qed.

Ltac name_parameters H :=
  repeat match type of H with
         | context [(?a - ?o) / ?d] =>
             let t := fresh "t" in
             let Ht := fresh "Ht" in
             set (t := (a - o) / d) in H;
             assert (Ht : d * t = a - o) by (unfold t; field; lra);
             clearbody t
         end.

Lemma raycastBrick_hit_spec
    (ph : Physics) (origin direction : Vector2) (bounds : BrickBounds) (h : RayHit) :
  left bounds - ballRadius ph <= right bounds + ballRadius ph ->
  top bounds - ballRadius ph <= bottom bounds + ballRadius ph ->
  raycastBrick ph origin direction bounds = Some h ->
  exists t, 0 <= t /\ onRay origin direction t h
    /\ insideExpanded ph bounds (point h)
    /\ ((t = 0 /\ normal h = zeroVector /\ insideExpanded ph bounds origin)
        \/ (0 < t /\ onFace ph bounds direction h)).
Proof.
  intros Hwx Hwy H.
  unfold raycastBrick in H; cbv zeta in H; cbn [left right top bottom] in H.
  destruct (Rtotal_order (x direction) 0) as [Hdx | [Hdx | Hdx]];
  destruct (Rtotal_order (y direction) 0) as [Hdy | [Hdy | Hdy]].
  all: try (assert (Ex : (x direction =? 0) = true) by (apply Reqb_true; lra);
            rewrite Ex in H).
  all: try (assert (Ex : (x direction =? 0) = false) by (apply Reqb_false; lra);
            rewrite Ex in H).
  all: try (assert (Ey : (y direction =? 0) = true) by (apply Reqb_true; lra);
            rewrite Ey in H).
  all: try (assert (Ey : (y direction =? 0) = false) by (apply Reqb_false; lra);
            rewrite Ey in H).
  all: cbn [negb] in H.
  all: try (destruct (slab_backward (left bounds - ballRadius ph)
                        (right bounds + ballRadius ph) (x origin) (x direction)
                        ltac:(lra) Hwx) as [Enx Efx]; rewrite Enx, Efx in H).
  all: try (destruct (slab_forward (left bounds - ballRadius ph)
                        (right bounds + ballRadius ph) (x origin) (x direction)
                        ltac:(lra) Hwx) as [Enx Efx]; rewrite Enx, Efx in H).
  all: try (destruct (slab_backward (top bounds - ballRadius ph)
                        (bottom bounds + ballRadius ph) (y origin) (y direction)
                        ltac:(lra) Hwy) as [Eny Efy]; rewrite Eny, Efy in H).
  all: try (destruct (slab_forward (top bounds - ballRadius ph)
                        (bottom bounds + ballRadius ph) (y origin) (y direction)
                        ltac:(lra) Hwy) as [Eny Efy]; rewrite Eny, Efy in H).
  all: try clear Enx Efx; try clear Eny Efy.
  all: name_parameters H.
  all: revert H;
       repeat (unfold Rgtb, Rgeb, gtInfinity, minWithInfinity; rcase1;
               cbn [orb andb negb]; try lra);
       intros H; try discriminate; injection H as H; subst h.
  all: repeat match goal with
              | Hm : context [Rmin ?a ?b] |- _ =>
                  pose proof (Rmin_l a b); pose proof (Rmin_r a b);
                  generalize dependent (Rmin a b); intros
              end.
  all: match goal with
       | |- exists t, _ /\ onRay _ _ t {| point := {| x := _ + _ * ?tm; y := _ |};
                                          normal := _; distance := _ |} /\ _ =>
           exists tm
       end.
  all: (split; [lra|]); (split; [split; reflexivity|]).
  all: cbn [point normal]; unfold insideExpanded, onFace, zeroVector;
       cbn [x y point normal].
  all: try rewrite Hdx in *; try rewrite Hdy in *.
  all: split; [repeat split; nra|].
  all: first
         [ left; split; [reflexivity|]; split; [reflexivity|]; repeat split; nra
         | right; split; [lra|];
           first [ left; split; [reflexivity|]; split; nra
                 | right; left; split; [reflexivity|]; split; nra
                 | right; right; left; split; [reflexivity|]; split; nra
                 | right; right; right; split; [reflexivity|]; split; nra ] ].
Qed.

(** For expanded bounds that are not empty, a hit of [raycastBrick] lies
    ahead on the ray inside the closed expanded bounds: either at the origin
    itself, with the zero normal, when the origin is already inside, or on
    the face that the ray enters through, with the outward normal of that
    face.  A ray that starts beside the bounds and does not run towards them
    hits nothing. *)
Theorem raycastBrick_sound
    (ph : Physics) (origin direction : Vector2) (bounds : BrickBounds) :
  left bounds - ballRadius ph <= right bounds + ballRadius ph ->
  top bounds - ballRadius ph <= bottom bounds + ballRadius ph ->
  (forall h, raycastBrick ph origin direction bounds = Some h ->
     exists t, 0 <= t /\ onRay origin direction t h
       /\ insideExpanded ph bounds (point h)
       /\ ((t = 0 /\ normal h = zeroVector /\ insideExpanded ph bounds origin)
           \/ (0 < t /\ onFace ph bounds direction h)))
  /\ ((x origin < left bounds - ballRadius ph /\ x direction <= 0)
       \/ (x origin > right bounds + ballRadius ph /\ x direction >= 0)
       \/ (y origin < top bounds - ballRadius ph /\ y direction <= 0)
       \/ (y origin > bottom bounds + ballRadius ph /\ y direction >= 0) ->
       raycastBrick ph origin direction bounds = None).
Proof.
  intros Hwx Hwy. split.
  - intros h. now apply raycastBrick_hit_spec.
  - intros Haway.
    destruct (raycastBrick ph origin direction bounds) as [h |] eqn:E;
      [|reflexivity].
    exfalso.
    destruct (raycastBrick_hit_spec ph origin direction bounds h Hwx Hwy E)
      as (t & Ht & [Hp _] & [Hix Hiy] & _).
    rewrite Hp in Hix, Hiy; cbn [x y] in Hix, Hiy.
    destruct Haway as [[Ho Hd] | [[Ho Hd] | [[Ho Hd] | [Ho Hd]]]]; nra.
Qed.

Lemma raycastBrick_sound_witness :
  raycastBrick {| gameWidth := 400; _gameHeight := 600; ballRadius := 8;
                  launchZoneTop := 540 |}
               {| x := 50; y := 150 |} {| x := -1; y := 0 |}
               {| left := 100; right := 200; top := 100; bottom := 200 |}
  = None.
Proof.
  apply (raycastBrick_sound
           {| gameWidth := 400; _gameHeight := 600; ballRadius := 8;
              launchZoneTop := 540 |}
           {| x := 50; y := 150 |} {| x := -1; y := 0 |}
           {| left := 100; right := 200; top := 100; bottom := 200 |});
    cbn; lra.
Defined.

(** ** Physics.getBrickBounds *)

(** The bounds of a brick are its grid cell shrunk by half the gap on every
    side: for a gap between 0 and the cell size they are well formed and lie
    inside the cell, and the bounds of bricks in different columns of a row
    are at least the gap apart. *)
Theorem getBrickBounds_in_cell
    (brick other : Brick) (cw ch ox oy gap : R) :
  0 <= gap -> gap <= cw -> gap <= ch ->
  let bd := getBrickBounds brick cw ch ox oy gap in
  let bd' := getBrickBounds other cw ch ox oy gap in
  left bd <= right bd /\ top bd <= bottom bd
  /\ right bd - left bd = cw - gap /\ bottom bd - top bd = ch - gap
  /\ ox + IZR (gridX brick) * cw <= left bd
  /\ right bd <= ox + IZR (gridX brick + 1) * cw
  /\ oy + IZR (gridY brick) * ch <= top bd
  /\ bottom bd <= oy + IZR (gridY brick + 1) * ch
  /\ ((gridX brick < gridX other)%Z -> right bd + gap <= left bd')
  /\ ((gridY brick < gridY other)%Z -> bottom bd + gap <= top bd').
Proof.
  intros Hg Hw Hh bd bd'. subst bd bd'.
  unfold getBrickBounds; cbn [left right top bottom].
  rewrite !plus_IZR.
  repeat split; try lra.
  - intros Hlt.
    assert (H1 : (gridX brick + 1 <= gridX other)%Z) by lia.
    apply IZR_le in H1. rewrite plus_IZR in H1. nra.
  - intros Hlt.
    assert (H1 : (gridY brick + 1 <= gridY other)%Z) by lia.
    apply IZR_le in H1. rewrite plus_IZR in H1. nra.
Qed.

Lemma getBrickBounds_in_cell_witness :
  let brick := {| brickId := 0; gridX := 2; gridY := 0; hits := 1;
                  destroying := false; destroyProgress := 0 |} in
  let other := {| brickId := 1; gridX := 3; gridY := 0; hits := 1;
                  destroying := false; destroyProgress := 0 |} in
  left (getBrickBounds brick 40 40 0 48 2) <= right (getBrickBounds brick 40 40 0 48 2).
Proof.
  intros brick other.
  apply (getBrickBounds_in_cell brick other 40 40 0 48 2); lra.
Defined.

(** ** TrajectoryCalculator.calculateTrajectory, further *)

Lemma calculateTrajectory_parts
    (ph : Physics) (bs : list Brick) (cw ch ox oy gap lzt : R)
    (startPosition direction : Vector2) :
  exists bounces lastPoint,
    calculateTrajectory ph bs cw ch ox oy gap lzt startPosition direction
    = {| tpPosition := startPosition; isBounce := false |} :: bounces ++ [lastPoint]
    /\ Forall (fun p => isBounce p = true) bounces
    /\ isBounce lastPoint = false
    /\ (length bounces <= MAX_TRAJECTORY_BOUNCES)%nat.
Proof.
  unfold calculateTrajectory, MAX_TRAJECTORY_BOUNCES; cbv zeta.
  cbn [bounceCount Nat.sub].
  set (start := {| tpPosition := startPosition; isBounce := false |}).
  set (st0 := {| points := [start]; currentPos := startPosition;
                 currentDir := normalizeVector direction; bounceCount := 0 |}).
  destruct (trajectoryLoop_shape ph bs cw ch ox oy gap lzt 4 st0)
    as (bounces & Hall & [(Hp & Hl & Hc) | (p & Hnb & Hp & Hl & Hc)]);
    cbv zeta in Hp, Hc; rewrite Hp, Hc; cbn [points bounceCount st0 Nat.add].
  - assert (El : lastElement ([start] ++ bounces) <> None).
    { destruct bounces as [| b0 bounces'] using rev_ind; [discriminate|].
      rewrite app_assoc, lastElement_app; discriminate. }
    cbn [Nat.leb andb]. rewrite length_app; cbn [length Nat.add Nat.ltb Nat.leb].
    destruct (lastElement ([start] ++ bounces)) as [lastPoint |]; [|contradiction].
    eexists bounces, _. split; [reflexivity|].
    split; [exact Hall|]. split; [reflexivity | lia].
  - assert (E : (4 <=? length bounces)%nat = false) by (apply Nat.leb_gt; lia).
    rewrite E; cbn [andb].
    exists bounces, p. split; [reflexivity|].
    split; [exact Hall|]. split; [exact Hnb | lia].
Qed.

(** The preview path consists of the start, then only bounce points, then
    one closing point that is not a bounce: it has between 2 and
    [MAX_TRAJECTORY_BOUNCES] + 2 points, and exactly its first and its last
    point are not bounces. *)
Theorem calculateTrajectory_start_bounces_end
    (ph : Physics) (bs : list Brick) (cw ch ox oy gap lzt : R)
    (startPosition direction : Vector2) :
  let pts := calculateTrajectory ph bs cw ch ox oy gap lzt startPosition direction in
  (2 <= length pts <= MAX_TRAJECTORY_BOUNCES + 2)%nat
  /\ exists bounces lastPoint,
       pts = {| tpPosition := startPosition; isBounce := false |}
             :: bounces ++ [lastPoint]
       /\ Forall (fun p => isBounce p = true) bounces
       /\ isBounce lastPoint = false.
Proof.
  cbv zeta.
  destruct (calculateTrajectory_parts ph bs cw ch ox oy gap lzt startPosition direction)
    as (bounces & lastPoint & E & Hall & Hlast & Hlen).
  rewrite E. split.
  - cbn [length]. rewrite length_app; cbn [length]. lia.
  - now exists bounces, lastPoint.
Qed.

Lemma raycastBrick_still (ph : Physics) (origin : Vector2) (bounds : BrickBounds)
    (h : RayHit) :
  raycastBrick ph origin {| x := 0; y := 0 |} bounds = Some h -> distance h = 0.
Proof.
  unfold raycastBrick; cbv zeta; cbn [x y].
  assert (E : (0 =? 0) = true) by now apply Reqb_true.
  rewrite E; cbn [negb].
  destruct (_ || _); [discriminate|].
  destruct (_ || _); [discriminate|].
  cbn [gtInfinity orb].
  destruct (0 <? 0); [discriminate|].
  intros H; injection H as H; subst h; cbn [distance]. ring.
Qed.

Lemma findClosestHit_still (ph : Physics) (bs : list Brick)
    (cw ch ox oy gap : R) (pos : Vector2) :
  findClosestHit ph bs cw ch ox oy gap pos {| x := 0; y := 0 |} = None.
Proof.
  unfold findClosestHit.
  rewrite raycastWall_idle by (cbn; lra).
  induction bs as [| brick rest IH]; cbn [fold_left]; [reflexivity|].
  assert (Hstep : brickStep ph cw ch ox oy gap pos {| x := 0; y := 0 |} None brick
                  = None).
  { unfold brickStep. destruct (destroying brick); [reflexivity|].
    destruct (raycastBrick ph pos _ _) as [brickHit |] eqn:E; [|reflexivity].
    apply raycastBrick_still in E. rewrite E.
    assert (E' : (0 >? 0.1) = false) by (apply Rgtb_false; lra).
    now rewrite E'. }
  rewrite Hstep. exact IH.
Qed.

(** For the zero vector as direction nothing is divided by zero and nothing
    is hit: the path is the start followed by the start again, both not
    bounces, whatever the bricks are. *)
Theorem calculateTrajectory_zero_direction
    (ph : Physics) (bs : list Brick) (cw ch ox oy gap lzt : R)
    (startPosition : Vector2) :
  normalizeVector {| x := 0; y := 0 |} = {| x := 0; y := 0 |}
  /\ calculateTrajectory ph bs cw ch ox oy gap lzt startPosition {| x := 0; y := 0 |}
     = [ {| tpPosition := startPosition; isBounce := false |};
         {| tpPosition := startPosition; isBounce := false |} ].
Proof.
  assert (Hn : normalizeVector {| x := 0; y := 0 |} = {| x := 0; y := 0 |}).
  { unfold normalizeVector; cbv zeta.
    assert (Hm : magnitude {| x := 0; y := 0 |} = 0)
      by (apply magnitude_zero_iff; now split).
    rewrite Hm. assert (E : (0 =? 0) = true) by now apply Reqb_true.
    now rewrite E. }
  split; [exact Hn|].
  unfold calculateTrajectory, MAX_TRAJECTORY_BOUNCES; cbv zeta. rewrite Hn.
  cbn [bounceCount Nat.sub trajectoryLoop currentPos currentDir points].
  rewrite findClosestHit_still.
  unfold bottomExit; cbn [x y].
  assert (E : (0 >? 0) = false) by (apply Rgtb_false; lra).
  rewrite E. cbn [bounceCount points Nat.leb andb app].
  destruct startPosition as [sx sy]; cbn [x y].
  repeat f_equal; ring.
Qed.

Lemma brickStep_source (ph : Physics) (cw ch ox oy gap : R)
    (pos dir : Vector2) (acc : option RayHit) (brick : Brick) (h : RayHit) :
  brickStep ph cw ch ox oy gap pos dir acc brick = Some h ->
  acc = Some h
  \/ (destroying brick = false
      /\ raycastBrick ph pos dir (getBrickBounds brick cw ch ox oy gap) = Some h
      /\ distance h > 0.1).
Proof.
  unfold brickStep.
  destruct (destroying brick); [now left|].
  destruct (raycastBrick ph pos dir _) as [brickHit |] eqn:E; [|now left].
  destruct (distance brickHit >? 0.1) eqn:Ed; [|now left].
  apply Rgtb_true in Ed.
  destruct acc as [c |].
  - destruct (distance brickHit <? distance c); [|now left].
    intros H; injection H as H; subst h. right; auto.
  - intros H; injection H as H; subst h. right; auto.
Qed.

Lemma fold_brickStep_source (ph : Physics) (cw ch ox oy gap : R)
    (pos dir : Vector2) (bs : list Brick) (acc : option RayHit) (h : RayHit) :
  fold_left (brickStep ph cw ch ox oy gap pos dir) bs acc = Some h ->
  acc = Some h
  \/ exists brick, In brick bs /\ destroying brick = false
       /\ raycastBrick ph pos dir (getBrickBounds brick cw ch ox oy gap) = Some h
       /\ distance h > 0.1.
Proof.
  revert acc; induction bs as [| brick rest IH]; intros acc; cbn [fold_left].
  - now left.
  - intros H. destruct (IH _ H) as [Hs | (b' & HIn & Hrest)].
    + destruct (brickStep_source _ _ _ _ _ _ _ _ _ _ _ Hs) as [Ha | Hb].
      * now left.
      * right. exists brick. split; [now left | exact Hb].
    + right. exists b'. split; [now right | exact Hrest].
Qed.

Lemma findClosestHit_source (ph : Physics) (bs : list Brick)
    (cw ch ox oy gap : R) (pos dir : Vector2) (h : RayHit) :
  findClosestHit ph bs cw ch ox oy gap pos dir = Some h ->
  raycastWall ph pos dir = Some h
  \/ exists brick, In brick bs /\ destroying brick = false
       /\ raycastBrick ph pos dir (getBrickBounds brick cw ch ox oy gap) = Some h
       /\ distance h > 0.1.
Proof.
  unfold findClosestHit. intros H.
  apply fold_brickStep_source in H as [H | H]; [left | now right].
  destruct (raycastWall ph pos dir) as [wallHit |]; [|discriminate].
  destruct (distance wallHit >? 0.1); [exact H | discriminate].
Qed.

Section TrajectoryBounces.

Variable ph : Physics.
Variable bs : list Brick.
Variables cw ch ox oy gap lzt : R.

(** The point [p], if it is a bounce, is the point of a hit that the loop
    selected. *)
Let selected (p : TrajectoryPoint) : Prop :=
  isBounce p = true ->
  exists pos dir h,
    findClosestHit ph bs cw ch ox oy gap pos dir = Some h /\ tpPosition p = point h.

Lemma trajectoryLoop_selected (n : nat) (st : LoopState) :
  Forall selected (points st) ->
  Forall selected (points (trajectoryLoop ph bs cw ch ox oy gap lzt n st)).
Proof.
  revert st; induction n as [| n IH]; intros st H; cbn [trajectoryLoop];
    [exact H|].
  destruct (bottomExit lzt _ _ _) as [bottomPoint |].
  - cbn [points]. apply Forall_app; split; [exact H|].
    constructor; [|constructor]. intros Hb; discriminate.
  - destruct (findClosestHit ph bs cw ch ox oy gap _ _) as [hit |] eqn:E.
    + apply IH. cbn [points]. apply Forall_app; split; [exact H|].
      constructor; [|constructor]. intros _.
      now exists (currentPos st), (currentDir st), hit.
    + cbn [points]. apply Forall_app; split; [exact H|].
      constructor; [|constructor]. intros Hb; discriminate.
Qed.

Lemma calculateTrajectory_selected (startPosition direction : Vector2) :
  Forall selected
    (calculateTrajectory ph bs cw ch ox oy gap lzt startPosition direction).
Proof.
  unfold calculateTrajectory; cbv zeta.
  match goal with
  | |- context [trajectoryLoop ph bs cw ch ox oy gap lzt ?n ?st0] =>
      pose proof (trajectoryLoop_selected n st0) as H
  end.
  cbn [points] in H.
  assert (H0 : Forall selected [{| tpPosition := startPosition; isBounce := false |}])
    by (constructor; [intros Hb; discriminate | constructor]).
  specialize (H H0).
  destruct (_ && _); [|exact H].
  destruct (lastElement _); [|exact H].
  apply Forall_app; split; [exact H|].
  constructor; [intros Hb; discriminate | constructor].
Qed.

End TrajectoryBounces.

(** Every bounce point of the preview path lies on the left, right or top
    boundary line of the field, or on the boundary of the expanded bounds
    of a brick of the list that is not being destroyed (for a gap that
    leaves those bounds non-empty). *)
Theorem calculateTrajectory_bounces_on_boundaries
    (ph : Physics) (bs : list Brick) (cw ch ox oy gap lzt : R)
    (startPosition direction : Vector2) :
  gap <= cw + 2 * ballRadius ph -> gap <= ch + 2 * ballRadius ph ->
  Forall (fun p =>
            isBounce p = true ->
            onFieldBoundary ph (tpPosition p)
            \/ exists brick, In brick bs /\ destroying brick = false
                 /\ onExpandedBoundary ph (getBrickBounds brick cw ch ox oy gap)
                                       (tpPosition p))
         (calculateTrajectory ph bs cw ch ox oy gap lzt startPosition direction).
Proof.
  intros Hw Hh.
  eapply Forall_impl;
    [| apply (calculateTrajectory_selected ph bs cw ch ox oy gap lzt)].
  intros p Hsel Hb. destruct (Hsel Hb) as (pos & dir & h & Hfind & Hp).
  rewrite Hp.
  apply findClosestHit_source in Hfind as [Hwall | (brick & HIn & Hlive & Hray & Hd)].
  - left. apply raycastWall_hit_spec in Hwall as (t & _ & _ & _ & Hon).
    unfold onFieldBoundary.
    destruct Hon as [(_ & _ & Hx & _) | [(_ & _ & Hx & _) | (_ & _ & Hy & _)]]; auto.
  - right. exists brick. split; [exact HIn|]. split; [exact Hlive|].
    apply raycastBrick_hit_spec in Hray
      as (t & Ht & [_ Hdist] & Hin & [(Hz & _) | (_ & Hface)]).
    + exfalso. rewrite Hdist, Hz in Hd. lra.
    + split; [exact Hin|].
      destruct Hface as [(_ & _ & Hx) | [(_ & _ & Hx) | [(_ & _ & Hy) | (_ & _ & Hy)]]];
        cbn [left right top bottom getBrickBounds] in *; auto.
    + unfold getBrickBounds; cbn [left right]; lra.
    + unfold getBrickBounds; cbn [top bottom]; lra.
Qed.

Lemma calculateTrajectory_bounces_on_boundaries_witness :
  Forall (fun p =>
            isBounce p = true ->
            onFieldBoundary physics350 (tpPosition p)
            \/ exists brick, In brick [] /\ destroying brick = false
                 /\ onExpandedBoundary physics350 (getBrickBounds brick 40 40 0 48 2)
                                       (tpPosition p))
         (calculateTrajectory physics350 [] 40 40 0 48 2 540
            {| x := 175; y := 570 |} {| x := 1; y := -2 |}).
Proof.
  apply (calculateTrajectory_bounces_on_boundaries physics350 [] 40 40 0 48 2 540
           {| x := 175; y := 570 |} {| x := 1; y := -2 |}); cbn; lra.
Defined.

(** ** GridManager.shuffleArray *)

Lemma floor_scaled_range (u : R) (n : Z) :
  0 <= u < 1 -> (0 < n)%Z -> (0 <= floor (u * IZR n) < n)%Z.
Proof.
  intros [Hu0 Hu1] Hn. unfold floor.
  destruct (base_Int_part (u * IZR n)) as [Hle Hgt].
  assert (HnR : 0 < IZR n) by now apply IZR_lt.
  assert (Hp0 : 0 <= u * IZR n) by (apply Rmult_le_pos; lra).
  assert (Hp1 : u * IZR n < IZR n).
  { rewrite <- (Rmult_1_l (IZR n)) at 2. now apply Rmult_lt_compat_r. }
  split.
  - assert (H : IZR (-1) < IZR (Int_part (u * IZR n))) by lra.
    apply lt_IZR in H. lia.
  - apply lt_IZR. lra.
Qed.

Lemma setNth_length {A : Type} (i : nat) (v : A) (l : list A) :
  length (setNth i v l) = length l.
Proof.
  revert i; induction l as [| a l IH]; intros [| i]; cbn; auto.
Qed.

Lemma setNth_extract (j : nat) (a : Z) (l : list Z) :
  (j < length l)%nat ->
  Permutation (a :: l) (nth j l 0%Z :: setNth j a l).
Proof.
  revert j; induction l as [| b l IH]; intros [| j] Hj; cbn in Hj |- *; try lia.
  - apply perm_swap.
  - eapply perm_trans; [apply perm_swap|].
    eapply perm_trans; [apply perm_skip, (IH j); lia|].
    apply perm_swap.
Qed.

Lemma swap_Permutation (i j : nat) (l : list Z) :
  (i < length l)%nat -> (j < length l)%nat -> Permutation (swap i j l) l.
Proof.
  unfold swap. revert i j; induction l as [| a l IH]; intros i j Hi Hj;
    cbn in Hi, Hj; [lia|].
  destruct i as [| i], j as [| j]; cbn [nth setNth].
  - apply Permutation_refl.
  - symmetry. apply setNth_extract; lia.
  - symmetry. apply setNth_extract; lia.
  - apply perm_skip. apply IH; lia.
Qed.

Lemma swap_length (i j : nat) (l : list Z) : length (swap i j l) = length l.
Proof. unfold swap. now rewrite !setNth_length. Qed.

Lemma shuffleFrom_Permutation (random : nat -> R) (i : nat) (array : list Z)
    (s : GridManager) :
  validRandom random -> (i < length array)%nat ->
  Permutation (fst (shuffleFrom random i array s)) array
  /\ nextBrickId (snd (shuffleFrom random i array s)) = nextBrickId s
  /\ nextPickupId (snd (shuffleFrom random i array s)) = nextPickupId s.
Proof.
  intros Hr. revert array s; induction i as [| i IH]; intros array s Hi.
  - cbn. auto.
  - cbn [shuffleFrom]. unfold bind, MathRandom.
    set (j := Z.to_nat (floor (random (drawn s) * (INR (S i) + 1)))).
    assert (Hj : (j <= S i)%nat).
    { subst j.
      replace (INR (S i) + 1) with (IZR (Z.of_nat (S i) + 1))
        by (rewrite plus_IZR, <- INR_IZR_INZ; reflexivity).
      pose proof (floor_scaled_range (random (drawn s)) (Z.of_nat (S i) + 1)
                    (Hr _) ltac:(lia)). lia. }
    destruct (IH (swap (S i) j array)
                 {| nextBrickId := nextBrickId s; nextPickupId := nextPickupId s;
                    drawn := S (drawn s) |})
      as (Hp & Hb & Hq); [rewrite swap_length; lia|].
    split; [|split; assumption].
    eapply perm_trans; [exact Hp|]. apply swap_Permutation; lia.
Qed.

(** With [Math.random] in its range, [shuffleArray] returns a permutation of
    the array and leaves the two id counters of the manager alone. *)
Theorem shuffleArray_permutes (random : nat -> R) (array : list Z) (s : GridManager) :
  validRandom random ->
  Permutation (fst (shuffleArray random array s)) array
  /\ nextBrickId (snd (shuffleArray random array s)) = nextBrickId s
  /\ nextPickupId (snd (shuffleArray random array s)) = nextPickupId s.
Proof.
  intros Hr. unfold shuffleArray.
  destruct array as [| a array]; [cbn; auto|].
  apply shuffleFrom_Permutation; [exact Hr | cbn; lia].
Qed.

Lemma shuffleArray_permutes_witness :
  Permutation
    (fst (shuffleArray (fun _ => 0.5) [1; 2; 3]%Z
            {| nextBrickId := 0; nextPickupId := 0; drawn := 0 |}))
    [1; 2; 3]%Z.
Proof.
  apply (shuffleArray_permutes (fun _ => 0.5) [1; 2; 3]%Z
           {| nextBrickId := 0; nextPickupId := 0; drawn := 0 |}).
  intros n; lra.
Defined.

(** ** GridManager.spawnNewRow *)

Lemma hasColumn_In (occupied : list Z) (col : Z) :
  hasColumn occupied col = true <-> In col occupied.
Proof.
  unfold hasColumn. rewrite existsb_exists. split.
  - intros (c & HIn & E). apply Z.eqb_eq in E. now subst.
  - intros HIn. exists col. split; [exact HIn | apply Z.eqb_refl].
Qed.

Lemma filter_all {A : Type} (f : A -> bool) (l : list A) :
  (forall a, In a l -> f a = true) -> filter f l = l.
Proof.
  induction l as [| a l IH]; intros H; cbn; [reflexivity|].
  rewrite (H a) by now left. f_equal. apply IH. intros b Hb. apply H. now right.
Qed.

Lemma filter_none {A : Type} (f : A -> bool) (l : list A) :
  (forall a, In a l -> f a = false) -> filter f l = [].
Proof.
  induction l as [| a l IH]; intros H; cbn; [reflexivity|].
  rewrite (H a) by now left. apply IH. intros b Hb. apply H. now right.
Qed.

Lemma NoDup_app_disjoint {A : Type} (l l' : list A) (a : A) :
  NoDup (l ++ l') -> In a l -> In a l' -> False.
Proof.
  induction l as [| b l IH]; cbn; intros Hnd Hl Hl'; [contradiction|].
  inversion Hnd as [| ? ? Hnot Hnd']; subst.
  destruct Hl as [-> | Hl].
  - apply Hnot. apply in_or_app. now right.
  - now apply IH.
Qed.

(** The columns that remain after the first [n] of a duplicate-free array
    are taken. *)
Lemma remaining_columns (n : nat) (l : list Z) :
  NoDup l ->
  filter (fun col => negb (hasColumn (slice n l) col)) l = skipn n l.
Proof.
  intros Hnd. unfold slice.
  rewrite <- (firstn_skipn n l) in Hnd.
  transitivity (filter (fun col => negb (hasColumn (firstn n l) col))
                  (firstn n l ++ skipn n l)).
  { now rewrite firstn_skipn. }
  rewrite filter_app, filter_none, filter_all; [reflexivity | |].
  - intros a Ha. apply negb_true_iff.
    destruct (hasColumn (firstn n l) a) eqn:E; [|reflexivity].
    apply hasColumn_In in E. exfalso. eapply NoDup_app_disjoint; eauto.
  - intros a Ha. apply negb_false_iff. now apply hasColumn_In.
Qed.

Lemma columns_spec :
  NoDup columns /\ length columns = 11%nat
  /\ forall c, In c columns <-> (0 <= c < GRID_COLS)%Z.
Proof.
  unfold columns, GRID_COLS. split; [|split].
  - apply Finite.Injective_map_NoDup; [|apply seq_NoDup].
    intros a b H. lia.
  - rewrite length_map, length_seq. reflexivity.
  - intros c. rewrite in_map_iff. split.
    + intros (k & <- & Hk). apply in_seq in Hk. cbn in Hk. lia.
    + intros Hc. exists (Z.to_nat c). split; [lia|]. apply in_seq. cbn. lia.
Qed.

Lemma numBricksOf_range (u : R) :
  0 <= u < 1 -> (3 <= numBricksOf u <= 5)%nat.
Proof.
  intros Hu. unfold numBricksOf, MIN_BRICKS_PER_ROW, MAX_BRICKS_PER_ROW.
  pose proof (floor_scaled_range u (5 - 3 + 1) Hu ltac:(lia)). lia.
Qed.

Lemma shuffleArray_run (random : nat -> R) (array : list Z) (s : GridManager) :
  validRandom random ->
  exists shuffled s',
    shuffleArray random array s = (shuffled, s')
    /\ Permutation shuffled array
    /\ nextBrickId s' = nextBrickId s
    /\ nextPickupId s' = nextPickupId s.
Proof.
  intros Hr.
  destruct (shuffleArray random array s) as [shuffled s'] eqn:E.
  exists shuffled, s'. split; [reflexivity|].
  unfold shuffleArray in E.
  destruct array as [| a array].
  - cbn in E. inversion E; subst. auto.
  - pose proof (shuffleFrom_Permutation random (length (a :: array) - 1)
                  (a :: array) s Hr ltac:(cbn; lia)) as H.
    rewrite E in H. exact H.
Qed.

Lemma hitVariance_nonneg (baseHits : Z) :
  (0 <= baseHits)%Z -> (0 <= hitVariance baseHits)%Z.
Proof.
  intros Hb. unfold hitVariance, floor, BRICK_HIT_VARIANCE.
  destruct (base_Int_part (IZR baseHits * 0.2)) as [_ Hgt].
  assert (H0 : 0 <= IZR baseHits) by now apply IZR_le.
  assert (H1 : IZR (-1) < IZR (Int_part (IZR baseHits * 0.2))) by lra.
  apply lt_IZR in H1. lia.
Qed.

Lemma spawnBrick_run (random : nat -> R) (baseHits row col : Z) (s : GridManager) :
  validRandom random ->
  exists brick s',
    spawnBrick random baseHits row col s = (brick, s')
    /\ brickId brick = nextBrickId s /\ gridX brick = col
    /\ freshBrick baseHits row brick
    /\ nextBrickId s' = (nextBrickId s + 1)%Z
    /\ nextPickupId s' = nextPickupId s.
Proof.
  intros Hr. unfold spawnBrick, bind, MathRandom, createBrick. cbn.
  eexists _, _. split; [reflexivity|]. cbn.
  split; [reflexivity|]. split; [reflexivity|].
  split; [|split; reflexivity].
  unfold freshBrick. cbn.
  split; [reflexivity|]. split; [reflexivity|]. split; [reflexivity|].
  split; [lia|]. intros Hb. fold (hitVariance baseHits).
  pose proof (hitVariance_nonneg baseHits ltac:(lia)) as Hv.
  pose proof (floor_scaled_range (random (drawn s))
                (hitVariance baseHits * 2 + 1) (Hr _) ltac:(lia)). lia.
Qed.

Lemma forEach_spawnBrick_run (random : nat -> R) (baseHits row : Z)
    (cols : list Z) (s : GridManager) :
  validRandom random ->
  exists bricks s',
    forEach (spawnBrick random baseHits row) cols s = (bricks, s')
    /\ map gridX bricks = cols
    /\ map brickId bricks = countFrom (nextBrickId s) (length cols)
    /\ Forall (freshBrick baseHits row) bricks
    /\ nextBrickId s' = (nextBrickId s + Z.of_nat (length cols))%Z
    /\ nextPickupId s' = nextPickupId s.
Proof.
  intros Hr. revert s. induction cols as [| col cols IH]; intros s.
  - exists [], s. cbn. repeat split; try constructor; lia.
  - destruct (spawnBrick_run random baseHits row col s Hr)
      as (b & s1 & E1 & Hid & Hx & Hfresh & Hn & Hq).
    destruct (IH s1) as (bs & s2 & E2 & Hxs & Hids & Hall & Hn2 & Hq2).
    exists (b :: bs), s2. cbn [forEach]. unfold bind at 1. rewrite E1.
    unfold bind at 1. rewrite E2. unfold ret.
    split; [reflexivity|]. cbn [map length countFrom].
    repeat split.
    + now rewrite Hx, Hxs.
    + now rewrite Hid, Hids, Hn.
    + constructor; assumption.
    + lia.
    + congruence.
Qed.

Lemma forEach_cons_run {A B : Type} (body : A -> M B) (a : A) (rest : list A)
    (b : B) (bs : list B) (s s1 s2 : GridManager) :
  body a s = (b, s1) -> forEach body rest s1 = (bs, s2) ->
  forEach body (a :: rest) s = (b :: bs, s2).
Proof.
  intros E1 E2. cbn [forEach]. unfold bind, ret. now rewrite E1, E2.
Qed.

Lemma forEach_createPickup_run (random : nat -> R) (weights : PickupTable)
    (cols : list Z) (s : GridManager) :
  exists pickups s',
    forEach (fun col => t <- getRandomPickupType random weights ;;
                        createPickup col 0 t) cols s = (pickups, s')
    /\ map pickupGridX pickups = cols
    /\ map pickupId pickups = countFrom (nextPickupId s) (length cols)
    /\ Forall (freshPickup 0) pickups
    /\ nextBrickId s' = nextBrickId s
    /\ nextPickupId s' = (nextPickupId s + Z.of_nat (length cols))%Z.
Proof.
  revert s. induction cols as [| col cols IH]; intros s.
  - exists [], s. cbn. repeat split; try constructor; lia.
  - set (s1 := {| nextBrickId := nextBrickId s;
                  nextPickupId := nextPickupId s + 1;
                  drawn := S (drawn s) |}).
    destruct (IH s1) as (ps & s2 & E2 & Hxs & Hids & Hall & Hn2 & Hq2).
    eexists (_ :: ps), s2.
    split; [apply (forEach_cons_run _ _ _ _ _ s s1 s2); [reflexivity | exact E2]|].
    cbn [map length countFrom pickupGridX pickupId].
    split; [now rewrite Hxs|]. split; [now rewrite Hids|].
    split; [constructor; [|exact Hall]; unfold freshPickup; cbn; auto|].
    split; [exact Hn2|]. rewrite Hq2. cbn [nextPickupId s1]. lia.
Qed.

Lemma spawnPickups_run (random : nat -> R) (pickupsToSpawn : list PickupType)
    (cols : list Z) (s : GridManager) :
  exists pickups s',
    spawnPickups pickupsToSpawn cols s = (pickups, s')
    /\ map pickupGridX pickups = firstn (length pickupsToSpawn) cols
    /\ map type pickups = firstn (length cols) pickupsToSpawn
    /\ map pickupId pickups = countFrom (nextPickupId s) (length pickups)
    /\ Forall (freshPickup 2) pickups
    /\ nextBrickId s' = nextBrickId s
    /\ nextPickupId s' = (nextPickupId s + Z.of_nat (length pickups))%Z.
Proof.
  revert cols s. induction pickupsToSpawn as [| t ts IH]; intros cols s.
  - exists [], s. cbn. destruct cols; cbn;
      repeat split; try constructor; lia.
  - destruct cols as [| col cols].
    + exists [], s. cbn. repeat split; try constructor; lia.
    + set (s1 := {| nextBrickId := nextBrickId s;
                    nextPickupId := nextPickupId s + 1;
                    drawn := drawn s |}).
      destruct (IH cols s1) as (ps & s2 & E2 & Hxs & Hts & Hids & Hall & Hn2 & Hq2).
      eexists (_ :: ps), s2. cbn [spawnPickups].
      split; [unfold bind, createPickup, ret; fold s1; rewrite E2; reflexivity|].
      cbn [map length countFrom pickupGridX pickupId type firstn].
      split; [now rewrite Hxs|]. split; [now rewrite Hts|].
      split; [now rewrite Hids|].
      split; [constructor; [|exact Hall]; unfold freshPickup; cbn; auto|].
      split; [exact Hn2|]. rewrite Hq2. cbn [nextPickupId s1]. lia.
Qed.

(** The brick columns are the first [n] of the shuffled columns and the
    pickup columns the first [k] of the shuffled rest. *)
Lemma columns_layout (avail remaining : list Z) (n k : nat) :
  Permutation avail columns -> Permutation remaining (skipn n avail) ->
  (n <= 11)%nat ->
  length (firstn n avail) = n
  /\ length remaining = (11 - n)%nat
  /\ NoDup (firstn n avail ++ firstn k remaining)
  /\ forall c, In c (firstn n avail ++ firstn k remaining) ->
               (0 <= c < GRID_COLS)%Z.
Proof.
  intros Hp Hr Hn. destruct columns_spec as (Hnd & Hlen & Hin).
  assert (Hla : length avail = 11%nat)
    by (rewrite (Permutation_length Hp); exact Hlen).
  assert (Hall : Permutation (firstn n avail ++ remaining) columns).
  { eapply perm_trans; [|exact Hp].
    rewrite <- (firstn_skipn n avail) at 2.
    apply Permutation_app_head. exact Hr. }
  split; [rewrite length_firstn; lia|].
  split; [rewrite (Permutation_length Hr), length_skipn; lia|].
  assert (Hnd' : NoDup (firstn n avail ++ remaining)).
  { eapply Permutation_NoDup; [apply Permutation_sym; exact Hall | exact Hnd]. }
  split.
  - rewrite <- (firstn_skipn k remaining), app_assoc in Hnd'.
    eapply NoDup_app_remove_r. exact Hnd'.
  - intros c Hc. apply Hin.
    eapply Permutation_in; [exact Hall|].
    apply in_app_or in Hc. apply in_or_app.
    destruct Hc as [Hc | Hc]; [now left | right].
    rewrite <- (firstn_skipn k remaining). apply in_or_app. now left.
Qed.

Lemma Permutation_columns_NoDup (avail : list Z) :
  Permutation avail columns -> NoDup avail.
Proof.
  intros Hp. eapply Permutation_NoDup; [apply Permutation_sym; exact Hp|].
  apply columns_spec.
Qed.

Lemma getPickupsForRound_length (level : Z) :
  (1 <= length (getPickupsForRound level) <= 5)%nat.
Proof.
  unfold getPickupsForRound. cbn [length].
  pose proof (filter_length_le
    (fun t => (Z.rem level (MULTIPLIER_SPAWN_INTERVALS t) =? 0)%Z)
    [x2; x3; x5; x10]) as H.
  cbn [length] in H. lia.
Qed.

Lemma spawnNewRowWeighted_run (random : nat -> R) (weights : PickupTable)
    (level : Z) (s : GridManager) :
  validRandom random ->
  exists bricks pickups s',
    spawnNewRowWeighted random weights level s = (bricks, pickups, s')
    /\ rowSpawned level 0 s bricks pickups s'
    /\ length pickups = MAX_PICKUPS_PER_ROW.
Proof.
  intros Hr.
  destruct (spawnNewRowWeighted random weights level s)
    as [[bricks pickups] s'] eqn:E.
  exists bricks, pickups, s'. split; [reflexivity|].
  revert E. unfold spawnNewRowWeighted.
  unfold bind at 1. unfold MathRandom at 1.
  set (s0 := {| nextBrickId := nextBrickId s; nextPickupId := nextPickupId s;
                drawn := S (drawn s) |}).
  pose proof (numBricksOf_range (random (drawn s)) (Hr _)) as Hnum.
  set (n := numBricksOf (random (drawn s))) in *.
  destruct (shuffleArray_run random columns s0 Hr)
    as (avail & s1 & E1 & Hp1 & Hb1 & Hq1).
  unfold bind at 1. rewrite E1.
  destruct (forEach_spawnBrick_run random level 0 (slice n avail) s1 Hr)
    as (bricks0 & s2 & E2 & Hxs & Hids & Hfresh & Hb2 & Hq2).
  unfold bind at 1. rewrite E2.
  rewrite (remaining_columns n avail (Permutation_columns_NoDup avail Hp1)).
  destruct (shuffleArray_run random (skipn n avail) s2 Hr)
    as (remaining & s3 & E3 & Hp3 & Hb3 & Hq3).
  unfold bind at 1. rewrite E3.
  set (k := Nat.min MAX_PICKUPS_PER_ROW (length remaining)).
  destruct (forEach_createPickup_run random weights (slice k remaining) s3)
    as (pickups0 & s4 & E4 & Hpx & Hpids & Hpfresh & Hb4 & Hq4).
  unfold bind at 1. rewrite E4. unfold ret.
  intros E. inversion E; subst bricks0 pickups0 s4. clear E.
  destruct (columns_layout avail remaining n k Hp1 Hp3 ltac:(lia))
    as (Hln & Hlr & Hnd & Hin).
  unfold slice in *.
  assert (Hlb : length bricks = n)
    by (rewrite <- (length_map gridX), Hxs; exact Hln).
  assert (Hk : k = 2%nat)
    by (subst k; unfold MAX_PICKUPS_PER_ROW; rewrite Hlr; lia).
  assert (Hlp : length pickups = 2%nat).
  { rewrite <- (length_map pickupGridX), Hpx, length_firstn. lia. }
  assert (Hlk : length (firstn k remaining) = length pickups).
  { rewrite <- Hpx. apply length_map. }
  split; [|exact Hlp].
  unfold rowSpawned. rewrite Hxs, Hpx.
  unfold MIN_BRICKS_PER_ROW, MAX_BRICKS_PER_ROW.
  split; [lia|]. split; [exact Hnd|]. split; [exact Hin|].
  split; [exact Hfresh|]. split; [exact Hpfresh|].
  subst s0. cbn [nextBrickId nextPickupId] in Hb1, Hq1.
  split; [rewrite Hids, Hln, Hlb; congruence|].
  split; [rewrite Hpids, Hlk; congruence|].
  split; [rewrite Hb4, Hb3, Hb2, Hb1, Hln, Hlb; reflexivity|].
  rewrite Hq4, Hq3, Hq2, Hq1, Hlk. reflexivity.
Qed.

Lemma spawnNewRow_run (random : nat -> R) (ballCount level : Z)
    (s : GridManager) :
  validRandom random ->
  exists bricks pickups s',
    spawnNewRow random ballCount level s = (bricks, pickups, s')
    /\ rowSpawned (Z.max 1 ballCount) 2 s bricks pickups s'
    /\ map type pickups = getPickupsForRound level.
Proof.
  intros Hr.
  destruct (spawnNewRow random ballCount level s)
    as [[bricks pickups] s'] eqn:E.
  exists bricks, pickups, s'. split; [reflexivity|].
  revert E. unfold spawnNewRow.
  unfold bind at 1. unfold MathRandom at 1.
  set (s0 := {| nextBrickId := nextBrickId s; nextPickupId := nextPickupId s;
                drawn := S (drawn s) |}).
  pose proof (numBricksOf_range (random (drawn s)) (Hr _)) as Hnum.
  set (n := numBricksOf (random (drawn s))) in *.
  destruct (shuffleArray_run random columns s0 Hr)
    as (avail & s1 & E1 & Hp1 & Hb1 & Hq1).
  unfold bind at 1. rewrite E1.
  destruct (forEach_spawnBrick_run random (Z.max 1 ballCount) 2
              (slice n avail) s1 Hr)
    as (bricks0 & s2 & E2 & Hxs & Hids & Hfresh & Hb2 & Hq2).
  unfold bind at 1. rewrite E2.
  rewrite (remaining_columns n avail (Permutation_columns_NoDup avail Hp1)).
  destruct (shuffleArray_run random (skipn n avail) s2 Hr)
    as (remaining & s3 & E3 & Hp3 & Hb3 & Hq3).
  unfold bind at 1. rewrite E3.
  destruct (spawnPickups_run random (getPickupsForRound level) remaining s3)
    as (pickups0 & s4 & E4 & Hpx & Hpt & Hpids & Hpfresh & Hb4 & Hq4).
  unfold bind at 1. rewrite E4. unfold ret.
  intros E. inversion E; subst bricks0 pickups0 s4. clear E.
  destruct (columns_layout avail remaining n
              (length (getPickupsForRound level)) Hp1 Hp3 ltac:(lia))
    as (Hln & Hlr & Hnd & Hin).
  pose proof (getPickupsForRound_length level) as Hlt.
  unfold slice in *.
  assert (Hlb : length bricks = n)
    by (rewrite <- (length_map gridX), Hxs; exact Hln).
  assert (Ht : map type pickups = getPickupsForRound level).
  { rewrite Hpt. apply firstn_all2. lia. }
  subst s0. cbn [nextBrickId nextPickupId] in Hb1, Hq1.
  split; [|exact Ht].
  unfold rowSpawned. rewrite Hxs, Hpx.
  unfold MIN_BRICKS_PER_ROW, MAX_BRICKS_PER_ROW.
  split; [lia|]. split; [exact Hnd|]. split; [exact Hin|].
  split; [exact Hfresh|]. split; [exact Hpfresh|].
  split; [rewrite Hids, Hln, Hlb; congruence|].
  split; [rewrite Hpids; congruence|].
  split; [rewrite Hb4, Hb3, Hb2, Hb1, Hln, Hlb; reflexivity|].
  rewrite Hq4, Hq3, Hq2, Hq1. reflexivity.
Qed.

(** With [Math.random] in its range, [spawnNewRow] of the manager that draws
    pickup types by weight returns between 3 and 5 bricks and exactly 2
    pickups, all in row 0 and in pairwise different columns of the grid;
    the bricks have at least one hit, and for a level of at least 1 their
    hits lie within the variance of the level; bricks and pickups take
    consecutive ids from the two counters. *)
Theorem spawnNewRowWeighted_row (random : nat -> R) (weights : PickupTable)
    (level : Z) (s : GridManager) :
  validRandom random ->
  let '(bricks, pickups, s') := spawnNewRowWeighted random weights level s in
  rowSpawned level 0 s bricks pickups s'
  /\ length pickups = MAX_PICKUPS_PER_ROW.
Proof.
  intros Hr.
  destruct (spawnNewRowWeighted_run random weights level s Hr)
    as (bricks & pickups & s' & E & Hrow & Hlen).
  rewrite E. split; assumption.
Qed.

Lemma spawnNewRowWeighted_row_witness :
  let '(bricks, pickups, s') :=
    spawnNewRowWeighted (fun _ => 0.5) PICKUP_WEIGHTS 1
      {| nextBrickId := 0; nextPickupId := 0; drawn := 0 |} in
  rowSpawned 1 0 {| nextBrickId := 0; nextPickupId := 0; drawn := 0 |}
    bricks pickups s'
  /\ length pickups = MAX_PICKUPS_PER_ROW.
Proof.
  apply (spawnNewRowWeighted_row (fun _ => 0.5) PICKUP_WEIGHTS 1
           {| nextBrickId := 0; nextPickupId := 0; drawn := 0 |}).
  intros n; lra.
Defined.

(** With [Math.random] in its range, [spawnNewRow] of the manager that spawns
    pickups at round intervals returns between 3 and 5 bricks in row 2, with
    hits within the variance of [max(1, ballCount)], and one pickup for each
    type that is due in the round: enough columns remain, so the column bound
    of the loop never cuts the list.  Bricks and pickups stand in pairwise
    different columns and take consecutive ids.  For level 1, the default
    that the game leaves in place, the only pickup is a ball. *)
Theorem spawnNewRow_row (random : nat -> R) (ballCount level : Z)
    (s : GridManager) :
  validRandom random ->
  let '(bricks, pickups, s') := spawnNewRow random ballCount level s in
  rowSpawned (Z.max 1 ballCount) 2 s bricks pickups s'
  /\ map type pickups = getPickupsForRound level
  /\ (level = 1%Z -> map type pickups = [ball]).
Proof.
  intros Hr.
  destruct (spawnNewRow_run random ballCount level s Hr)
    as (bricks & pickups & s' & E & Hrow & Ht).
  rewrite E. split; [exact Hrow|]. split; [exact Ht|].
  intros ->. rewrite Ht. reflexivity.
Qed.

Lemma spawnNewRow_row_witness :
  let '(bricks, pickups, s') :=
    spawnNewRow (fun _ => 0.5) 1 1
      {| nextBrickId := 0; nextPickupId := 0; drawn := 0 |} in
  rowSpawned (Z.max 1 1) 2 {| nextBrickId := 0; nextPickupId := 0; drawn := 0 |}
    bricks pickups s'
  /\ map type pickups = getPickupsForRound 1
  /\ (1%Z = 1%Z -> map type pickups = [ball]).
Proof.
  apply (spawnNewRow_row (fun _ => 0.5) 1 1
           {| nextBrickId := 0; nextPickupId := 0; drawn := 0 |}).
  intros n; lra.
Defined.

(** ** Game.handleAimingInput: the aim direction *)

Lemma atan2_negative (dy dx : R) : dy < 0 -> - PI < atan2 dy dx < 0.
Proof.
  intros Hdy. pose proof PI_RGT_0 as Hpi.
  pose proof (atan_bound (dy / dx)) as [Hlo Hhi].
  unfold atan2, Rgtb, Rgeb.
  destruct (0 <? dx) eqn:E1; [apply Rltb_true in E1 | apply Rltb_false in E1].
  - assert (Hq : dy / dx < 0).
    { unfold Rdiv. pose proof (Rinv_0_lt_compat dx E1). nra. }
    pose proof (atan_increasing _ _ Hq) as Hinc. rewrite atan_0 in Hinc. lra.
  - destruct (dx <? 0) eqn:E2; [apply Rltb_true in E2 | apply Rltb_false in E2].
    + assert (E3 : (0 <=? dy) = false) by (apply Rleb_false; lra).
      rewrite E3.
      assert (Hq : 0 < dy / dx).
      { unfold Rdiv. pose proof (Rinv_lt_0_compat dx E2). nra. }
      pose proof (atan_increasing _ _ Hq) as Hinc. rewrite atan_0 in Hinc. lra.
    + assert (E3 : (0 <? dy) = false) by (apply Rltb_false; lra).
      assert (E4 : (dy <? 0) = true) by (apply Rltb_true; lra).
      rewrite E3, E4. lra.
Qed.

Lemma atan2_negative_left (dy dx : R) :
  dy < 0 -> dx < 0 -> atan2 dy dx < - (PI / 2).
Proof.
  intros Hdy Hdx. pose proof (atan_bound (dy / dx)) as [Hlo Hhi].
  unfold atan2, Rgtb, Rgeb.
  assert (E1 : (0 <? dx) = false) by (apply Rltb_false; lra).
  assert (E2 : (dx <? 0) = true) by (apply Rltb_true; lra).
  assert (E3 : (0 <=? dy) = false) by (apply Rleb_false; lra).
  rewrite E1, E2, E3. lra.
Qed.

(** The aim that an [aimMove] above the launch line sets is the unit vector
    of an angle between -80 degrees and 0: it always points up and to the
    right, the upper bound of the clamp is never reached, and a pointer to
    the right of the launch position gives the angle of -80 degrees
    itself.  A move that is not more than 10 units above the launch line
    leaves the game as it is. *)
Theorem aimMoveStep_direction (renderer : Renderer.t) (pos : Vector2)
    (launchY : R) (g : Game) :
  isMovingLaunchPoint g && easyMode (gameSettings g) = false ->
  (launchY - y pos > 10 ->
   exists a,
     - (PI / 2) + MIN_LAUNCH_ANGLE * PI / 180 <= a < 0
     /\ aimDirection (aimMoveStep renderer pos launchY g)
        = Some {| x := cos a; y := sin a |}
     /\ 0 < cos a /\ sin a < 0
     /\ (x (launchPosition g) < x pos ->
         a = - (PI / 2) + MIN_LAUNCH_ANGLE * PI / 180))
  /\ (launchY - y pos <= 10 -> aimMoveStep renderer pos launchY g = g).
Proof.
  intros Hmode. unfold aimMoveStep. rewrite Hmode. cbv zeta.
  pose proof PI_RGT_0 as Hpi.
  split.
  - intros Hdy.
    assert (E : (launchY - y pos >? 10) = true) by (apply Rgtb_true; lra).
    rewrite E. cbn [aimDirection set_trajectoryPoints set_aimDirection].
    set (dx := x (launchPosition g) - x pos).
    set (dy := launchY - y pos) in *.
    pose proof (atan2_negative (- dy) dx ltac:(lra)) as [Hlo Hhi].
    set (angle := atan2 (- dy) dx) in *.
    unfold MIN_LAUNCH_ANGLE.
    assert (E1 : (angle >? PI / 2 - 10 * PI / 180) = false)
      by (apply Rgtb_false; lra).
    rewrite E1.
    assert (Hfinal : forall a, - (PI / 2) + 10 * PI / 180 <= a < 0 ->
              0 < cos a /\ sin a < 0).
    { intros a [Ha0 Ha1]. split.
      - apply cos_gt_0; lra.
      - apply sin_lt_0_var; lra. }
    destruct (angle <? - PI / 2 + 10 * PI / 180) eqn:E2.
    + apply Rltb_true in E2.
      exists (- (PI / 2) + 10 * PI / 180).
      assert (Hr : - (PI / 2) + 10 * PI / 180 <= - (PI / 2) + 10 * PI / 180 < 0)
        by lra.
      destruct (Hfinal _ Hr) as [Hc Hs].
      split; [exact Hr|]. split.
      * replace (- PI / 2 + 10 * PI / 180) with (- (PI / 2) + 10 * PI / 180)
          by lra.
        rewrite (Rabs_left _ Hs). now rewrite Ropp_involutive.
      * auto.
    + apply Rltb_false in E2.
      exists angle.
      assert (Hr : - (PI / 2) + 10 * PI / 180 <= angle < 0) by lra.
      destruct (Hfinal _ Hr) as [Hc Hs].
      split; [exact Hr|]. split.
      * rewrite (Rabs_left _ Hs). now rewrite Ropp_involutive.
      * split; [exact Hc|]. split; [exact Hs|].
        intros Hright.
        pose proof (atan2_negative_left (- dy) dx ltac:(lra)
                      ltac:(subst dx; lra)) as Hleft.
        fold angle in Hleft. lra.
  - intros Hdy.
    assert (E : (launchY - y pos >? 10) = false) by (apply Rgtb_false; lra).
    now rewrite E.
Qed.

Lemma aimMoveStep_direction_witness :
  exists a,
    - (PI / 2) + MIN_LAUNCH_ANGLE * PI / 180 <= a < 0
    /\ aimDirection
         (aimMoveStep renderer350 {| x := 300; y := 100 |} 570
            (newGame renderer350
               {| nextBrickId := 0; nextPickupId := 0; drawn := 0 |}
               {| easyMode := false; soundEnabled := true;
                  vibrationEnabled := true |}
               {| normal_ := 0; easy := 0 |}))
       = Some {| x := cos a; y := sin a |}
    /\ 0 < cos a /\ sin a < 0
    /\ (x (launchPosition
             (newGame renderer350
                {| nextBrickId := 0; nextPickupId := 0; drawn := 0 |}
                {| easyMode := false; soundEnabled := true;
                   vibrationEnabled := true |}
                {| normal_ := 0; easy := 0 |})) < 300 ->
        a = - (PI / 2) + MIN_LAUNCH_ANGLE * PI / 180).
Proof.
  apply (aimMoveStep_direction renderer350 {| x := 300; y := 100 |} 570
           (newGame renderer350
              {| nextBrickId := 0; nextPickupId := 0; drawn := 0 |}
              {| easyMode := false; soundEnabled := true;
                 vibrationEnabled := true |}
              {| normal_ := 0; easy := 0 |})).
  - reflexivity.
  - cbn. lra.
Defined.

(** ** The invariant of the game between two steps *)

Lemma countFrom_spec (start : Z) (n : nat) :
  NoDup (countFrom start n)
  /\ forall i, In i (countFrom start n) <-> (start <= i < start + Z.of_nat n)%Z.
Proof.
  revert start; induction n as [| n IH]; intros start.
  - cbn. split; [constructor|]. intros i. split; [contradiction | lia].
  - destruct (IH (start + 1)%Z) as [Hnd Hin]. cbn [countFrom]. split.
    + constructor; [|exact Hnd]. intros Hc. apply Hin in Hc. lia.
    + intros i. cbn [In]. rewrite Hin. lia.
Qed.

Lemma NoDup_map_filter_l {A B : Type} (h : A -> B) (f : A -> bool)
    (l : list A) (m : list B) :
  NoDup (map h l ++ m) -> NoDup (map h (filter f l) ++ m).
Proof.
  induction l as [| a l IH]; cbn [map filter app]; intros H; [exact H|].
  inversion H as [| ? ? Hnot Hnd]; subst.
  destruct (f a); [|now apply IH].
  cbn [map app]. constructor; [|now apply IH].
  intros Hc. apply Hnot. apply in_app_or in Hc. apply in_or_app.
  destruct Hc as [Hc | Hc]; [left | now right].
  apply in_map_iff in Hc. destruct Hc as (b & <- & Hb).
  apply in_map. apply filter_In in Hb. tauto.
Qed.

Lemma NoDup_map_filter_r {A B : Type} (h : A -> B) (f : A -> bool)
    (l : list A) (m : list B) :
  NoDup (m ++ map h l) -> NoDup (m ++ map h (filter f l)).
Proof.
  intros H.
  eapply Permutation_NoDup; [apply Permutation_app_comm|].
  apply NoDup_map_filter_l.
  eapply Permutation_NoDup; [apply Permutation_app_comm | exact H].
Qed.

Lemma Forall_map_filter {A B : Type} (P : B -> Prop) (h : A -> B)
    (f : A -> bool) (l : list A) :
  Forall P (map h l) -> Forall P (map h (filter f l)).
Proof.
  rewrite !Forall_map, !Forall_forall. intros H a Ha.
  apply filter_In in Ha. apply H. tauto.
Qed.

Lemma boardOk_filter (firstRow : Z) (over : bool) (gm : GridManager)
    (keepBrick : Brick -> bool) (keepPickup : Pickup -> bool)
    (bs : list Brick) (ps : list Pickup) :
  boardOk firstRow over gm (map brickKey bs) (map pickupKey ps) ->
  boardOk firstRow over gm (map brickKey (filter keepBrick bs))
    (map pickupKey (filter keepPickup ps)).
Proof.
  unfold boardOk. rewrite !map_map.
  intros (Hc & Hb & Hp & Hbi & Hbn & Hpi & Hpn).
  split; [apply NoDup_map_filter_l, NoDup_map_filter_r; exact Hc|].
  split; [apply Forall_map_filter; exact Hb|].
  split; [apply Forall_map_filter; exact Hp|].
  split; [rewrite <- (app_nil_r (map _ (filter _ _)));
          apply NoDup_map_filter_l; rewrite app_nil_r; exact Hbi|].
  split; [apply Forall_map_filter; exact Hbn|].
  split; [rewrite <- (app_nil_r (map _ (filter _ _)));
          apply NoDup_map_filter_l; rewrite app_nil_r; exact Hpi|].
  apply Forall_map_filter; exact Hpn.
Qed.

Lemma boardOk_over (firstRow : Z) (over : bool) (gm : GridManager)
    (bks pks : list (Z * (Z * Z))) :
  boardOk firstRow false gm bks pks -> boardOk firstRow over gm bks pks.
Proof.
  destruct over; [|exact (fun H => H)].
  unfold boardOk. intros (Hc & Hb & Hrest). split; [exact Hc|].
  split; [|exact Hrest].
  eapply Forall_impl; [|exact Hb]. unfold inGrid. intros k. lia.
Qed.

Lemma moveBricksDown_keys (bs : list Brick) :
  map brickKey (moveBricksDown bs) = map downKey (map brickKey bs).
Proof. unfold moveBricksDown. rewrite !map_map. reflexivity. Qed.

Lemma removeBottomPickups_movePickupsDown (ps : list Pickup) :
  removeBottomPickups (movePickupsDown ps)
  = movePickupsDown
      (filter (fun pickup => (pickupGridY pickup + 1 <? GRID_ROWS)%Z) ps).
Proof.
  unfold removeBottomPickups, movePickupsDown.
  rewrite filter_map_swap. reflexivity.
Qed.

Lemma movePickupsDown_keys (ps : list Pickup) :
  map pickupKey (movePickupsDown ps) = map downKey (map pickupKey ps).
Proof. unfold movePickupsDown. rewrite !map_map. reflexivity. Qed.

Lemma downKey_cells_NoDup (l : list (Z * Z)) :
  NoDup l -> NoDup (map (fun c => (fst c, (snd c + 1)%Z)) l).
Proof.
  apply Finite.Injective_map_NoDup.
  intros [c1 r1] [c2 r2] H. cbn in H. inversion H. f_equal. lia.
Qed.

(** The board after the bricks and the remaining pickups have moved one row
    down. *)
Lemma boardOk_down (firstRow : Z) (gm : GridManager)
    (bks pks : list (Z * (Z * Z))) :
  boardOk firstRow false gm bks pks ->
  Forall (fun k => (snd (snd k) + 1 < GRID_ROWS)%Z) pks ->
  boardOk (firstRow + 1) true gm (map downKey bks) (map downKey pks).
Proof.
  unfold boardOk. intros (Hc & Hb & Hp & Hbi & Hbn & Hpi & Hpn) Hlow.
  rewrite !map_map. cbn [downKey fst snd].
  split.
  { pose proof (downKey_cells_NoDup _ Hc) as H.
    rewrite map_app, !map_map in H. exact H. }
  split.
  { apply Forall_map. eapply Forall_impl; [|exact Hb].
    unfold inGrid. cbn [downKey fst snd]. intros k. lia. }
  split.
  { apply Forall_map. rewrite Forall_forall in *.
    intros k Hk. pose proof (Hp k Hk) as H1. pose proof (Hlow k Hk) as H2.
    unfold inGrid in *. cbn [downKey fst snd]. lia. }
  split; [exact Hbi|].
  split; [apply Forall_map; exact Hbn|].
  split; [exact Hpi|].
  apply Forall_map; exact Hpn.
Qed.

Lemma boardOk_not_over (firstRow : Z) (gm : GridManager)
    (bks pks : list (Z * (Z * Z))) :
  boardOk firstRow true gm bks pks ->
  Forall (fun k => (snd (snd k) < GRID_ROWS)%Z) bks ->
  boardOk firstRow false gm bks pks.
Proof.
  unfold boardOk. intros (Hc & Hb & Hrest) Hlow.
  split; [exact Hc|]. split; [|exact Hrest].
  rewrite Forall_forall in *. intros k Hk.
  pose proof (Hb k Hk). pose proof (Hlow k Hk). unfold inGrid in *. lia.
Qed.

Lemma fresh_cells (baseHits row : Z) (bricks : list Brick) (pickups : list Pickup) :
  Forall (freshBrick baseHits row) bricks -> Forall (freshPickup row) pickups ->
  map brickCell bricks ++ map pickupCell pickups
  = map (fun c => (c, row)) (map gridX bricks ++ map pickupGridX pickups).
Proof.
  intros Hb Hp. rewrite map_app, !map_map. f_equal.
  - apply map_ext_in. intros b Hin. rewrite Forall_forall in Hb.
    destruct (Hb b Hin) as (Hy & _). unfold brickCell. now rewrite Hy.
  - apply map_ext_in. intros p Hin. rewrite Forall_forall in Hp.
    destruct (Hp p Hin) as (Hy & _). unfold pickupCell. now rewrite Hy.
Qed.

Lemma ids_extend (next : Z) (old : list Z) (n : nat) :
  NoDup old -> Forall (fun i => (i < next)%Z) old ->
  NoDup (old ++ countFrom next n).
Proof.
  intros Hnd Hlt. destruct (countFrom_spec next n) as [Hcn Hci].
  rewrite Forall_forall in Hlt.
  apply NoDup_app; [exact Hnd | exact Hcn|].
  intros i Hi Hc. apply Hci in Hc. specialize (Hlt i Hi). cbn in Hlt. lia.
Qed.

(** The board after a new row has been spawned above the rows that are
    there. *)
Lemma boardOk_spawn (baseHits firstRow : Z) (gm gm' : GridManager)
    (bks pks : list (Z * (Z * Z))) (newBricks : list Brick)
    (newPickups : list Pickup) :
  (firstRow < GRID_ROWS)%Z ->
  boardOk (firstRow + 1) false gm bks pks ->
  rowSpawned baseHits firstRow gm newBricks newPickups gm' ->
  boardOk firstRow false gm'
    (bks ++ map brickKey newBricks) (pks ++ map pickupKey newPickups).
Proof.
  intros Hrow (Hc & Hb & Hp & Hbi & Hbn & Hpi & Hpn)
    (Hlen & Hcols & Hrange & Hfb & Hfp & Hbids & Hpids & Hnb & Hnp).
  pose proof (fresh_cells baseHits firstRow newBricks newPickups Hfb Hfp)
    as Hcells.
  unfold boardOk. rewrite !map_app, !map_map.
  change (fun b => snd (brickKey b)) with brickCell.
  change (fun p => snd (pickupKey p)) with pickupCell.
  change (fun b => fst (brickKey b)) with brickId.
  change (fun p => fst (pickupKey p)) with pickupId.
  split.
  { eapply Permutation_NoDup with
      (l := (map snd bks ++ map snd pks)
            ++ (map brickCell newBricks ++ map pickupCell newPickups)).
    - rewrite <- !app_assoc. apply Permutation_app_head.
      rewrite !app_assoc. apply Permutation_app_tail.
      apply Permutation_app_comm.
    - apply NoDup_app; [exact Hc | |].
      + rewrite Hcells. apply Finite.Injective_map_NoDup; [|exact Hcols].
        intros c1 c2 H. now inversion H.
      + intros [c r] Hold Hnew. rewrite Hcells in Hnew.
        apply in_map_iff in Hnew. destruct Hnew as (c' & E & _).
        inversion E as [[Ec Er]]. clear E Ec.
        assert (Hr : (firstRow + 1 <= r)%Z); [|lia].
        apply in_app_or in Hold. rewrite Forall_forall in Hb, Hp.
        destruct Hold as [Hold | Hold];
          apply in_map_iff in Hold; destruct Hold as (k & E' & Hk);
          [pose proof (Hb k Hk) as H | pose proof (Hp k Hk) as H];
          unfold inGrid in H; rewrite E' in H; cbn [fst snd] in H; lia. }
  split.
  { apply Forall_app. split.
    - eapply Forall_impl; [|exact Hb]. unfold inGrid. intros k. lia.
    - apply Forall_forall. intros k Hk. apply in_map_iff in Hk.
      destruct Hk as (b & <- & Hin). rewrite Forall_forall in Hfb.
      destruct (Hfb b Hin) as (Hy & _).
      unfold inGrid, brickKey, brickCell. cbn [fst snd].
      split; [|lia]. apply Hrange. apply in_or_app. left. now apply in_map. }
  split.
  { apply Forall_app. split.
    - eapply Forall_impl; [|exact Hp]. unfold inGrid. intros k. lia.
    - apply Forall_forall. intros k Hk. apply in_map_iff in Hk.
      destruct Hk as (p & <- & Hin). rewrite Forall_forall in Hfp.
      destruct (Hfp p Hin) as (Hy & _).
      unfold inGrid, pickupKey, pickupCell. cbn [fst snd].
      split; [|lia]. apply Hrange. apply in_or_app. right. now apply in_map. }
  pose proof (ids_extend (nextBrickId gm) (map fst bks) (length newBricks)
                Hbi ltac:(now apply Forall_map)) as H1.
  pose proof (ids_extend (nextPickupId gm) (map fst pks) (length newPickups)
                Hpi ltac:(now apply Forall_map)) as H3.
  destruct (countFrom_spec (nextBrickId gm) (length newBricks)) as [_ Hbin].
  destruct (countFrom_spec (nextPickupId gm) (length newPickups)) as [_ Hpin].
  split; [rewrite Hbids; exact H1|].
  split.
  { apply Forall_app. split.
    - eapply Forall_impl; [|exact Hbn]. cbn beta. intros k. lia.
    - apply Forall_forall. intros k Hk. apply in_map_iff in Hk.
      destruct Hk as (b & <- & Hin). cbn [brickKey fst].
      assert (Hid : In (brickId b) (map brickId newBricks)) by now apply in_map.
      rewrite Hbids in Hid. apply Hbin in Hid. lia. }
  split; [rewrite Hpids; exact H3|].
  apply Forall_app. split.
  - eapply Forall_impl; [|exact Hpn]. cbn beta. intros k. lia.
  - apply Forall_forall. intros k Hk. apply in_map_iff in Hk.
    destruct Hk as (p & <- & Hin). cbn [pickupKey fst].
    assert (Hid : In (pickupId p) (map pickupId newPickups)) by now apply in_map.
    rewrite Hpids in Hid. apply Hpin in Hid. lia.
Qed.

Lemma boardOk_firstRow (firstRow : Z) (over : bool) (gm : GridManager)
    (bks pks : list (Z * (Z * Z))) :
  boardOk (firstRow + 1) over gm bks pks -> boardOk firstRow over gm bks pks.
Proof.
  unfold boardOk. intros (Hc & Hb & Hp & Hrest).
  split; [exact Hc|].
  split; [eapply Forall_impl; [|exact Hb]; unfold inGrid; intros k; lia|].
  split; [eapply Forall_impl; [|exact Hp]; unfold inGrid; intros k; lia|].
  exact Hrest.
Qed.

Lemma boardOk_empty (firstRow : Z) (over : bool) (gm : GridManager) :
  boardOk firstRow over gm [] [].
Proof. unfold boardOk. cbn. repeat split; constructor. Qed.

Lemma hitBrick_key (brick : Brick) : brickKey (hitBrick brick) = brickKey brick.
Proof. unfold hitBrick. destruct (_ <=? _)%Z; reflexivity. Qed.

Lemma collideBricks_keys (renderer : Renderer.t) (b : Ball) (bs : list Brick) :
  map brickKey (snd (collideBricks renderer b bs)) = map brickKey bs.
Proof.
  revert b; induction bs as [| brick rest IH]; intros b; cbn [collideBricks].
  - reflexivity.
  - destruct (destroying brick).
    + specialize (IH b). destruct (collideBricks renderer b rest) as [b' rest'].
      cbn [snd map] in *. now rewrite IH.
    + destruct (checkBrickCollision _ b _) as [b1 collision].
      specialize (IH b1). destruct (collideBricks renderer b1 rest) as [b2 rest'].
      cbn [snd map] in *. rewrite IH.
      destruct (brickCollided collision); [now rewrite hitBrick_key | reflexivity].
Qed.

Lemma PICKUP_VALUES_positive (t : PickupType) : (1 <= PICKUP_VALUES t)%Z.
Proof. destruct t; cbn; lia. Qed.

Lemma collectPickups_keys (renderer : Renderer.t) (b : Ball) (ps : list Pickup)
    (count : Z) :
  map pickupKey (fst (collectPickups renderer b ps count)) = map pickupKey ps
  /\ (count <= snd (collectPickups renderer b ps count))%Z.
Proof.
  revert count; induction ps as [| pickup rest IH]; intros count;
    cbn [collectPickups].
  - cbn. split; [reflexivity | lia].
  - destruct (collected pickup).
    + destruct (IH count) as [IH1 IH2].
      destruct (collectPickups renderer b rest count) as [rest' count'].
      cbn [fst snd map] in *. now rewrite IH1.
    + destruct (checkPickupCollision _ _ _ _ _).
      * destruct (IH (count + PICKUP_VALUES (type pickup))%Z) as [IH1 IH2].
        destruct (collectPickups renderer b rest _) as [rest' count'].
        cbn [fst snd map] in *. rewrite IH1.
        pose proof (PICKUP_VALUES_positive (type pickup)).
        split; [reflexivity | lia].
      * destruct (IH count) as [IH1 IH2].
        destruct (collectPickups renderer b rest count) as [rest' count'].
        cbn [fst snd map] in *. now rewrite IH1.
Qed.

Lemma quietStep_refl (g : Game) : quietStep g g.
Proof. unfold quietStep. repeat split; lia. Qed.

Lemma quietStep_trans (g g1 g2 : Game) :
  quietStep g g1 -> quietStep g1 g2 -> quietStep g g2.
Proof.
  unfold quietStep. intros (A1 & A2 & A3 & A4 & A5) (B1 & B2 & B3 & B4 & B5).
  repeat split; try congruence. lia.
Qed.

Lemma gameInvariant_quiet (variant : ManagerVariant) (g g' : Game) :
  gameInvariant variant g -> quietStep g g' ->
  state g' <> launching -> previousState g' <> launching ->
  (state g = gameOver -> state g' = gameOver) ->
  gameInvariant variant g'.
Proof.
  intros (Hl & Hc & Hs & Hp & Hb) (Q1 & Q2 & Q3 & Q4 & Q5) Hs' Hp' Hover.
  unfold gameInvariant. rewrite Q1, Q2, Q3, Q4.
  split; [exact Hl|]. split; [lia|]. split; [exact Hs'|]. split; [exact Hp'|].
  destruct (state g) eqn:E; cbn [isOver] in Hb;
    try (apply boardOk_over; exact Hb).
  rewrite (Hover eq_refl). exact Hb.
Qed.

Lemma pushBalls_quiet (count : nat) (dir : Vector2) (launchY speed : R) (g : Game) :
  quietStep g (pushBalls count dir launchY speed g)
  /\ state (pushBalls count dir launchY speed g) = state g
  /\ previousState (pushBalls count dir launchY speed g) = previousState g.
Proof.
  revert g; induction count as [| count IH]; intros g; cbn [pushBalls].
  - split; [apply quietStep_refl | split; reflexivity].
  - destruct (IH (set_nextBallId (nextBallId g + 1)
                    (set_balls (balls g ++ [{| id := nextBallId g;
                       position := {| x := x (launchPosition g); y := launchY |};
                       velocity := {| x := x dir * speed; y := y dir * speed |};
                       active := false |}]) g))) as (Q & Hs & Hp).
    split; [|split; [rewrite Hs | rewrite Hp]; reflexivity].
    eapply quietStep_trans; [|exact Q].
    unfold quietStep. cbn. repeat split; lia.
Qed.

Lemma launchBalls_quiet (renderer : Renderer.t) (g : Game) :
  quietStep g (launchBalls renderer g)
  /\ (state (launchBalls renderer g) = state g
      \/ state (launchBalls renderer g) = animating)
  /\ previousState (launchBalls renderer g) = previousState g.
Proof.
  unfold launchBalls. destruct (aimDirection g) as [dir|].
  - cbv zeta.
    match goal with
    | |- context [pushBalls ?n ?d ?ly ?sp ?g0] =>
        destruct (pushBalls_quiet n d ly sp g0) as (Q & Hs & Hp);
        set (g6 := pushBalls n d ly sp g0) in *
    end.
    split; [|split; [right; reflexivity | cbn; rewrite Hp; reflexivity]].
    destruct Q as (Q1 & Q2 & Q3 & Q4 & Q5). unfold quietStep. cbn in *.
    repeat split; assumption.
  - split; [apply quietStep_refl | split; [left|]; reflexivity].
Qed.

Lemma aimMoveStep_quiet (renderer : Renderer.t) (pos : Vector2) (launchY : R)
    (g : Game) :
  quietStep g (aimMoveStep renderer pos launchY g)
  /\ state (aimMoveStep renderer pos launchY g) = state g
  /\ previousState (aimMoveStep renderer pos launchY g) = previousState g.
Proof.
  unfold aimMoveStep.
  destruct (_ && _);
    [split; [unfold quietStep; cbn; repeat split; lia | split; reflexivity]|].
  cbv zeta. destruct (_ >? _);
    (split; [unfold quietStep; cbn; repeat split; lia | split; reflexivity]).
Qed.

Lemma handleAimingInput_quiet (renderer : Renderer.t) (ty : InputEventType)
    (pos : Vector2) (g : Game) :
  quietStep g (handleAimingInput renderer ty pos g)
  /\ (state (handleAimingInput renderer ty pos g) = state g
      \/ state (handleAimingInput renderer ty pos g) = animating
      \/ state (handleAimingInput renderer ty pos g) = paused)
  /\ (previousState (handleAimingInput renderer ty pos g) = previousState g
      \/ previousState (handleAimingInput renderer ty pos g) = aiming).
Proof.
  unfold handleAimingInput; cbv zeta.
  destruct ty; cbn [set_isMovingLaunchPoint].
  - destruct (_ && _);
      (split; [unfold quietStep; cbn; repeat split; lia|]);
      (split; [left | left]; reflexivity).
  - destruct (aimMoveStep_quiet renderer pos (Renderer.getLaunchZoneY renderer) g)
      as (Q & Hs & Hp).
    set (g2 := aimMoveStep renderer pos (Renderer.getLaunchZoneY renderer) g) in *.
    split; [|split; [left | left]; cbn; assumption].
    destruct Q as (Q1 & Q2 & Q3 & Q4 & Q5). unfold quietStep. cbn.
    repeat split; assumption.
  - destruct (_ && _).
    + destruct (launchBalls_quiet renderer g) as (Q & Hs & Hp).
      set (g2 := launchBalls renderer g) in *.
      split; [|split; [destruct Hs; [left | right; left] | left];
               cbn; assumption].
      destruct Q as (Q1 & Q2 & Q3 & Q4 & Q5). unfold quietStep. cbn.
      repeat split; assumption.
    + split; [unfold quietStep; cbn; repeat split; lia|].
      split; [left | left]; reflexivity.
  - destruct (isPauseRequest pos).
    + split; [unfold quietStep; cbn; repeat split; lia|].
      split; [right; right | right]; reflexivity.
    + split; [unfold quietStep; cbn; repeat split; lia|].
      split; [left | left]; reflexivity.
  - split; [unfold quietStep; cbn; repeat split; lia|].
    split; [left | left]; reflexivity.
  - split; [unfold quietStep; cbn; repeat split; lia|].
    split; [left | left]; reflexivity.
Qed.

Lemma stepBall_quiet (renderer : Renderer.t) (deltaTime : R) (b : Ball) (g : Game) :
  quietStep g (snd (stepBall renderer deltaTime b g))
  /\ state (snd (stepBall renderer deltaTime b g)) = state g
  /\ previousState (snd (stepBall renderer deltaTime b g)) = previousState g.
Proof.
  unfold stepBall.
  destruct (negb (active b));
    [split; [apply quietStep_refl | split; reflexivity]|].
  destruct (checkWallCollision _ _) as [b2 w].
  pose proof (collideBricks_keys renderer b2 (bricks g)) as Hk.
  destruct (collideBricks renderer b2 (bricks g)) as [b3 bricks'].
  cbn [snd] in Hk.
  cbn [pickups ballCount set_bricks].
  destruct (collectPickups_keys renderer b3 (pickups g) (ballCount g))
    as [Hp Hc].
  destruct (collectPickups renderer b3 (pickups g) (ballCount g))
    as [pickups' count'].
  cbn [fst snd] in Hp, Hc.
  destruct (checkBottomCollision _ _).
  - cbn [snd]. destruct (nextLaunchPosition _);
      (split; [unfold quietStep; cbn; repeat split; assumption
              | split; reflexivity]).
  - cbn [snd]. split; [unfold quietStep; cbn; repeat split; assumption
                      | split; reflexivity].
Qed.

Lemma stepBalls_quiet (renderer : Renderer.t) (deltaTime : R) (bs : list Ball)
    (g : Game) :
  quietStep g (snd (stepBalls renderer deltaTime bs g))
  /\ state (snd (stepBalls renderer deltaTime bs g)) = state g
  /\ previousState (snd (stepBalls renderer deltaTime bs g)) = previousState g.
Proof.
  revert g; induction bs as [| b rest IH]; intros g; cbn [stepBalls].
  - split; [apply quietStep_refl | split; reflexivity].
  - destruct (stepBall_quiet renderer deltaTime b g) as (Q1 & S1 & P1).
    destruct (stepBall renderer deltaTime b g) as [b' g1]. cbn [snd] in *.
    destruct (IH g1) as (Q2 & S2 & P2).
    destruct (stepBalls renderer deltaTime rest g1) as [rest' g2].
    cbn [snd] in *.
    split; [eapply quietStep_trans; eassumption|].
    split; congruence.
Qed.

Ltac quiet_fields := unfold quietStep; cbn; repeat split; lia.

Section StepInvariant.

Variable random : nat -> R.
Variable variant : ManagerVariant.
Variable weights : PickupTable.
Variable renderer : Renderer.t.

(** A property of the game that the quiet steps, a restart and the end of
    a turn keep is kept by every input and every frame. *)
Variable Inv : Game -> Prop.

Hypothesis Inv_quiet : forall g g',
  Inv g -> quietStep g g' ->
  state g' <> launching -> previousState g' <> launching ->
  (state g = gameOver -> state g' = gameOver) -> Inv g'.
Hypothesis Inv_start : forall g,
  Inv g -> Inv (startGame random variant weights renderer g).
Hypothesis Inv_end : forall g,
  Inv g -> state g = animating -> Inv (endTurn random variant weights g).
Hypothesis Inv_state : forall g, Inv g -> state g <> launching.
Hypothesis Inv_prev : forall g, Inv g -> previousState g <> launching.

Lemma updateAnimating_preserves (currentTime deltaTime : R) (g : Game) :
  Inv g -> state g = animating ->
  Inv (updateAnimating random variant weights renderer currentTime deltaTime g).
Proof.
  intros H Hst. unfold updateAnimating; cbv zeta.
  match goal with
  | |- context [stepBalls renderer deltaTime (balls ?g0) ?g0] =>
      set (g1 := g0);
      assert (H1 : quietStep g g1 /\ state g1 = state g
                   /\ previousState g1 = previousState g)
  end.
  { subst g1. destruct (_ && _);
      [|split; [apply quietStep_refl | split; reflexivity]].
    destruct (nth_error _ _);
      (split; [unfold quietStep; cbn; repeat split; lia | split; reflexivity]). }
  clearbody g1. destruct H1 as (Q1 & S1 & P1).
  destruct (stepBalls_quiet renderer deltaTime (balls g1) g1) as (Q2 & S2 & P2).
  destruct (stepBalls renderer deltaTime (balls g1) g1) as [balls' g2].
  cbn [snd] in *.
  assert (H3 : Inv (set_balls balls' g2)).
  { apply Inv_quiet with (g := g); [exact H | | | |].
    - eapply quietStep_trans; [exact Q1|].
      destruct Q2 as (A1 & A2 & A3 & A4 & A5). unfold quietStep. cbn.
      repeat split; assumption.
    - cbn. rewrite S2, S1, Hst. discriminate.
    - cbn. rewrite P2, P1. exact (Inv_prev g H).
    - rewrite Hst. discriminate. }
  destruct (_ && _); [|exact H3].
  apply Inv_end; [exact H3|].
  cbn. now rewrite S2, S1.
Qed.

Lemma update_preserves (currentTime deltaTime : R) (g : Game) :
  Inv g ->
  Inv (update random variant weights renderer currentTime deltaTime g).
Proof.
  intros H. unfold update; cbv zeta.
  set (g1 := match state g with
             | animating =>
                 updateAnimating random variant weights renderer
                   currentTime deltaTime g
             | _ => g
             end).
  assert (H1 : Inv g1).
  { subst g1. destruct (state g) eqn:E; try exact H.
    now apply updateAnimating_preserves. }
  clearbody g1.
  apply Inv_quiet with (g := g1); [exact H1 | | | |].
  - unfold quietStep, updateCollectedPickups, updateDestroyingBricks.
    cbn [bricks pickups gridManager level ballCount set_pickups set_bricks].
    rewrite !map_map.
    split; [|split; [|repeat split; lia]].
    + apply map_ext. intros b. destruct (destroying b); reflexivity.
    + apply map_ext. intros p. destruct (collected p); reflexivity.
  - cbn. exact (Inv_state g1 H1).
  - cbn. exact (Inv_prev g1 H1).
  - cbn. auto.
Qed.

Lemma handleInput_preserves (event : InputEvent) (g : Game) :
  Inv g ->
  Inv (handleInput random variant weights renderer event g).
Proof.
  intros H. pose proof (Inv_state g H) as Hs. pose proof (Inv_prev g H) as Hp.
  unfold handleInput; cbv zeta.
  destruct (state g) eqn:Hst.
  - unfold handleMenuInput.
    destruct (eventType event); try exact H;
      (destruct (isPointInBounds _ _); [now apply Inv_start|]);
      (destruct (isPointInBounds _ _); [|exact H]);
      (apply Inv_quiet with (g := g);
       [exact H | quiet_fields | cbn; discriminate | cbn; discriminate
       | rewrite Hst; discriminate]).
  - destruct (handleAimingInput_quiet renderer (eventType event)
                (eventPosition event) g) as (Q & S & P).
    apply Inv_quiet with (g := g); [exact H | exact Q | | |].
    + destruct S as [S | [S | S]]; rewrite S; [rewrite Hst| |]; discriminate.
    + destruct P as [P | P]; rewrite P; [exact Hp | discriminate].
    + rewrite Hst. discriminate.
  - congruence.
  - unfold handleAnimatingInput.
    destruct (eventType event); try exact H.
    destruct (isPointInBounds _ _).
    + apply Inv_quiet with (g := g); [exact H | | | |].
      * unfold cycleSpeed, quietStep.
        destruct (speedMultiplier g); cbn; repeat split; lia.
      * unfold cycleSpeed. destruct (speedMultiplier g); cbn; rewrite Hst;
          discriminate.
      * unfold cycleSpeed. destruct (speedMultiplier g); exact Hp.
      * rewrite Hst. discriminate.
    + destruct (isPauseRequest _); [|exact H].
      apply Inv_quiet with (g := g);
        [exact H | quiet_fields | cbn; discriminate | cbn; discriminate
        | rewrite Hst; discriminate].
  - unfold handlePausedInput.
    destruct (eventType event); try exact H;
      (destruct (isPointInBounds _ _);
       [apply Inv_quiet with (g := g);
        [exact H | quiet_fields | cbn; exact Hp | cbn; exact Hp
        | rewrite Hst; discriminate]|]);
      (destruct (isPointInBounds _ _); [now apply Inv_start|]);
      (destruct (isPointInBounds _ _); [|exact H]);
      (apply Inv_quiet with (g := g);
       [exact H | quiet_fields | cbn; discriminate | cbn; discriminate
       | rewrite Hst; discriminate]).
  - unfold handleGameOverInput.
    destruct (eventType event); try exact H;
      (destruct (isPointInBounds _ _);
       [now apply Inv_start | exact H]).
  - unfold handleSettingsInput.
    destruct (eventType event); try exact H;
      (destruct (isPointInBounds _ _);
       [apply Inv_quiet with (g := g);
        [exact H | quiet_fields | cbn; rewrite Hst; discriminate
        | cbn; exact Hp | rewrite Hst; discriminate]|]);
      (destruct (isPointInBounds _ _); [|exact H]);
      (apply Inv_quiet with (g := g);
       [exact H | quiet_fields | cbn; exact Hp | cbn; exact Hp
       | rewrite Hst; discriminate]).
Qed.

Lemma run_preserves (actions : list GameAction) (g : Game) :
  Inv g ->
  Inv (run random variant weights renderer actions g).
Proof.
  unfold run. revert g; induction actions as [| a rest IH]; intros g H;
    cbn [fold_left]; [exact H|].
  apply IH. destruct a; cbn [step];
    [now apply handleInput_preserves | now apply update_preserves].
Qed.

End StepInvariant.

Section GameInvariant.

Variable random : nat -> R.
Variable variant : ManagerVariant.
Variable weights : PickupTable.
Variable renderer : Renderer.t.
Hypothesis random_in_range : validRandom random.

Lemma managerSpawn_run (lvl : Z) (s : GridManager) :
  exists baseHits bricks pickups s',
    managerSpawn random variant weights lvl s = (bricks, pickups, s')
    /\ rowSpawned baseHits (spawnRow variant) s bricks pickups s'.
Proof.
  unfold managerSpawn, spawnRow. destruct variant.
  - destruct (spawnNewRowWeighted_run random weights lvl s random_in_range)
      as (bs & ps & s' & E & H & _).
    exists lvl, bs, ps, s'. auto.
  - destruct (spawnNewRow_run random lvl 1 s random_in_range)
      as (bs & ps & s' & E & H & _).
    exists (Z.max 1 lvl), bs, ps, s'. auto.
Qed.

Lemma spawnRow_in_grid : (0 <= spawnRow variant < GRID_ROWS)%Z.
Proof. unfold spawnRow, GRID_ROWS. destruct variant; lia. Qed.

Lemma gameSpawnNewRow_board (g : Game) :
  boardOk (spawnRow variant + 1) false (gridManager g)
    (map brickKey (bricks g)) (map pickupKey (pickups g)) ->
  boardOk (spawnRow variant) false
    (gridManager (gameSpawnNewRow random variant weights g))
    (map brickKey (bricks (gameSpawnNewRow random variant weights g)))
    (map pickupKey (pickups (gameSpawnNewRow random variant weights g)))
  /\ level (gameSpawnNewRow random variant weights g) = level g
  /\ ballCount (gameSpawnNewRow random variant weights g) = ballCount g
  /\ state (gameSpawnNewRow random variant weights g) = state g
  /\ previousState (gameSpawnNewRow random variant weights g) = previousState g.
Proof.
  intros H. unfold gameSpawnNewRow.
  destruct (managerSpawn_run (level g) (gridManager g))
    as (base & nb & np & gm' & E & Hrow).
  rewrite E. cbn. rewrite !map_app.
  split; [|repeat split].
  eapply boardOk_spawn; [apply spawnRow_in_grid | exact H | exact Hrow].
Qed.

Lemma startGame_gameInvariant (g : Game) :
  previousState g <> launching ->
  gameInvariant variant (startGame random variant weights renderer g).
Proof.
  intros Hp. unfold startGame; cbv zeta.
  match goal with
  | |- context [gameSpawnNewRow random variant weights ?g0] =>
      destruct (gameSpawnNewRow_board g0) as (Hb & Hl & Hc & Hs & Hpr);
        [apply boardOk_empty|];
      set (g12 := gameSpawnNewRow random variant weights g0) in *
  end.
  unfold gameInvariant. cbn [level ballCount state previousState gridManager
                             bricks pickups set_state isOver].
  rewrite Hl, Hc, Hpr. cbn.
  split; [lia|]. split; [lia|]. split; [discriminate|]. split; [exact Hp|].
  exact Hb.
Qed.

Lemma handleGameOver_fields (g : Game) :
  bricks (handleGameOver g) = bricks g
  /\ pickups (handleGameOver g) = pickups g
  /\ gridManager (handleGameOver g) = gridManager g
  /\ level (handleGameOver g) = level g
  /\ ballCount (handleGameOver g) = ballCount g
  /\ state (handleGameOver g) = gameOver
  /\ previousState (handleGameOver g) = previousState g.
Proof.
  unfold handleGameOver.
  destruct (easyMode _); destruct (_ >? _)%Z; repeat split.
Qed.

Lemma checkGameOver_false (bs : list Brick) :
  checkGameOver bs = false ->
  Forall (fun k => (snd (snd k) < GRID_ROWS)%Z) (map brickKey bs).
Proof.
  unfold checkGameOver. intros H. apply Forall_map, Forall_forall.
  intros b Hb. cbn.
  destruct (gridY b >=? GRID_ROWS)%Z eqn:E; [|lia].
  exfalso. assert (Ht : existsb (fun brick => (gridY brick >=? GRID_ROWS)%Z) bs
                        = true).
  { apply existsb_exists. exists b. auto. }
  congruence.
Qed.

Lemma endTurn_gameInvariant (g : Game) :
  gameInvariant variant g -> state g = animating ->
  gameInvariant variant (endTurn random variant weights g).
Proof.
  intros (Hl & Hc & Hs & Hp & Hb) Hst. rewrite Hst in Hb. cbn [isOver] in Hb.
  unfold endTurn; cbv zeta.
  set (g2 := match nextLaunchPosition (set_balls [] g) with
             | Some p => set_launchPosition p (set_balls [] g)
             | None => set_balls [] g
             end).
  assert (H2 : bricks g2 = bricks g /\ pickups g2 = pickups g
               /\ gridManager g2 = gridManager g /\ level g2 = level g
               /\ ballCount g2 = ballCount g
               /\ previousState g2 = previousState g).
  { subst g2; destruct (nextLaunchPosition _); repeat split. }
  destruct H2 as (Eb & Ep & Eg & El & Ec & Epr). clearbody g2.
  cbn [bricks pickups set_pickups set_bricks].
  rewrite removeBottomPickups_movePickupsDown.
  set (bs1 := filter (fun b => negb (destroying b) || (destroyProgress b <? 1))
                (bricks g2)).
  set (ps1 := filter (fun pickup => (pickupGridY pickup + 1 <? GRID_ROWS)%Z)
                (filter (fun p => negb (collected p) || (collectProgress p <? 1))
                   (pickups g2))).
  assert (Hdown : boardOk (spawnRow variant + 1) true (gridManager g)
                    (map brickKey (moveBricksDown bs1))
                    (map pickupKey (movePickupsDown ps1))).
  { rewrite moveBricksDown_keys, movePickupsDown_keys.
    apply boardOk_down.
    - subst bs1 ps1. rewrite Eb, Ep.
      apply boardOk_filter with (ps := filter _ (pickups g)).
      pose proof (boardOk_filter _ _ _ (fun _ => true)
                    (fun p => negb (collected p) || (collectProgress p <? 1))
                    _ _ Hb) as Hf.
      rewrite (filter_all (fun _ : Brick => true)) in Hf by reflexivity.
      exact Hf.
    - subst ps1. apply Forall_map, Forall_forall. intros p Hin.
      apply filter_In in Hin. destruct Hin as [_ Hin]. cbn. lia. }
  destruct (checkGameOver (moveBricksDown bs1)) eqn:Eover.
  - match goal with
    | |- gameInvariant variant (handleGameOver ?g7) =>
        destruct (handleGameOver_fields g7) as (F1 & F2 & F3 & F4 & F5 & F6 & F7)
    end.
    unfold gameInvariant. rewrite F1, F2, F3, F4, F5, F6, F7. cbn.
    rewrite Eg, El, Ec, Epr.
    split; [exact Hl|]. split; [exact Hc|]. split; [discriminate|].
    split; [exact Hp|].
    apply boardOk_firstRow. exact Hdown.
  - pose proof (boardOk_not_over _ _ _ _ Hdown (checkGameOver_false _ Eover))
      as Hdown'.
    match goal with
    | |- context [gameSpawnNewRow random variant weights ?g8] =>
        destruct (gameSpawnNewRow_board g8) as (Hb' & Hl' & Hc' & Hs' & Hpr');
          [cbn; rewrite Eg; exact Hdown'|];
        set (g9 := gameSpawnNewRow random variant weights g8) in *
    end.
    unfold gameInvariant. cbn. rewrite Hl', Hc', Hpr'. cbn.
    rewrite El, Ec, Epr.
    split; [lia|]. split; [exact Hc|]. split; [discriminate|].
    split; [exact Hp|]. exact Hb'.
Qed.

Lemma run_gameInvariant (actions : list GameAction) (g : Game) :
  gameInvariant variant g ->
  gameInvariant variant (run random variant weights renderer actions g).
Proof.
  apply (run_preserves random variant weights renderer (gameInvariant variant)).
  - apply gameInvariant_quiet.
  - intros g0 H. apply startGame_gameInvariant. apply H.
  - apply endTurn_gameInvariant.
  - intros g0 H. apply H.
  - intros g0 H. apply H.
Qed.

Lemma newGame_gameInvariant (gm : GridManager) (saved : GameSettings)
    (scores : HighScores) :
  gameInvariant variant (newGame renderer gm saved scores).
Proof.
  unfold gameInvariant. cbn.
  split; [lia|]. split; [lia|]. split; [discriminate|]. split; [discriminate|].
  apply boardOk_empty.
Qed.

End GameInvariant.

(** ** The level, the ball count and the state *)

Lemma countersOk_quiet (g g' : Game) :
  countersOk g -> quietStep g g' ->
  state g' <> launching -> previousState g' <> launching ->
  (state g = gameOver -> state g' = gameOver) -> countersOk g'.
Proof.
  intros (Hl & Hc & _) (_ & _ & _ & Q4 & Q5) Hs Hp _.
  unfold countersOk. rewrite Q4. repeat split; try assumption. lia.
Qed.

Lemma gameSpawnNewRow_counters (random : nat -> R) (variant : ManagerVariant)
    (weights : PickupTable) (g : Game) :
  level (gameSpawnNewRow random variant weights g) = level g
  /\ ballCount (gameSpawnNewRow random variant weights g) = ballCount g
  /\ state (gameSpawnNewRow random variant weights g) = state g
  /\ previousState (gameSpawnNewRow random variant weights g) = previousState g.
Proof.
  unfold gameSpawnNewRow.
  destruct (managerSpawn random variant weights (level g) (gridManager g))
    as [[newBricks newPickups] gm].
  repeat split.
Qed.

Lemma startGame_countersOk (random : nat -> R) (variant : ManagerVariant)
    (weights : PickupTable) (renderer : Renderer.t) (g : Game) :
  countersOk g -> countersOk (startGame random variant weights renderer g).
Proof.
  intros (_ & _ & _ & Hp). unfold startGame; cbv zeta.
  match goal with
  | |- context [gameSpawnNewRow random variant weights ?g0] =>
      destruct (gameSpawnNewRow_counters random variant weights g0)
        as (Hl & Hc & _ & Hpr);
      set (g12 := gameSpawnNewRow random variant weights g0) in *
  end.
  unfold countersOk. cbn [level ballCount state previousState set_state].
  rewrite Hl, Hc, Hpr. cbn.
  split; [lia|]. split; [lia|]. split; [discriminate | exact Hp].
Qed.

Lemma endTurn_countersOk (random : nat -> R) (variant : ManagerVariant)
    (weights : PickupTable) (g : Game) :
  countersOk g -> state g = animating ->
  countersOk (endTurn random variant weights g).
Proof.
  intros (Hl & Hc & _ & Hp) _. unfold endTurn; cbv zeta.
  set (g2 := match nextLaunchPosition (set_balls [] g) with
             | Some p => set_launchPosition p (set_balls [] g)
             | None => set_balls [] g
             end).
  assert (H2 : level g2 = level g /\ ballCount g2 = ballCount g
               /\ previousState g2 = previousState g).
  { subst g2; destruct (nextLaunchPosition _); repeat split. }
  destruct H2 as (El & Ec & Epr). clearbody g2.
  destruct (checkGameOver _).
  - match goal with
    | |- countersOk (handleGameOver ?g7) =>
        destruct (handleGameOver_fields g7) as (_ & _ & _ & F4 & F5 & F6 & F7)
    end.
    unfold countersOk. rewrite F4, F5, F6, F7. cbn. rewrite El, Ec, Epr.
    split; [exact Hl|]. split; [exact Hc|]. split; [discriminate | exact Hp].
  - match goal with
    | |- context [gameSpawnNewRow random variant weights ?g8] =>
        destruct (gameSpawnNewRow_counters random variant weights g8)
          as (Hl' & Hc' & _ & Hpr');
        set (g9 := gameSpawnNewRow random variant weights g8) in *
    end.
    unfold countersOk. cbn. rewrite Hl', Hc', Hpr'. cbn. rewrite El, Ec, Epr.
    split; [lia|]. split; [exact Hc|]. split; [discriminate | exact Hp].
Qed.

Lemma run_countersOk (random : nat -> R) (variant : ManagerVariant)
    (weights : PickupTable) (renderer : Renderer.t)
    (actions : list GameAction) (g : Game) :
  countersOk g ->
  countersOk (run random variant weights renderer actions g).
Proof.
  apply (run_preserves random variant weights renderer countersOk).
  - apply countersOk_quiet.
  - apply startGame_countersOk.
  - apply endTurn_countersOk.
  - intros g0 H. apply H.
  - intros g0 H. apply H.
Qed.

(** In every state that the game reaches from its start, through any
    inputs and frames, for either manager and for every outcome of
    [Math.random], the level and the ball count are at least 1, and the game
    is never left in the state [launching], which [launchBalls] enters and
    leaves in one call. *)
Theorem reachable_level_ballCount_state
    (random : nat -> R) (variant : ManagerVariant) (weights : PickupTable)
    (renderer : Renderer.t) (gm : GridManager) (saved : GameSettings)
    (scores : HighScores) (actions : list GameAction) :
  (1 <= level (run random variant weights renderer actions
                 (newGame renderer gm saved scores)))%Z
  /\ (1 <= ballCount (run random variant weights renderer actions
                        (newGame renderer gm saved scores)))%Z
  /\ state (run random variant weights renderer actions
              (newGame renderer gm saved scores)) <> launching.
Proof.
  destruct (run_countersOk random variant weights renderer actions
              (newGame renderer gm saved scores)) as (Hl & Hc & Hs & _).
  - unfold countersOk. cbn.
    split; [lia|]. split; [lia|]. split; discriminate.
  - auto.
Qed.

(** In every state that the game reaches from its start, with [Math.random]
    in its range, no two entities of the board, bricks or pickups, stand in
    the same cell; every brick and every pickup is in a column of the grid
    and not above the row in which the manager spawns; a pickup is above
    the row [GRID_ROWS], and so is a brick unless the game is over, when it
    may stand in the row [GRID_ROWS] itself. *)
Theorem reachable_cells_distinct
    (random : nat -> R) (variant : ManagerVariant) (weights : PickupTable)
    (renderer : Renderer.t) (gm : GridManager) (saved : GameSettings)
    (scores : HighScores) (actions : list GameAction) :
  validRandom random ->
  let g := run random variant weights renderer actions
             (newGame renderer gm saved scores) in
  NoDup (map brickCell (bricks g) ++ map pickupCell (pickups g))
  /\ Forall (fun brick =>
               (0 <= gridX brick < GRID_COLS)%Z
               /\ (spawnRow variant <= gridY brick <= GRID_ROWS)%Z
               /\ (state g <> gameOver -> (gridY brick < GRID_ROWS)%Z))
            (bricks g)
  /\ Forall (fun pickup =>
               (0 <= pickupGridX pickup < GRID_COLS)%Z
               /\ (spawnRow variant <= pickupGridY pickup < GRID_ROWS)%Z)
            (pickups g).
Proof.
  intros Hr g.
  destruct (run_gameInvariant random variant weights renderer Hr actions
              (newGame renderer gm saved scores)
              (newGame_gameInvariant variant renderer gm saved scores))
    as (_ & _ & _ & _ & Hc & Hb & Hp & _).
  fold g in Hc, Hb, Hp. rewrite !map_map in Hc.
  split; [exact Hc|]. split.
  - apply (proj1 (Forall_map _ _ _)) in Hb. eapply Forall_impl; [|exact Hb].
    unfold inGrid, brickKey, brickCell. cbn [fst snd]. intros b (Hx & Hy).
    split; [exact Hx|].
    destruct (state g); cbn [isOver] in Hy;
      (split; [lia | intros Hne; try congruence; lia]).
  - apply (proj1 (Forall_map _ _ _)) in Hp. eapply Forall_impl; [|exact Hp].
    unfold inGrid, pickupKey, pickupCell. cbn [fst snd]. intros p (Hx & Hy).
    split; [exact Hx | lia].
Qed.

Lemma reachable_cells_distinct_witness :
  NoDup
    (map brickCell
       (bricks (run (fun _ => 0.5) IntervalPickups PICKUP_WEIGHTS renderer350
                  [Input (tapPlay renderer350); Frame 0 0.016]
                  (newGame renderer350
                     {| nextBrickId := 0; nextPickupId := 0; drawn := 0 |}
                     {| easyMode := false; soundEnabled := true;
                        vibrationEnabled := true |}
                     {| normal_ := 0; easy := 0 |})))
     ++ map pickupCell
          (pickups (run (fun _ => 0.5) IntervalPickups PICKUP_WEIGHTS renderer350
                      [Input (tapPlay renderer350); Frame 0 0.016]
                      (newGame renderer350
                         {| nextBrickId := 0; nextPickupId := 0; drawn := 0 |}
                         {| easyMode := false; soundEnabled := true;
                            vibrationEnabled := true |}
                         {| normal_ := 0; easy := 0 |})))).
Proof.
  apply (reachable_cells_distinct (fun _ => 0.5) IntervalPickups
           PICKUP_WEIGHTS renderer350
           {| nextBrickId := 0; nextPickupId := 0; drawn := 0 |}
           {| easyMode := false; soundEnabled := true;
              vibrationEnabled := true |}
           {| normal_ := 0; easy := 0 |}
           [Input (tapPlay renderer350); Frame 0 0.016]).
  intros n; lra.
Defined.

(** In every state that the game reaches from its start, with [Math.random]
    in its range, the ids of the bricks on the board are pairwise different
    and below the brick counter of the manager, and so are the ids of the
    pickups for the pickup counter: a restart, which keeps the manager,
    never hands out an id again. *)
Theorem reachable_ids_distinct
    (random : nat -> R) (variant : ManagerVariant) (weights : PickupTable)
    (renderer : Renderer.t) (gm : GridManager) (saved : GameSettings)
    (scores : HighScores) (actions : list GameAction) :
  validRandom random ->
  let g := run random variant weights renderer actions
             (newGame renderer gm saved scores) in
  NoDup (map brickId (bricks g))
  /\ Forall (fun brick => (brickId brick < nextBrickId (gridManager g))%Z)
            (bricks g)
  /\ NoDup (map pickupId (pickups g))
  /\ Forall (fun pickup => (pickupId pickup < nextPickupId (gridManager g))%Z)
            (pickups g).
Proof.
  intros Hr g.
  destruct (run_gameInvariant random variant weights renderer Hr actions
              (newGame renderer gm saved scores)
              (newGame_gameInvariant variant renderer gm saved scores))
    as (_ & _ & _ & _ & _ & _ & _ & Hbi & Hbn & Hpi & Hpn).
  fold g in Hbi, Hbn, Hpi, Hpn. rewrite !map_map in Hbi, Hpi.
  apply (proj1 (Forall_map _ _ _)) in Hbn.
  apply (proj1 (Forall_map _ _ _)) in Hpn.
  split; [exact Hbi|]. split; [exact Hbn|]. split; [exact Hpi | exact Hpn].
Qed.

Lemma reachable_ids_distinct_witness :
  NoDup
    (map brickId
       (bricks (run (fun _ => 0.5) WeightedPickups PICKUP_WEIGHTS renderer350
                  [Input (tapPlay renderer350); Frame 0 0.016]
                  (newGame renderer350
                     {| nextBrickId := 0; nextPickupId := 0; drawn := 0 |}
                     {| easyMode := false; soundEnabled := true;
                        vibrationEnabled := true |}
                     {| normal_ := 0; easy := 0 |})))).
Proof.
  apply (reachable_ids_distinct (fun _ => 0.5) WeightedPickups
           PICKUP_WEIGHTS renderer350
           {| nextBrickId := 0; nextPickupId := 0; drawn := 0 |}
           {| easyMode := false; soundEnabled := true;
              vibrationEnabled := true |}
           {| normal_ := 0; easy := 0 |}
           [Input (tapPlay renderer350); Frame 0 0.016]).
  intros n; lra.
Defined.

(** ** Renderer.resize *)

Lemma resize_dims (containerWidth containerHeight : R) :
  0 < containerWidth -> 0 < containerHeight ->
  let rd := Renderer.resize containerWidth containerHeight in
  0 < Renderer.scale rd
  /\ Renderer.width rd = 350 * Renderer.scale rd
  /\ Renderer.height rd = 600 * Renderer.scale rd
  /\ Renderer.headerHeight rd = 48 * Renderer.scale rd
  /\ Renderer.launchZoneHeight rd = 60 * Renderer.scale rd
  /\ Renderer.gridHeight rd = 492 * Renderer.scale rd
  /\ Renderer.gridOffsetY rd = 48 * Renderer.scale rd
  /\ Renderer.cellWidth rd = 350 / 11 * Renderer.scale rd
  /\ Renderer.cellHeight rd = 492 / 11 * Renderer.scale rd
  /\ Renderer.ballRadius rd = 8 * Renderer.scale rd
  /\ Renderer.pickupRadius rd = 12 * Renderer.scale rd.
Proof.
  intros Hw Hh. unfold Renderer.resize.
  destruct (containerWidth / containerHeight >? 7 / 12);
    cbn [Renderer.scale Renderer.width Renderer.height Renderer.headerHeight
         Renderer.launchZoneHeight Renderer.gridHeight Renderer.gridOffsetY
         Renderer.cellWidth Renderer.cellHeight Renderer.ballRadius
         Renderer.pickupRadius];
    unfold HEADER_HEIGHT_RATIO, LAUNCH_ZONE_RATIO, GRID_COLS, GRID_ROWS;
    repeat split; try lra; field.
Qed.

(** For a container of positive size, [resize] gives the canvas the aspect
    7 : 12 and the largest size that fits the container: it is as wide or
    as high as the container.  The header, the [GRID_ROWS] rows of cells
    and the launch zone fill the height, the [GRID_COLS] columns of cells
    the width, and every length of the layout is its base value times the
    scale [width / 350]. *)
Theorem resize_layout (containerWidth containerHeight : R) :
  0 < containerWidth -> 0 < containerHeight ->
  let rd := Renderer.resize containerWidth containerHeight in
  0 < Renderer.scale rd
  /\ Renderer.width rd * 12 = Renderer.height rd * 7
  /\ Renderer.width rd <= containerWidth
  /\ Renderer.height rd <= containerHeight
  /\ (Renderer.width rd = containerWidth \/ Renderer.height rd = containerHeight)
  /\ Renderer.headerHeight rd + IZR GRID_ROWS * Renderer.cellHeight rd
     + Renderer.launchZoneHeight rd = Renderer.height rd
  /\ IZR GRID_COLS * Renderer.cellWidth rd = Renderer.width rd
  /\ Renderer.launchZoneTop rd = 540 * Renderer.scale rd
  /\ Renderer.getLaunchZoneY rd = 570 * Renderer.scale rd
  /\ Renderer.ballRadius rd = 8 * Renderer.scale rd.
Proof.
  intros Hw Hh rd.
  destruct (resize_dims containerWidth containerHeight Hw Hh)
    as (Hs & Ewidth & Eheight & Ehead & Elaunch & Egrid & Eoff & Ecw & Ech
        & Er & Epr).
  fold rd in Hs, Ewidth, Eheight, Ehead, Elaunch, Egrid, Eoff, Ecw, Ech, Er, Epr.
  unfold Renderer.launchZoneTop, Renderer.getLaunchZoneY, GRID_ROWS, GRID_COLS.
  rewrite Ehead, Elaunch, Egrid, Ech, Ecw, Er, Eheight.
  split; [exact Hs|]. split; [lra|].
  assert (Hfit : Renderer.width rd <= containerWidth
                 /\ Renderer.height rd <= containerHeight
                 /\ (Renderer.width rd = containerWidth
                     \/ Renderer.height rd = containerHeight)).
  { subst rd. unfold Renderer.resize.
    destruct (containerWidth / containerHeight >? 7 / 12) eqn:E;
      cbn [Renderer.width Renderer.height].
    - apply Rgtb_true in E.
      assert (H : 7 / 12 * containerHeight < containerWidth).
      { replace containerWidth
          with (containerWidth / containerHeight * containerHeight)
          by (field; lra).
        apply Rmult_lt_compat_r; lra. }
      split; [lra|]. split; [lra | now right].
    - apply Rgtb_false in E.
      assert (H : containerWidth <= 7 / 12 * containerHeight).
      { replace containerWidth
          with (containerWidth / containerHeight * containerHeight)
          by (field; lra).
        apply Rmult_le_compat_r; lra. }
      split; [lra|]. split; [|now left].
      replace (containerWidth / (7 / 12)) with (containerWidth * (12 / 7))
        by (field; lra).
      lra. }
  destruct Hfit as (F1 & F2 & F3).
  split; [exact F1|]. split; [rewrite <- Eheight; exact F2|].
  split; [rewrite <- Eheight; exact F3|].
  repeat split; lra.
Qed.

Lemma resize_layout_witness :
  0 < Renderer.scale (Renderer.resize 400 600)
  /\ Renderer.width (Renderer.resize 400 600) * 12
     = Renderer.height (Renderer.resize 400 600) * 7.
Proof.
  split; apply (resize_layout 400 600); lra.
Defined.

(** ** Game.updateAnimating: the frame in which a ball is launched *)

(** A ball whose centre is at or below the middle of a brick is not moved
    up by the collision with it. *)
Lemma checkBrickCollision_not_upward (ph : Physics) (b : Ball)
    (bounds : BrickBounds) :
  0 <= ballRadius ph -> top bounds <= bottom bounds ->
  (top bounds + bottom bounds) / 2 <= y (position b) ->
  y (position b) <= y (position (fst (checkBrickCollision ph b bounds))).
Proof.
  intros Hr Hb Hmid. unfold checkBrickCollision. cbv zeta.
  destruct (_ || _) eqn:Eout; [cbn; lra|].
  apply orb_false_iff in Eout. destruct Eout as [_ Ebelow].
  apply Rgtb_false in Ebelow.
  assert (Etop : (y (position b) <? top bounds) = false)
    by (apply Rltb_false; lra).
  rewrite Etop. cbn [orb].
  destruct (_ && _) eqn:Ecorner.
  - apply andb_true_iff in Ecorner. destruct Ecorner as [_ Ey].
    apply Rgtb_true in Ey.
    destruct (_ <=? _) eqn:Edist; [|cbn; lra].
    apply Rleb_true in Edist.
    cbn [fst position y setPositionY setPositionX setVelocityX setVelocityY].
    set (cx := if x (position b) <? left bounds then left bounds
               else right bounds) in *.
    set (dx := x (position b) - cx) in *.
    set (dy := y (position b) - bottom bounds) in *.
    assert (Hdy : 0 < dy) by (subst dy; lra).
    destruct (trig_atan2 dy dx) as [_ Hsin]; [right; lra|].
    rewrite Hsin.
    pose proof (hypot_pos_any dx dy ltac:(right; lra)) as Hpos.
    set (d := sqrt (dx ^ 2 + dy ^ 2)) in *.
    assert (Hq : dy <= dy / d * (ballRadius ph + 1)).
    { unfold Rdiv. rewrite Rmult_assoc.
      rewrite <- (Rmult_1_r dy) at 1.
      apply Rmult_le_compat_l; [lra|].
      apply (Rmult_le_reg_l d); [exact Hpos|].
      rewrite <- Rmult_assoc, Rinv_r by lra. lra. }
    subst dy. lra.
  - clear Ecorner.
    match goal with
    | |- context [if ?c then _ else _] => destruct c
    end.
    + match goal with
      | |- context [if ?c then _ else _] => destruct c
      end; cbn; lra.
    + match goal with
      | |- context [if ?c then _ else _] => destruct c eqn:Eface
      end.
      * apply Rltb_true in Eface. lra.
      * cbn. lra.
Qed.

Lemma collideBricks_not_upward (renderer : Renderer.t) (level0 : R)
    (bs : list Brick) (b : Ball) :
  0 <= Renderer.ballRadius renderer ->
  GRID_GAP * Renderer.getScale renderer <= Renderer.cellHeight renderer ->
  Forall (fun brick =>
            Renderer.gridOffsetY renderer
            + (IZR (gridY brick) + 1 / 2) * Renderer.cellHeight renderer
            <= level0) bs ->
  level0 <= y (position b) ->
  level0 <= y (position (fst (collideBricks renderer b bs))).
Proof.
  intros Hr Hgap Hall. revert b.
  induction Hall as [| brick rest Hbrick _ IH]; intros b Hb;
    cbn [collideBricks]; [exact Hb|].
  destruct (destroying brick).
  - specialize (IH b Hb). destruct (collideBricks renderer b rest) as [b' rest'].
    exact IH.
  - match goal with
    | |- context [checkBrickCollision ?ph b ?bounds] =>
        pose proof (checkBrickCollision_not_upward ph b bounds) as Hup
    end.
    cbn [ballRadius physics top bottom getBrickBounds] in Hup.
    specialize (Hup Hr ltac:(lra) ltac:(lra)).
    destruct (checkBrickCollision _ b _) as [b1 collision]. cbn [fst] in Hup.
    specialize (IH b1 ltac:(lra)).
    destruct (collideBricks renderer b1 rest) as [b2 rest']. exact IH.
Qed.

(** On a canvas that [resize] has laid out, a ball that starts a frame at
    the launch height, or below it, with at most the launch speed upwards,
    is taken out of play in that frame, and counted as returned, whenever
    [deltaTime * speedMultiplier] is at most 19/300 of a second: the launch
    height is 30 scaled units below [launchZoneTop] and the radius is 8, so
    the ball would have to rise by more than 38 units to pass the test of
    [checkBottomCollision], and no brick above the row [GRID_ROWS] moves it
    up. *)
Theorem launched_ball_returns_in_short_frame
    (containerWidth containerHeight deltaTime : R) (b : Ball) (g : Game) :
  0 < containerWidth -> 0 < containerHeight ->
  active b = true ->
  Renderer.getLaunchZoneY (Renderer.resize containerWidth containerHeight)
    <= y (position b) ->
  - (BALL_SPEED
     * Renderer.getScale (Renderer.resize containerWidth containerHeight))
    <= y (velocity b) ->
  0 <= deltaTime ->
  deltaTime * speedValue (speedMultiplier g) <= 19 / 300 ->
  Forall (fun brick => (gridY brick < GRID_ROWS)%Z) (bricks g) ->
  active (fst (stepBall (Renderer.resize containerWidth containerHeight)
                 deltaTime b g)) = false
  /\ ballsReturned (snd (stepBall (Renderer.resize containerWidth containerHeight)
                           deltaTime b g))
     = S (ballsReturned g).
Proof.
  intros Hw Hh Hact Hy Hv Hdt Hshort Hrows.
  destruct (resize_dims containerWidth containerHeight Hw Hh)
    as (Hs & Ewidth & Eheight & Ehead & Elaunch & Egrid & Eoff & Ecw & Ech
        & Er & Epr).
  set (rd := Renderer.resize containerWidth containerHeight) in *.
  set (s := Renderer.scale rd) in *.
  unfold Renderer.getLaunchZoneY, Renderer.getScale, BALL_SPEED in Hy, Hv.
  fold s in Hv. rewrite Ehead, Egrid, Elaunch in Hy.
  assert (Hm : 0 <= deltaTime * speedValue (speedMultiplier g)).
  { apply Rmult_le_pos; [exact Hdt|].
    destruct (speedMultiplier g); cbn; lra. }
  unfold stepBall. rewrite Hact. cbn [negb].
  set (b1 := updateBall b deltaTime (speedValue (speedMultiplier g))).
  assert (H1 : 532 * s <= y (position b1)).
  { subst b1. unfold updateBall. rewrite Hact.
    cbn [negb y position velocity setPositionX setPositionY].
    set (m := deltaTime * speedValue (speedMultiplier g)) in *.
    assert (- (600 * s) * m <= y (velocity b) * m)
      by (apply Rmult_le_compat_r; lra).
    assert (600 * s * m <= 600 * s * (19 / 300))
      by (apply Rmult_le_compat_l; lra).
    lra. }
  clearbody b1.
  assert (H2 : 532 * s <= y (position (fst (checkWallCollision (physics rd) b1)))).
  { unfold checkWallCollision. cbn [ballRadius physics].
    destruct (_ <=? _); [cbn; exact H1|].
    destruct (_ >=? _); [cbn; exact H1|].
    destruct (_ <=? _) eqn:E; [|cbn; exact H1].
    apply Rleb_true in E. rewrite Er in E. fold s in E. lra. }
  destruct (checkWallCollision (physics rd) b1) as [b2 w]. cbn [fst] in H2.
  assert (H3 : 532 * s <= y (position (fst (collideBricks rd b2 (bricks g))))).
  { apply collideBricks_not_upward.
    - rewrite Er. fold s. lra.
    - unfold GRID_GAP, Renderer.getScale. rewrite Ech. fold s. lra.
    - eapply Forall_impl; [|exact Hrows]. cbn beta. intros brick Hrow.
      rewrite Eoff, Ech. fold s. unfold GRID_ROWS in Hrow.
      assert (Hz : IZR (gridY brick) <= 10) by (apply IZR_le; lia).
      assert (IZR (gridY brick) * (492 / 11 * s) <= 10 * (492 / 11 * s))
        by (apply Rmult_le_compat_r; lra).
      lra.
    - exact H2. }
  destruct (collideBricks rd b2 (bricks g)) as [b3 bricks']. cbn [fst] in H3.
  cbn [pickups ballCount set_bricks].
  destruct (collectPickups rd b3 (pickups g) (ballCount g)) as [pickups' count'].
  assert (Hbottom : checkBottomCollision (physics rd) b3 = true).
  { unfold checkBottomCollision. apply Rgeb_true.
    cbn [ballRadius launchZoneTop physics]. unfold Renderer.launchZoneTop.
    rewrite Er, Ehead, Egrid. fold s. lra. }
  rewrite Hbottom. cbn [fst snd].
  split; [reflexivity|].
  destruct (nextLaunchPosition _); reflexivity.
Qed.

Lemma launched_ball_returns_in_short_frame_witness :
  active
    (fst (stepBall (Renderer.resize 350 600) (1 / 60)
            {| id := 0; position := {| x := 175; y := 570 |};
               velocity := {| x := 0; y := -600 |}; active := true |}
            (newGame (Renderer.resize 350 600)
               {| nextBrickId := 0; nextPickupId := 0; drawn := 0 |}
               {| easyMode := false; soundEnabled := true;
                  vibrationEnabled := true |}
               {| normal_ := 0; easy := 0 |}))) = false.
Proof.
  apply (launched_ball_returns_in_short_frame 350 600 (1 / 60)
           {| id := 0; position := {| x := 175; y := 570 |};
              velocity := {| x := 0; y := -600 |}; active := true |}
           (newGame (Renderer.resize 350 600)
              {| nextBrickId := 0; nextPickupId := 0; drawn := 0 |}
              {| easyMode := false; soundEnabled := true;
                 vibrationEnabled := true |}
              {| normal_ := 0; easy := 0 |})).
  - lra.
  - lra.
  - reflexivity.
  - unfold Renderer.getLaunchZoneY, Renderer.resize.
    assert (E : (350 / 600 >? 7 / 12) = false) by (apply Rgtb_false; lra).
    rewrite E. cbn. unfold HEADER_HEIGHT_RATIO, LAUNCH_ZONE_RATIO. lra.
  - unfold Renderer.getScale, Renderer.resize, BALL_SPEED.
    assert (E : (350 / 600 >? 7 / 12) = false) by (apply Rgtb_false; lra).
    rewrite E. cbn. lra.
  - lra.
  - cbn. lra.
  - constructor.
Defined.

(** ** GridManager: the rows after the turns *)

Lemma moveBricksDown_iter (n : nat) (bricks : list Brick) :
  Nat.iter n moveBricksDown bricks
  = map (fun brick => setGridY brick (gridY brick + Z.of_nat n)) bricks.
Proof.
  induction n as [| n IH].
  - change (Nat.iter 0 moveBricksDown bricks) with bricks.
    rewrite <- (map_id bricks) at 1. apply map_ext.
    intros b. destruct b. unfold setGridY. cbn. f_equal. lia.
  - change (Nat.iter (S n) moveBricksDown bricks)
      with (moveBricksDown (Nat.iter n moveBricksDown bricks)).
    rewrite IH. unfold moveBricksDown. rewrite map_map.
    apply map_ext. intros b. unfold setGridY. cbn. f_equal. lia.
Qed.

(** After [n] turns a brick has moved [n] rows down and is otherwise as it
    was, so the game is over after them exactly when some brick started
    within [n] rows of the row [GRID_ROWS]; the pickups that [endTurn] keeps
    after a move are the moved pickups that started above the last row, and
    all of them are above the row [GRID_ROWS]. *)
Theorem rows_after_turns (n : nat) (bricks : list Brick) (pickups : list Pickup) :
  Nat.iter n moveBricksDown bricks
  = map (fun brick => setGridY brick (gridY brick + Z.of_nat n)) bricks
  /\ (checkGameOver (Nat.iter n moveBricksDown bricks) = true
      <-> exists brick, In brick bricks
                        /\ (GRID_ROWS <= gridY brick + Z.of_nat n)%Z)
  /\ removeBottomPickups (movePickupsDown pickups)
     = movePickupsDown
         (filter (fun pickup => (pickupGridY pickup + 1 <? GRID_ROWS)%Z) pickups)
  /\ Forall (fun pickup => (pickupGridY pickup < GRID_ROWS)%Z)
            (removeBottomPickups (movePickupsDown pickups)).
Proof.
  split; [apply moveBricksDown_iter|].
  split; [|split; [apply removeBottomPickups_movePickupsDown|]].
  - rewrite moveBricksDown_iter. unfold checkGameOver.
    rewrite existsb_exists. split.
    + intros (b' & Hin & Hrow). apply in_map_iff in Hin.
      destruct Hin as (b & <- & Hin). cbn [gridY setGridY] in Hrow.
      exists b. split; [exact Hin | lia].
    + intros (b & Hin & Hrow).
      exists (setGridY b (gridY b + Z.of_nat n)). split.
      * apply in_map_iff. exists b. auto.
      * cbn [gridY setGridY]. lia.
  - unfold removeBottomPickups. apply Forall_forall. intros p Hp.
    apply filter_In in Hp. destruct Hp as [_ Hp]. lia.
Qed.

(** ** InputHandler.handleKeyDown and the game *)

Lemma offCanvas_misses (scale cx cy w h : R) :
  0 < scale -> 60 * scale <= cx -> 0 <= cy -> 0 <= w <= 120 * scale ->
  isPointInBounds {| x := -1; y := -1 |}
    {| btnX := cx; btnY := cy; btnWidth := w; btnHeight := h |} = false.
Proof.
  intros Hs Hx Hy Hw. unfold isPointInBounds. cbn [x y btnX btnY btnWidth btnHeight].
  assert (E : (-1 >=? cx - w / 2) = false) by (apply Rgeb_false; lra).
  now rewrite E.
Qed.

(** The Escape key, on a canvas that [resize] has laid out: the tap at
    (-1, -1) that the handler emits lies in no button, so it pauses the game
    from [aiming] and from [animating], remembering the state, and does
    nothing in every other state.  A tap on Resume then gives back the game
    as it was, up to the remembered state and the flag of the launch
    point. *)
Theorem escape_key_pauses
    (random : nat -> R) (variant : ManagerVariant) (weights : PickupTable)
    (containerWidth containerHeight : R) (rect : DOMRect) (g : Game) :
  0 < containerWidth -> 0 < containerHeight ->
  let rd := Renderer.resize containerWidth containerHeight in
  let g' := deliver random variant weights rd (handleKeyDown rect Escape) g in
  g' = match state g with
       | aiming =>
           set_isMovingLaunchPoint false
             (set_state paused (set_previousState aiming g))
       | animating => set_state paused (set_previousState animating g)
       | _ => g
       end
  /\ (state g = aiming ->
      deliver random variant weights rd [tapResume rd] g'
      = set_isMovingLaunchPoint false (set_previousState aiming g))
  /\ (state g = animating ->
      deliver random variant weights rd [tapResume rd] g'
      = set_previousState animating g).
Proof.
  intros Hw Hh rd g'.
  destruct (resize_dims containerWidth containerHeight Hw Hh)
    as (Hs & Ewidth & Eheight & _).
  fold rd in Hs, Ewidth, Eheight.
  assert (Hpause : isPauseRequest {| x := -1; y := -1 |} = true).
  { unfold isPauseRequest. cbn [x y].
    assert (E : (-1 =? -1) = true) by (apply Reqb_true; reflexivity).
    now rewrite E. }
  assert (Hmiss : forall dx dy w h,
            0 <= dx -> 0 <= dy + 300 -> 0 <= w <= 120 ->
            isPointInBounds {| x := -1; y := -1 |}
              {| btnX := Renderer.width rd / 2 + dx * Renderer.scale rd;
                 btnY := Renderer.height rd / 2 + dy * Renderer.scale rd;
                 btnWidth := w * Renderer.scale rd;
                 btnHeight := h |} = false).
  { intros dx dy w h Hdx Hdy Hwd.
    apply (offCanvas_misses (Renderer.scale rd)); rewrite ?Ewidth, ?Eheight.
    - exact Hs.
    - assert (0 <= dx * Renderer.scale rd) by (apply Rmult_le_pos; lra). lra.
    - assert (0 <= (dy + 300) * Renderer.scale rd)
        by (apply Rmult_le_pos; lra). lra.
    - split; [apply Rmult_le_pos; lra | apply Rmult_le_compat_r; lra]. }
  assert (Hspeed : isPointInBounds {| x := -1; y := -1 |}
                     (Renderer.getSpeedButtonBounds rd) = false).
  { unfold Renderer.getSpeedButtonBounds.
    apply (offCanvas_misses (Renderer.scale rd)); rewrite ?Ewidth, ?Eheight.
    - exact Hs.
    - lra.
    - destruct (resize_dims containerWidth containerHeight Hw Hh)
        as (_ & _ & _ & _ & El & _). fold rd in El. rewrite El. lra.
    - lra. }
  assert (Hfirst :
    g' = match state g with
         | aiming =>
             set_isMovingLaunchPoint false
               (set_state paused (set_previousState aiming g))
         | animating => set_state paused (set_previousState animating g)
         | _ => g
         end).
  { subst g'. unfold deliver, handleKeyDown. cbn [app fold_left].
    unfold handleInput; cbv zeta. cbn [eventType eventPosition].
    destruct (state g) eqn:Hst.
    - unfold handleMenuInput, Renderer.getMenuButtonBounds.
      cbn [Renderer.play Renderer.menuSettings].
      replace (Renderer.width rd / 2)
        with (Renderer.width rd / 2 + 0 * Renderer.scale rd) by lra.
      rewrite (Hmiss 0 20 120 _) by lra.
      rewrite (Hmiss 0 80 100 _) by lra. reflexivity.
    - unfold handleAimingInput; cbv zeta. now rewrite Hpause.
    - reflexivity.
    - unfold handleAnimatingInput. now rewrite Hspeed, Hpause.
    - unfold handlePausedInput, Renderer.getPauseButtonBounds.
      cbn [Renderer.resume Renderer.restart Renderer.pauseSettings].
      replace (Renderer.width rd / 2)
        with (Renderer.width rd / 2 + 0 * Renderer.scale rd) by lra.
      replace (Renderer.height rd / 2 - 20 * Renderer.scale rd)
        with (Renderer.height rd / 2 + (-20) * Renderer.scale rd) by lra.
      rewrite (Hmiss 0 (-20) 100 _) by lra.
      rewrite (Hmiss 0 30 100 _) by lra.
      rewrite (Hmiss 0 80 100 _) by lra. reflexivity.
    - unfold handleGameOverInput, Renderer.getGameOverPlayAgain.
      replace (Renderer.width rd / 2)
        with (Renderer.width rd / 2 + 0 * Renderer.scale rd) by lra.
      rewrite (Hmiss 0 50 120 _) by lra. reflexivity.
    - unfold handleSettingsInput, Renderer.getSettingsButtonBounds.
      cbn [Renderer.toggle Renderer.back].
      replace (Renderer.height rd / 2 - 20 * Renderer.scale rd)
        with (Renderer.height rd / 2 + (-20) * Renderer.scale rd) by lra.
      rewrite (Hmiss 35 (-20) 50 _) by lra.
      replace (Renderer.width rd / 2)
        with (Renderer.width rd / 2 + 0 * Renderer.scale rd) by lra.
      rewrite (Hmiss 0 80 100 _) by lra. reflexivity. }
  split; [exact Hfirst|].
  split; intros Hst; rewrite Hfirst, Hst; unfold deliver; cbn [fold_left];
    rewrite (resume_from_pause random variant weights rd Hs) by reflexivity;
    destruct g; cbn in *; subst; reflexivity.
Qed.

Lemma escape_key_pauses_witness :
  deliver (fun _ => 0.5) WeightedPickups PICKUP_WEIGHTS
    (Renderer.resize 350 600)
    (handleKeyDown {| rectLeft := 0; rectTop := 0; rectWidth := 350;
                      rectHeight := 600 |} Escape)
    (newGame (Renderer.resize 350 600)
       {| nextBrickId := 0; nextPickupId := 0; drawn := 0 |}
       {| easyMode := false; soundEnabled := true; vibrationEnabled := true |}
       {| normal_ := 0; easy := 0 |})
  = newGame (Renderer.resize 350 600)
      {| nextBrickId := 0; nextPickupId := 0; drawn := 0 |}
      {| easyMode := false; soundEnabled := true; vibrationEnabled := true |}
      {| normal_ := 0; easy := 0 |}.
Proof.
  apply (escape_key_pauses (fun _ => 0.5) WeightedPickups PICKUP_WEIGHTS
           350 600
           {| rectLeft := 0; rectTop := 0; rectWidth := 350; rectHeight := 600 |}
           (newGame (Renderer.resize 350 600)
              {| nextBrickId := 0; nextPickupId := 0; drawn := 0 |}
              {| easyMode := false; soundEnabled := true;
                 vibrationEnabled := true |}
              {| normal_ := 0; easy := 0 |})); lra.
Defined.

(** The Space key while the balls fly, on a canvas that [resize] has laid
    out and whose rectangle has the size of the canvas: the tap that the
    handler emits, 30 units inside the lower right corner, lies inside the
    speed button when the scale is strictly between 3/7 and 1, and then it
    cycles the speed; it lies outside the button when the scale is below
    3/7 or above 1, and then it leaves the game as it is.  At the two
    boundary scales the tap is on the edge of the button, where the
    comparison of the program depends on the rounding of its numbers;
    nothing is stated there. *)
Theorem space_key_cycles_speed
    (random : nat -> R) (variant : ManagerVariant) (weights : PickupTable)
    (containerWidth containerHeight : R) (rect : DOMRect) (g : Game) :
  0 < containerWidth -> 0 < containerHeight ->
  let rd := Renderer.resize containerWidth containerHeight in
  rectWidth rect = Renderer.width rd -> rectHeight rect = Renderer.height rd ->
  state g = animating ->
  (3 / 7 < Renderer.scale rd < 1 ->
   deliver random variant weights rd (handleKeyDown rect Space) g
   = cycleSpeed g)
  /\ (Renderer.scale rd < 3 / 7 \/ 1 < Renderer.scale rd ->
      deliver random variant weights rd (handleKeyDown rect Space) g = g).
Proof.
  intros Hw Hh rd Erw Erh Hst.
  destruct (resize_dims containerWidth containerHeight Hw Hh)
    as (Hs & Ewidth & Eheight & _ & Elaunch & _).
  fold rd in Hs, Ewidth, Eheight, Elaunch.
  unfold deliver, handleKeyDown. cbn [app fold_left].
  unfold handleInput; cbv zeta. rewrite Hst.
  unfold handleAnimatingInput. cbn [eventType eventPosition].
  unfold isPointInBounds, Renderer.getSpeedButtonBounds, isPauseRequest.
  cbn [x y btnX btnY btnWidth btnHeight].
  rewrite Erw, Erh, Elaunch, Ewidth, Eheight.
  set (s := Renderer.scale rd) in *.
  split.
  - intros [Hlo Hhi].
    assert (E1 : (350 * s - 30 >=? 350 * s - 40 * s - 10 * s - 40 * s / 2) = true)
      by (apply Rgeb_true; lra).
    assert (E2 : (350 * s - 30 <=? 350 * s - 40 * s - 10 * s + 40 * s / 2) = true)
      by (apply Rleb_true; lra).
    assert (E3 : (600 * s - 30 >=? 600 * s - 60 * s / 2 - 40 * s / 2 - 40 * s / 2)
                 = true) by (apply Rgeb_true; lra).
    assert (E4 : (600 * s - 30 <=? 600 * s - 60 * s / 2 - 40 * s / 2 + 40 * s / 2)
                 = true) by (apply Rleb_true; lra).
    now rewrite E1, E2, E3, E4.
  - intros Hout.
    assert (Eno : (350 * s - 30 =? -1) && (600 * s - 30 =? -1) = false).
    { destruct (350 * s - 30 =? -1) eqn:Ea; [|reflexivity].
      apply Reqb_true in Ea. cbn [andb]. apply Reqb_false. lra. }
    rewrite Eno.
    destruct Hout as [Hlo | Hhi].
    + assert (E1 : (350 * s - 30 >=? 350 * s - 40 * s - 10 * s - 40 * s / 2)
                   = false) by (apply Rgeb_false; lra).
      rewrite E1. reflexivity.
    + assert (E2 : (350 * s - 30 <=? 350 * s - 40 * s - 10 * s + 40 * s / 2)
                   = false) by (apply Rleb_false; lra).
      rewrite E2, andb_false_r. reflexivity.
Qed.

Lemma space_key_cycles_speed_witness :
  deliver (fun _ => 0.5) WeightedPickups PICKUP_WEIGHTS
    (Renderer.resize 280 600)
    (handleKeyDown {| rectLeft := 0; rectTop := 0; rectWidth := 280;
                      rectHeight := 280 / (7 / 12) |} Space)
    (set_state animating
       (newGame (Renderer.resize 280 600)
          {| nextBrickId := 0; nextPickupId := 0; drawn := 0 |}
          {| easyMode := false; soundEnabled := true; vibrationEnabled := true |}
          {| normal_ := 0; easy := 0 |}))
  = cycleSpeed
      (set_state animating
         (newGame (Renderer.resize 280 600)
            {| nextBrickId := 0; nextPickupId := 0; drawn := 0 |}
            {| easyMode := false; soundEnabled := true;
               vibrationEnabled := true |}
            {| normal_ := 0; easy := 0 |})).
Proof.
  assert (E : (280 / 600 >? 7 / 12) = false) by (apply Rgtb_false; lra).
  apply (space_key_cycles_speed (fun _ => 0.5) WeightedPickups PICKUP_WEIGHTS
           280 600
           {| rectLeft := 0; rectTop := 0; rectWidth := 280;
              rectHeight := 280 / (7 / 12) |}).
  - lra.
  - lra.
  - unfold Renderer.resize. rewrite E. reflexivity.
  - unfold Renderer.resize. rewrite E. reflexivity.
  - reflexivity.
  - unfold Renderer.resize. rewrite E. cbn. lra.
Defined.

(** ** InputHandler: the events of a gesture *)

Lemma mouse_moves_release (rect : DOMRect) (start pos : Vector2)
    (moves : list (R * R)) (qx qy : R) :
  listenAll rect
    (map (fun m => MouseMove (fst m) (snd m)) moves ++ [MouseUp qx qy])
    {| isDragging := true; startPosition := Some start;
       lastPosition := Some pos; isTouchDevice := false |}
  = ({| isDragging := false; startPosition := None; lastPosition := None;
        isTouchDevice := false |},
     map (fun m => {| eventType := aimMove;
                      eventPosition := getCanvasPosition rect (fst m) (snd m) |})
         moves
     ++ [releaseEvent (Some start) (getCanvasPosition rect qx qy)]).
Proof.
  revert pos; induction moves as [| m moves IH]; intros pos.
  - reflexivity.
  - cbn [map app listenAll listen]. unfold handleMouseMove.
    cbn [isTouchDevice isDragging negb startPosition].
    rewrite IH. reflexivity.
Qed.

Lemma last_cons {A : Type} (l : list A) (a d : A) :
  last (a :: l) d = last l a.
Proof.
  revert a d; induction l as [| b l IH]; intros a d; [reflexivity|].
  change (last (a :: b :: l) d) with (last (b :: l) d).
  rewrite (IH b d), (IH b a). reflexivity.
Qed.

Lemma touch_moves_release (rect : DOMRect) (start pos : Vector2)
    (moves : list (R * R)) (touchDevice : bool) :
  listenAll rect (map (fun m => TouchMove [m]) moves ++ [TouchEnd])
    {| isDragging := true; startPosition := Some start;
       lastPosition := Some pos; isTouchDevice := touchDevice |}
  = ({| isDragging := false; startPosition := None; lastPosition := None;
        isTouchDevice := touchDevice |},
     map (fun m => {| eventType := aimMove;
                      eventPosition := getCanvasPosition rect (fst m) (snd m) |})
         moves
     ++ [releaseEvent (Some start)
           (last (map (fun m => getCanvasPosition rect (fst m) (snd m)) moves)
                 pos)]).
Proof.
  revert pos; induction moves as [| m moves IH]; intros pos.
  - reflexivity.
  - cbn [map app listenAll listen]. unfold handleTouchMove.
    cbn [isTouchDevice isDragging negb startPosition]. destruct m as [mx my].
    rewrite IH. cbn [fst snd app]. rewrite last_cons. reflexivity.
Qed.

(** A gesture gives the game one [aimStart] at the point of the press,
    one [aimMove] for each move, and one release event, and leaves the
    handler idle.  With the mouse the release is at the point of the
    release, with a touch at the last point that a move reported; it is a
    [tap] when that point is less than 10 units from the press in both
    axes, however far the moves went in between, and an [aimEnd]
    otherwise. *)
Theorem gesture_events (rect : DOMRect) (h : InputHandler)
    (px py qx qy : R) (moves : list (R * R)) :
  let at_ := fun m : R * R => getCanvasPosition rect (fst m) (snd m) in
  let idle := {| isDragging := false; startPosition := None;
                 lastPosition := None; isTouchDevice := isTouchDevice h |} in
  let start := {| eventType := aimStart; eventPosition := at_ (px, py) |} in
  let move := fun m => {| eventType := aimMove; eventPosition := at_ m |} in
  (isTouchDevice h = false ->
   listenAll rect
     (MouseDown px py :: map (fun m => MouseMove (fst m) (snd m)) moves
      ++ [MouseUp qx qy]) h
   = (idle,
      start :: map move moves ++ [releaseEvent (Some (at_ (px, py))) (at_ (qx, qy))]))
  /\ listenAll rect
       (TouchStart [(px, py)] :: map (fun m => TouchMove [m]) moves ++ [TouchEnd]) h
     = (idle,
        start :: map move moves
        ++ [releaseEvent (Some (at_ (px, py)))
              (last (map at_ moves) (at_ (px, py)))])
  /\ (forall s q,
        eventType (releaseEvent (Some s) q) = tap
        <-> Rabs (x q - x s) < 10 /\ Rabs (y q - y s) < 10)
  /\ (forall s q, eventType (releaseEvent (Some s) q) = tap
                  \/ eventType (releaseEvent (Some s) q) = aimEnd).
Proof.
  intros at_ idle start move. split; [|split; [|split]].
  - intros Hm. cbn [listenAll listen app]. unfold handleMouseDown. rewrite Hm.
    rewrite mouse_moves_release. subst idle. rewrite Hm. reflexivity.
  - cbn [listenAll listen app]. unfold handleTouchStart.
    rewrite touch_moves_release. reflexivity.
  - intros s q. unfold releaseEvent, wasTap.
    destruct (Rabs (x q - x s) <? 10) eqn:E1;
      [apply Rltb_true in E1 | apply Rltb_false in E1];
      (destruct (Rabs (y q - y s) <? 10) eqn:E2;
       [apply Rltb_true in E2 | apply Rltb_false in E2]);
      cbn [andb eventType]; split; try tauto; try discriminate;
      intros [H1 H2]; lra.
  - intros s q. unfold releaseEvent. destruct (wasTap _ _); auto.
Qed.

(** ** The balls of a turn and its counters *)

Lemma turnInvariant_empty (g : Game) : balls g = [] -> turnInvariant g.
Proof. intros H. split; [intros _; exact H | now left]. Qed.

Lemma turnInvariant_fields (g g' : Game) :
  balls g' = balls g -> ballsLaunched g' = ballsLaunched g ->
  ballsReturned g' = ballsReturned g ->
  (beforeLaunch g' -> balls g = []) ->
  turnInvariant g -> turnInvariant g'.
Proof.
  intros Eb El Er Hempty [_ Hacc]. unfold turnInvariant, turnAccounts.
  rewrite Eb, El, Er. split; [exact Hempty | exact Hacc].
Qed.

Lemma pushBalls_balls (count : nat) (dir : Vector2) (launchY speed : R) (g : Game) :
  exists new,
    balls (pushBalls count dir launchY speed g) = balls g ++ new
    /\ length new = count
    /\ Forall (fun b => active b = false
                        /\ position b = {| x := x (launchPosition g); y := launchY |}
                        /\ velocity b = {| x := x dir * speed; y := y dir * speed |})
              new
    /\ map id new = countFrom (nextBallId g) count
    /\ nextBallId (pushBalls count dir launchY speed g)
       = (nextBallId g + Z.of_nat count)%Z
    /\ ballsLaunched (pushBalls count dir launchY speed g) = ballsLaunched g
    /\ ballsReturned (pushBalls count dir launchY speed g) = ballsReturned g
    /\ state (pushBalls count dir launchY speed g) = state g
    /\ previousState (pushBalls count dir launchY speed g) = previousState g.
Proof.
  revert g; induction count as [| count IH]; intros g; cbn [pushBalls].
  - exists []. rewrite app_nil_r. cbn. repeat split; try constructor; lia.
  - set (newBall := {| id := nextBallId g;
                       position := {| x := x (launchPosition g); y := launchY |};
                       velocity := {| x := x dir * speed; y := y dir * speed |};
                       active := false |}).
    destruct (IH (set_nextBallId (nextBallId g + 1)
                    (set_balls (balls g ++ [newBall]) g)))
      as (new & Eb & El & Hall & Hids & Hn & H1 & H2 & H3 & H4).
    exists (newBall :: new). cbn in *.
    rewrite Eb, <- app_assoc. cbn [app].
    split; [reflexivity|]. split; [now rewrite El|].
    split; [constructor; [subst newBall; cbn; auto | exact Hall]|].
    split; [now rewrite Hids|]. split; [rewrite Hn; lia|].
    repeat split; assumption.
Qed.

Lemma inactive_activeCount (bs : list Ball) :
  Forall (fun b => active b = false) bs -> activeCount bs = 0%nat.
Proof.
  unfold activeCount. induction 1 as [| b bs Hb _ IH]; [reflexivity|].
  cbn [filter]. now rewrite Hb.
Qed.

Lemma launchBalls_turn (renderer : Renderer.t) (g : Game) :
  balls g = [] ->
  launchBalls renderer g = g
  \/ (state (launchBalls renderer g) = animating
      /\ turnAccounts (launchBalls renderer g)).
Proof.
  intros Hempty. unfold launchBalls. destruct (aimDirection g) as [dir|];
    [right | now left].
  cbv zeta.
  match goal with
  | |- context [pushBalls ?n ?d ?ly ?sp ?g0] =>
      destruct (pushBalls_balls n d ly sp g0)
        as (new & Eb & El & Hall & _ & _ & H1 & H2 & _);
      set (g6 := pushBalls n d ly sp g0) in *
  end.
  cbn in Eb, H1, H2. rewrite Hempty in Eb. cbn [app] in Eb.
  split; [reflexivity|].
  unfold turnAccounts. cbn [balls ballsLaunched ballsReturned set_state].
  rewrite Eb, H1, H2. cbn [skipn length Nat.add].
  assert (Hin : Forall (fun b => active b = false) new).
  { eapply Forall_impl; [|exact Hall]. cbn beta. tauto. }
  split; [lia|]. split; [rewrite (inactive_activeCount new Hin); reflexivity|].
  exact Hin.
Qed.

Lemma aimMoveStep_turn (renderer : Renderer.t) (pos : Vector2) (launchY : R)
    (g : Game) :
  balls (aimMoveStep renderer pos launchY g) = balls g
  /\ state (aimMoveStep renderer pos launchY g) = state g
  /\ previousState (aimMoveStep renderer pos launchY g) = previousState g.
Proof.
  unfold aimMoveStep. destruct (_ && _); [repeat split|].
  cbv zeta. destruct (_ >? _); repeat split.
Qed.

Lemma handleAimingInput_turn (renderer : Renderer.t) (ty : InputEventType)
    (pos : Vector2) (g : Game) :
  balls g = [] ->
  balls (handleAimingInput renderer ty pos g) = []
  \/ (state (handleAimingInput renderer ty pos g) = animating
      /\ turnAccounts (handleAimingInput renderer ty pos g)).
Proof.
  intros Hempty. unfold handleAimingInput; cbv zeta.
  destruct ty; cbn [set_isMovingLaunchPoint].
  - destruct (_ && _); left; exact Hempty.
  - left. cbn. destruct (aimMoveStep_turn renderer pos
                           (Renderer.getLaunchZoneY renderer) g) as (E & _).
    now rewrite E.
  - destruct (_ && _); [|left; exact Hempty].
    destruct (launchBalls_turn renderer g Hempty) as [E | [Hs Ht]].
    + left. rewrite E. exact Hempty.
    + right. split; [exact Hs|]. exact Ht.
  - destruct (isPauseRequest pos); left; exact Hempty.
  - left; exact Hempty.
  - left; exact Hempty.
Qed.

Lemma stepBall_turn (renderer : Renderer.t) (deltaTime : R) (b : Ball) (g : Game) :
  let b' := fst (stepBall renderer deltaTime b g) in
  let g' := snd (stepBall renderer deltaTime b g) in
  (active b = false -> b' = b)
  /\ ((if active b' then 1 else 0) + ballsReturned g'
      = (if active b then 1 else 0) + ballsReturned g)%nat
  /\ balls g' = balls g /\ ballsLaunched g' = ballsLaunched g
  /\ state g' = state g /\ previousState g' = previousState g.
Proof.
  unfold stepBall. destruct (active b) eqn:Hact; cbn [negb];
    [|cbn; rewrite Hact; repeat split].
  assert (Hu : active (updateBall b deltaTime (speedValue (speedMultiplier g)))
               = true).
  { unfold updateBall. rewrite Hact. cbn. exact Hact. }
  assert (Hw : forall ph b0, active (fst (checkWallCollision ph b0)) = active b0).
  { intros ph b0. unfold checkWallCollision.
    destruct (_ <=? _); [reflexivity|].
    destruct (_ >=? _); [reflexivity|].
    destruct (_ <=? _); reflexivity. }
  specialize (Hw (physics renderer)
                (updateBall b deltaTime (speedValue (speedMultiplier g)))).
  destruct (checkWallCollision _ _) as [b2 w]. cbn [fst] in Hw.
  assert (Hc : forall bs b0,
            active (fst (collideBricks renderer b0 bs)) = active b0).
  { intros bs. induction bs as [| brick rest IH]; intros b0;
      cbn [collideBricks]; [reflexivity|].
    destruct (destroying brick).
    - specialize (IH b0). destruct (collideBricks renderer b0 rest). exact IH.
    - assert (Hk : active (fst (checkBrickCollision (physics renderer) b0
                                  (getBrickBounds brick
                                     (Renderer.cellWidth renderer)
                                     (Renderer.cellHeight renderer)
                                     (Renderer.gridOffsetX renderer)
                                     (Renderer.gridOffsetY renderer)
                                     (GRID_GAP * Renderer.getScale renderer))))
                     = active b0).
      { unfold checkBrickCollision. cbv zeta.
        repeat match goal with
               | |- context [if ?c then _ else _] => destruct c
               end; reflexivity. }
      destruct (checkBrickCollision _ b0 _) as [b1 collision]. cbn [fst] in Hk.
      specialize (IH b1). destruct (collideBricks renderer b1 rest).
      cbn [fst] in *. congruence. }
  specialize (Hc (bricks g) b2).
  destruct (collideBricks renderer b2 (bricks g)) as [b3 bricks'].
  cbn [fst] in Hc.
  destruct (collectPickups _ _ _ _) as [pickups' count'].
  destruct (checkBottomCollision _ _).
  - cbn [fst snd]. split; [discriminate|].
    destruct (nextLaunchPosition _); cbn; repeat split; lia.
  - cbn [fst snd]. split; [discriminate|].
    assert (Ha : active b3 = true) by congruence.
    rewrite Ha. cbn. repeat split.
Qed.

Lemma stepBalls_turn (renderer : Renderer.t) (deltaTime : R) (bs : list Ball)
    (g : Game) :
  let bs' := fst (stepBalls renderer deltaTime bs g) in
  let g' := snd (stepBalls renderer deltaTime bs g) in
  Forall2 (fun b b' => active b = false -> b' = b) bs bs'
  /\ (activeCount bs' + ballsReturned g' = activeCount bs + ballsReturned g)%nat
  /\ balls g' = balls g /\ ballsLaunched g' = ballsLaunched g
  /\ state g' = state g /\ previousState g' = previousState g.
Proof.
  revert g; induction bs as [| b rest IH]; intros g; cbn [stepBalls].
  - cbn. repeat split. constructor.
  - pose proof (stepBall_turn renderer deltaTime b g) as H1. cbv zeta in H1.
    destruct (stepBall renderer deltaTime b g) as [b' g1]. cbn [fst snd] in H1.
    destruct H1 as (Hb & Hcount & E1 & E2 & E3 & E4).
    pose proof (IH g1) as H2. cbv zeta in H2.
    destruct (stepBalls renderer deltaTime rest g1) as [rest' g2].
    cbn [fst snd] in *.
    destruct H2 as (Hrest & Hcount2 & F1 & F2 & F3 & F4).
    split; [constructor; assumption|].
    split; [|repeat split; congruence].
    unfold activeCount in *. cbn [filter].
    destruct (active b'), (active b); cbn [length] in *; lia.
Qed.

Lemma activate_accounts (bs : list Ball) (n : nat) (b : Ball) :
  nth_error bs n = Some b ->
  Forall (fun b0 => active b0 = false) (skipn n bs) ->
  (n < length bs)%nat
  /\ length (setNth n (setActive b true) bs) = length bs
  /\ activeCount (setNth n (setActive b true) bs) = S (activeCount bs)
  /\ Forall (fun b0 => active b0 = false)
            (skipn (S n) (setNth n (setActive b true) bs)).
Proof.
  revert n; induction bs as [| a bs IH]; intros n Hn Hall.
  - destruct n; discriminate.
  - destruct n as [| n].
    + cbn in Hn. inversion Hn; subst a. cbn [skipn] in Hall.
      inversion Hall as [| ? ? Hb Hrest]; subst.
      cbn [setNth length skipn]. split; [lia|]. split; [reflexivity|].
      split; [|exact Hrest].
      unfold activeCount. cbn [filter active setActive]. rewrite Hb. reflexivity.
    + cbn [nth_error] in Hn. cbn [skipn] in Hall.
      destruct (IH n Hn Hall) as (H1 & H2 & H3 & H4).
      cbn [setNth length]. split; [lia|]. split; [now rewrite H2|].
      split; [|exact H4].
      unfold activeCount in *. cbn [filter].
      destruct (active a); cbn [length]; now rewrite H3.
Qed.

Lemma inactive_kept (bs bs' : list Ball) (n : nat) :
  Forall2 (fun b b' => active b = false -> b' = b) bs bs' ->
  Forall (fun b => active b = false) (skipn n bs) ->
  Forall (fun b => active b = false) (skipn n bs').
Proof.
  intros H. revert n. induction H as [| b b' bs bs' Hb _ IH]; intros n Hall.
  - destruct n; exact Hall.
  - destruct n as [| n]; cbn [skipn] in *.
    + inversion Hall as [| ? ? Hb0 Hrest]; subst.
      constructor; [rewrite (Hb Hb0); exact Hb0 | exact (IH 0%nat Hrest)].
    + now apply IH.
Qed.

Section TurnInvariant.

Variable random : nat -> R.
Variable variant : ManagerVariant.
Variable weights : PickupTable.
Variable renderer : Renderer.t.

Lemma gameSpawnNewRow_balls (g : Game) :
  balls (gameSpawnNewRow random variant weights g) = balls g.
Proof.
  unfold gameSpawnNewRow.
  destruct (managerSpawn random variant weights (level g) (gridManager g))
    as [[newBricks newPickups] gm].
  reflexivity.
Qed.

Lemma startGame_balls (g : Game) :
  balls (startGame random variant weights renderer g) = [].
Proof.
  unfold startGame; cbv zeta. cbn [balls set_state].
  now rewrite gameSpawnNewRow_balls.
Qed.

Lemma endTurn_balls (g : Game) : balls (endTurn random variant weights g) = [].
Proof.
  unfold endTurn; cbv zeta.
  set (g2 := match nextLaunchPosition (set_balls [] g) with
             | Some p => set_launchPosition p (set_balls [] g)
             | None => set_balls [] g
             end).
  assert (H2 : balls g2 = []) by (subst g2; destruct (nextLaunchPosition _); reflexivity).
  clearbody g2.
  destruct (checkGameOver _).
  - unfold handleGameOver.
    destruct (easyMode _); destruct (_ >? _)%Z; exact H2.
  - cbn [balls set_state set_speedMultiplier set_trajectoryPoints
         set_aimDirection].
    rewrite gameSpawnNewRow_balls. exact H2.
Qed.

Lemma updateAnimating_turn (currentTime deltaTime : R) (g : Game) :
  turnInvariant g -> state g = animating ->
  turnInvariant
    (updateAnimating random variant weights renderer currentTime deltaTime g).
Proof.
  intros [_ Hacc] Hst. unfold updateAnimating; cbv zeta.
  match goal with
  | |- context [stepBalls renderer deltaTime (balls ?g0) ?g0] =>
      set (g1 := g0);
      assert (H1 : (balls g1 = [] \/ turnAccounts g1) /\ state g1 = animating)
  end.
  { subst g1. destruct Hacc as [Hempty | (Hle & Hcount & Hrest)].
    - rewrite Hempty. cbn [length].
      destruct (_ <? 0)%nat eqn:E; [apply Nat.ltb_lt in E; lia|].
      cbn [andb]. split; [now left | exact Hst].
    - destruct (_ && _); [|split; [right; repeat split; assumption | exact Hst]].
      destruct (nth_error (balls g) (ballsLaunched g)) as [b|] eqn:En;
        [|split; [right; repeat split; assumption | exact Hst]].
      destruct (activate_accounts _ _ _ En Hrest) as (A1 & A2 & A3 & A4).
      split; [right | exact Hst].
      unfold turnAccounts.
      cbn [balls ballsLaunched ballsReturned set_lastLaunchTime
           set_ballsLaunched set_balls].
      rewrite A2, A3. split; [lia|]. split; [lia | exact A4]. }
  clearbody g1. destruct H1 as [Hacc1 Hst1].
  pose proof (stepBalls_turn renderer deltaTime (balls g1) g1) as H2.
  cbv zeta in H2.
  destruct (stepBalls renderer deltaTime (balls g1) g1) as [balls' g2].
  cbn [fst snd] in H2. destruct H2 as (Hkept & Hcount & Eb & El & Es & Ep).
  destruct (_ && _); [apply turnInvariant_empty, endTurn_balls|].
  split.
  - intros [Hc | [[Hc | Hc] _]]; cbn in Hc; congruence.
  - destruct Hacc1 as [Hempty | (Hle & Hcnt & Hrest)].
    + left. cbn. rewrite Hempty in Hkept. now inversion Hkept.
    + right. unfold turnAccounts.
      cbn [balls ballsLaunched ballsReturned set_balls]. rewrite El.
      pose proof (Forall2_length Hkept) as Hlen.
      split; [lia|]. split; [lia|].
      eapply inactive_kept; eassumption.
Qed.

Lemma update_turn (currentTime deltaTime : R) (g : Game) :
  turnInvariant g ->
  turnInvariant (update random variant weights renderer currentTime deltaTime g).
Proof.
  intros H. unfold update; cbv zeta.
  set (g1 := match state g with
             | animating =>
                 updateAnimating random variant weights renderer
                   currentTime deltaTime g
             | _ => g
             end).
  assert (H1 : turnInvariant g1).
  { subst g1. destruct (state g) eqn:E; try exact H.
    now apply updateAnimating_turn. }
  clearbody g1.
  apply turnInvariant_fields with (g := g1); try reflexivity; [|exact H1].
  intros Hb. apply H1. exact Hb.
Qed.

Lemma handleInput_turn (event : InputEvent) (g : Game) :
  turnInvariant g ->
  turnInvariant (handleInput random variant weights renderer event g).
Proof.
  intros H. pose proof H as [Hempty Hacc].
  unfold handleInput; cbv zeta.
  destruct (state g) eqn:Hst.
  - unfold handleMenuInput.
    destruct (eventType event); try exact H;
      (destruct (isPointInBounds _ _);
       [apply turnInvariant_empty, startGame_balls|]);
      (destruct (isPointInBounds _ _); [|exact H]);
      (apply turnInvariant_fields with (g := g); try reflexivity; [|exact H]);
      (intros [Hc | [_ Hc]]; cbn in Hc; discriminate).
  - assert (Hb : balls g = []) by (apply Hempty; left; exact Hst).
    destruct (handleAimingInput_turn renderer (eventType event)
                (eventPosition event) g Hb) as [He | [Hs Ht]].
    + now apply turnInvariant_empty.
    + split; [|now right].
      intros [Hc | [[Hc | Hc] _]]; congruence.
  - exact H.
  - unfold handleAnimatingInput.
    destruct (eventType event); try exact H.
    destruct (isPointInBounds _ _).
    + apply turnInvariant_fields with (g := g);
        try (unfold cycleSpeed; destruct (speedMultiplier g); reflexivity);
        [|exact H].
      unfold cycleSpeed, beforeLaunch.
      destruct (speedMultiplier g); cbn; rewrite Hst;
        intros [Hc | [[Hc | Hc] _]]; discriminate.
    + destruct (isPauseRequest _); [|exact H].
      apply turnInvariant_fields with (g := g); try reflexivity; [|exact H].
      intros [Hc | [_ Hc]]; cbn in Hc; discriminate.
  - unfold handlePausedInput.
    destruct (eventType event); try exact H;
      (destruct (isPointInBounds _ _);
       [apply turnInvariant_fields with (g := g); try reflexivity; [|exact H];
        unfold beforeLaunch; cbn; intros Hc; apply Hempty; right;
        split; [left; exact Hst | tauto]|]);
      (destruct (isPointInBounds _ _);
       [apply turnInvariant_empty, startGame_balls|]);
      (destruct (isPointInBounds _ _); [|exact H]);
      (apply turnInvariant_fields with (g := g); try reflexivity; [|exact H]);
      (intros [Hc | [_ Hc]]; cbn in Hc; discriminate).
  - unfold handleGameOverInput.
    destruct (eventType event); try exact H;
      (destruct (isPointInBounds _ _);
       [apply turnInvariant_empty, startGame_balls | exact H]).
  - unfold handleSettingsInput.
    destruct (eventType event); try exact H;
      (destruct (isPointInBounds _ _);
       [apply turnInvariant_fields with (g := g); try reflexivity; [|exact H];
        unfold beforeLaunch; cbn; intros Hc; apply Hempty; right;
        split; [right; exact Hst | rewrite Hst in Hc; destruct Hc as [Hc | [_ Hc]];
                                   [discriminate | exact Hc]]|]);
      (destruct (isPointInBounds _ _); [|exact H]);
      (apply turnInvariant_fields with (g := g); try reflexivity; [|exact H];
       unfold beforeLaunch; cbn; intros Hc; apply Hempty; right;
       split; [right; exact Hst | tauto]).
Qed.

Lemma run_turn (actions : list GameAction) (g : Game) :
  turnInvariant g ->
  turnInvariant (run random variant weights renderer actions g).
Proof.
  unfold run. revert g; induction actions as [| a rest IH]; intros g H;
    cbn [fold_left]; [exact H|].
  apply IH. destruct a; cbn [step];
    [now apply handleInput_turn | now apply update_turn].
Qed.

End TurnInvariant.

(** In every state that the game reaches from its start, the counters of
    the turn agree with the balls: unless there is no ball, at most as many
    balls are launched as there are, the balls that are not yet launched are
    inactive, and [ballsReturned] is the number of launched balls that are
    not in flight any more.  While the player aims, and on an overlay that
    will resume to [aiming], there is no ball, so a launch starts from an
    empty list. *)
Theorem reachable_turn_counters
    (random : nat -> R) (variant : ManagerVariant) (weights : PickupTable)
    (renderer : Renderer.t) (gm : GridManager) (saved : GameSettings)
    (scores : HighScores) (actions : list GameAction) :
  let g := run random variant weights renderer actions
             (newGame renderer gm saved scores) in
  (balls g = []
   \/ ((ballsLaunched g <= length (balls g))%nat
       /\ (activeCount (balls g) + ballsReturned g = ballsLaunched g)%nat
       /\ Forall (fun b => active b = false)
                 (skipn (ballsLaunched g) (balls g))))
  /\ (state g = aiming -> balls g = []).
Proof.
  intros g.
  destruct (run_turn random variant weights renderer actions
              (newGame renderer gm saved scores)
              (turnInvariant_empty (newGame renderer gm saved scores) eq_refl))
    as [Hempty Hacc].
  fold g in Hempty, Hacc. split; [exact Hacc|].
  intros Hs. apply Hempty. now left.
Qed.
